(** * xenon: sentence chunking, generation gateway, persona pipeline, playback

    A shallow embedding of [main.py], [llm_interface.py] and [ui_renderer.py].

    Python strings are sequences of Unicode code points; a code point is an
    [N] and a [str] is a list of them.  Python integers are [Z].  A call that
    may raise returns a [result]. *)

From Stdlib Require Import List ZArith NArith Lia Bool Ascii Permutation.
From Stdlib Require String DecimalString SpecFloat.
Import String.StringSyntax.
Import ListNotations.
Open Scope Z_scope.

(** ** Python values *)

Definition char := N.
Definition str := list char.

(** A literal of the source, read as its code points (ASCII literals only;
    other code points are written out where the source has them). *)
Definition lit (s : String.string) : str :=
  map N_of_ascii (String.list_ascii_of_string s).
Arguments lit s%_string_scope.

Definition len {A : Type} (l : list A) : Z := Z.of_nat (length l).

(** What an evaluation ends with: a value, or an exception that nothing in
    the function catches. *)
Inductive exn :=
| RangeStepZero | IndexError | TypeError | ZeroDivisionError | OverflowError
| NanToInteger.

Inductive result (A : Type) : Type :=
| Ok (a : A)
| Raise (e : exn).
Arguments Ok {A} a.
Arguments Raise {A} e.

Definition bind {A B : Type} (r : result A) (k : A -> result B) : result B :=
  match r with
  | Ok a => k a
  | Raise e => Raise e
  end.

Notation "x <- r ;; k" := (bind r (fun x => k))
  (at level 61, r at next level, right associativity).

(** Comparisons of the source, as facts for [lia]. *)
Ltac zbool :=
  repeat match goal with
    | H : (_ >? _) = _ |- _ => rewrite Z.gtb_ltb in H
    | H : (_ >=? _) = _ |- _ => rewrite Z.geb_leb in H
    | H : (_ <? _) = true |- _ => apply Z.ltb_lt in H
    | H : (_ <? _) = false |- _ => apply Z.ltb_ge in H
    | H : (_ <=? _) = true |- _ => apply Z.leb_le in H
    | H : (_ <=? _) = false |- _ => apply Z.leb_gt in H
    | H : (_ =? _) = true |- _ => apply Z.eqb_eq in H
    | H : (_ =? _) = false |- _ => apply Z.eqb_neq in H
    end.

(** ** Character classes *)

Module Chr.

Definition between (lo hi c : N) : bool := ((lo <=? c) && (c <=? hi))%N.

(** [str.isspace], [str.split], [str.strip] and the [\s] of [re] on a [str]
    pattern all test the same property of a code point. *)
Definition isspace (c : char) : bool :=
  between 9 13 c || between 28 32 c
  || (c =? 133)%N || (c =? 160)%N || (c =? 5760)%N
  || between 8192 8202 c
  || (c =? 8232)%N || (c =? 8233)%N || (c =? 8239)%N || (c =? 8287)%N
  || (c =? 12288)%N.

Definition space : char := 32%N.
Definition newline : char := 10%N.
Definition hyphen : char := 45%N.
Definition underscore : char := 95%N.

(** The class [[.!?]] of the sentence pattern. *)
Definition is_terminal (c : char) : bool :=
  ((c =? 46) || (c =? 33) || (c =? 63))%N.

Definition ascii_alnum (c : char) : bool :=
  between 48 57 c || between 65 90 c || between 97 122 c.

End Chr.

(** ** String methods and the two regular expressions of the chunker *)

Module Str.

(** [sep.join(l)] *)
Fixpoint join (sep : str) (l : list str) : str :=
  match l with
  | [] => []
  | [x] => x
  | x :: r => x ++ sep ++ join sep r
  end.

Definition join_sp : list str -> str := join [Chr.space].

Fixpoint lstrip (s : str) : str :=
  match s with
  | [] => []
  | c :: r => if Chr.isspace c then lstrip r else s
  end.

Definition rstrip (s : str) : str := rev (lstrip (rev s)).

(** [s.strip()] *)
Definition strip (s : str) : str := rstrip (lstrip s).

(** [s.split()]: a scan that keeps the word being read in [w]; a run of
    whitespace ends it, and no empty word is produced. *)
Fixpoint split_from (w : str) (s : str) : list str :=
  match s with
  | [] => match w with [] => [] | _ => [w] end
  | c :: r =>
      if Chr.isspace c
      then match w with
           | [] => split_from [] r
           | _ => w :: split_from [] r
           end
      else split_from (w ++ [c]) r
  end.

Definition split (s : str) : list str := split_from [] s.

(** [re.sub(r"\s+", " ", s)]: every maximal run of whitespace becomes one
    space; [in_run] says that the scan is inside a run already replaced. *)
Fixpoint sub_ws_from (in_run : bool) (s : str) : str :=
  match s with
  | [] => []
  | c :: r =>
      if Chr.isspace c
      then if in_run then sub_ws_from true r
           else Chr.space :: sub_ws_from true r
      else c :: sub_ws_from false r
  end.

Definition sub_ws (s : str) : str := sub_ws_from false s.

(** [re.split(r"(?<=[.!?])\s+", s)]: a match starts at a whitespace
    character whose predecessor is one of [.!?] and takes the whole run.
    [in_sep]: the scan is inside a match; [after_term]: the previous
    character is a terminal mark; [piece]: the piece being read.  The last
    piece is always returned, empty or not. *)
Fixpoint re_split_from (in_sep after_term : bool) (piece : str) (s : str)
  : list str :=
  match s with
  | [] => [piece]
  | c :: r =>
      if Chr.isspace c
      then if in_sep then re_split_from true false piece r
           else if after_term then piece :: re_split_from true false [] r
           else re_split_from false false (piece ++ [c]) r
      else re_split_from false (Chr.is_terminal c) (piece ++ [c]) r
  end.

Definition re_split_sentences (s : str) : list str :=
  re_split_from false false [] s.

End Str.

(** ** Ranges and slices *)

Module Py.

(** [range(start, stop, step)] as the list it iterates over. *)
Definition range (start stop step : Z) : result (list Z) :=
  if step =? 0 then Raise RangeStepZero
  else
    let n := if 0 <? step
             then (stop - start + step - 1) / step
             else (start - stop - step - 1) / (- step) in
    Ok (map (fun k => start + Z.of_nat k * step) (seq 0 (Z.to_nat n))).

(** An index of a slice, brought into [0 .. length]. *)
Definition clamp (n i : Z) : Z :=
  let i' := if i <? 0 then i + n else i in
  Z.max 0 (Z.min n i').

(** [l[i:j]] *)
Definition slice {A : Type} (l : list A) (i j : Z) : list A :=
  let a := clamp (len l) i in
  let b := clamp (len l) j in
  firstn (Z.to_nat (b - a)) (skipn (Z.to_nat a) l).

(** [str(n)] for an integer. *)
Definition str_of_Z (n : Z) : str :=
  lit (DecimalString.NilZero.string_of_int (Z.to_int n)).

End Py.

(** ** main.py: [split_into_sentence_chunks] *)

Module Chunker.

(** The three variables the loop and its nested [flush] share. *)
Record state := mk_state {
  chunks : list str;
  cur : list str;
  cur_words : Z
}.

Definition init : state := mk_state [] [] 0.

Definition flush (st : state) : state :=
  match cur st with
  | [] => st
  | _ => mk_state (chunks st ++ [Str.strip (Str.join_sp (cur st))]) [] 0
  end.

(** The chunks a sentence longer than the budget is cut into. *)
Definition hard_split (w : list str) (max_words : Z) : result (list str) :=
  idxs <- Py.range 0 (len w) max_words ;;
  Ok (map (fun i => Str.join_sp (Py.slice w i (i + max_words))) idxs).

(** One iteration of [for s in sentences]. *)
Definition step (max_words : Z) (st : state) (s : str) : result state :=
  let w := Str.split s in
  match w with
  | [] => Ok st
  | _ =>
      if len w >? max_words then
        let st1 := flush st in
        frags <- hard_split w max_words ;;
        Ok (mk_state (chunks st1 ++ frags) (cur st1) (cur_words st1))
      else if cur_words st + len w <=? max_words then
        Ok (mk_state (chunks st) (cur st ++ [s]) (cur_words st + len w))
      else
        let st1 := flush st in
        Ok (mk_state (chunks st1) [s] (len w))
  end.

Fixpoint loop (max_words : Z) (st : state) (sentences : list str)
  : result state :=
  match sentences with
  | [] => Ok st
  | s :: rest => st' <- step max_words st s ;; loop max_words st' rest
  end.

(** The loop and the last [flush], from the sentences on. *)
Definition chunk_sentences (max_words : Z) (sentences : list str)
  : result (list str) :=
  st <- loop max_words init sentences ;;
  Ok (chunks (flush st)).

Definition normalize (text : str) : str := Str.sub_ws (Str.strip text).

Definition split_into_sentence_chunks (text : str) (max_words : Z)
  : result (list str) :=
  match text with
  | [] => Ok []
  | _ =>
      let t := normalize text in
      let sentences := Str.re_split_sentences t in
      chunk_sentences max_words sentences
  end.

End Chunker.

(** ** The [random] module

    The generator itself is not part of the repository.  [draw seed i] stands
    for the raw value behind the [i]-th bounded draw made after
    [random.seed(seed)]; a bounded draw is that value brought below its
    bound, so every outcome the real generator can have is covered. *)

Module Random.

Definition randbelow (raw : nat) (n : nat) : nat := raw mod n.

(** [pool[j] = v] *)
Fixpoint set_nth {A : Type} (j : nat) (v : A) (l : list A) : list A :=
  match l, j with
  | [], _ => []
  | _ :: r, O => v :: r
  | x :: r, S j' => x :: set_nth j' v r
  end.

(** [random.sample(population, k)] for a small population: [k] draws from a
    pool, the drawn slot refilled with the last live element.  [i] counts
    the draws already made. *)
Fixpoint sample_pool {A : Type} (raw : nat -> nat) (d : A) (pool : list A)
  (i k : nat) : list A :=
  match k with
  | O => []
  | S k' =>
      let n := length pool in
      let j := randbelow (raw i) (n - i) in
      nth j pool d
        :: sample_pool raw d (set_nth j (nth (n - i - 1) pool d) pool) (S i) k'
  end.

Definition sample {A : Type} (raw : nat -> nat) (d : A) (population : list A)
  (k : nat) : list A :=
  sample_pool raw d population 0 k.

(** [random.choice(seq)] on a non-empty sequence. *)
Definition choice {A : Type} (raw : nat) (d : A) (seq : list A) : A :=
  nth (randbelow raw (length seq)) seq d.

End Random.

(** ** llm_interface.py *)

Module LLM.

Record LLMConfig := mk_config {
  model_path : str;
  n_ctx : Z;
  n_threads : Z;
  n_gpu_layers : Z
}.

(** How a call of the loaded model ends: with the text of its first choice,
    or with an exception (raised by the model, or by reading a malformed
    answer). *)
Inductive outcome :=
| Returns (text : str)
| Throws.

Definition backend := str -> Z -> outcome.

Record LLMInterface := mk_llm {
  cfg : LLMConfig;
  _llm : option backend;
  _available : bool
}.

(** [__init__]: [Llama] is the imported class, if the import succeeded; its
    constructor may fail. *)
Definition new (Llama : option (LLMConfig -> option backend))
  (c : LLMConfig) : LLMInterface :=
  match Llama, model_path c with
  | Some load, _ :: _ =>
      match load c with
      | Some m => mk_llm c (Some m) true
      | None => mk_llm c None false
      end
  | _, _ => mk_llm c None false
  end.

Definition available (self : LLMInterface) : bool := _available self.

Definition samples : list str :=
  [ lit "The mind wanders like a loose thread, catching on unrelated memories until a small story forms.";
    lit "I trace the edges of an idea and find it mirrors the ordinary: a kettle, a key, a cat in a sunbeam.";
    lit "Between cause and effect there is a hallway of choices; today I walk it slowly, counting the doors." ].

(** [sum(ord(c) for c in prompt) % 1000] *)
Definition seed_of (prompt : str) : Z :=
  Z.of_N (fold_right N.add 0%N prompt) mod 1000.

Section WithGenerator.

(** The raw draws of the generator after [random.seed(seed)]. *)
Variable draw : Z -> nat -> nat.

(** The Unicode database on the code points above ASCII: whether
    [str.isalnum] holds of one. *)
Variable unicode_alnum : char -> bool.

Definition _dummy_generate (prompt : str) : str :=
  let seed := seed_of prompt in
  Str.join [Chr.newline; Chr.newline]
    (Random.sample (draw seed) [] samples (length samples)).

Definition generate (self : LLMInterface) (prompt : str) (max_tokens : Z)
  : str :=
  if negb (_available self) then _dummy_generate prompt
  else
    match _llm self with
    | Some model =>
        match model prompt max_tokens with
        | Returns text => Str.strip text
        | Throws => _dummy_generate prompt
        end
    | None => _dummy_generate prompt
    end.

(** The class [\w] of [re] on a [str] pattern. *)
Definition isalnum (c : char) : bool :=
  if (c <? 128)%N then Chr.ascii_alnum c else unicode_alnum c.

Definition is_word_char (c : char) : bool :=
  isalnum c || (c =? Chr.underscore)%N.

(** What [[^\w\s\-]] does not match. *)
Definition kept (c : char) : bool :=
  is_word_char c || Chr.isspace c || (c =? Chr.hyphen)%N.

Definition topic_prompt : str :=
  lit "You are a random topic generator. Return ONE short topic only (3-6 words), "
  ++ lit "no punctuation, no quotes. Example: amusement parks"
  ++ [Chr.newline] ++ lit "Topic:".

Definition default_topics : list str :=
  [ lit "amusement parks"; lit "rainy sidewalks"; lit "old libraries";
    lit "lost satellites" ].

(** The two substitutions of [generate_topic]. *)
Definition sanitize (raw : str) : str :=
  let line := Str.strip (Str.sub_ws raw) in
  filter kept line.

(** [rnd] is the raw value behind the draw of [random.choice]. *)
Definition generate_topic (self : LLMInterface) (rnd : nat) : str :=
  let raw := generate self topic_prompt 24 in
  let line := sanitize raw in
  match line with
  | _ :: _ => Py.slice line 0 64
  | [] => Random.choice rnd [] default_topics
  end.

End WithGenerator.

(** [LLMWorker]: what a slot emits after its status line. *)
Inductive signal :=
| generated (text : str)
| error (msg : str).

Definition worker_generate (draw : Z -> nat -> nat) (llm : LLMInterface)
  (prompt : str) (max_tokens : Z) : signal :=
  generated (generate draw llm prompt max_tokens).

Definition worker_gen_topic (draw : Z -> nat -> nat)
  (unicode_alnum : char -> bool) (llm : LLMInterface) (rnd : nat) : signal :=
  generated (generate_topic draw unicode_alnum llm rnd).

End LLM.

(** ** main.py: prompt builder and [AppController] *)

Module App.

(** The keys of a persona mapping that the program reads; [None]: the key is
    absent. *)
Record Balloon := mk_balloon {
  x_pos : option Z;
  y_pos : option Z;
  width : option Z;
  height : option Z
}.

Record Persona := mk_persona {
  name : option str;
  display_name : option str;
  image_file_name : option str;
  prompt_persona : option str;
  style_rules : option (list str);
  examples : option (list str);
  max_words_per_chunk : option Z;
  speech_balloon : option Balloon
}.

(** [d.get(key, default)] *)
Definition get {A : Type} (v : option A) (default : A) : A :=
  match v with
  | Some a => a
  | None => default
  end.

Definition bullet : char := 8226%N.
Definition en_dash : char := 8211%N.
Definition em_dash : char := 8212%N.
Definition ellipsis : char := 8230%N.

Definition nl : str := [Chr.newline].

Definition build_prompt (persona : Persona) (topic : str) : str :=
  let persona_txt := Str.strip (get (prompt_persona persona) []) in
  let style_rules := get (style_rules persona) [] in
  let examples := get (examples persona) [] in
  let rules := Str.join nl (map (fun r => lit "- " ++ r) style_rules) in
  let ex := Str.join nl (map (fun e => bullet :: Chr.space :: e) examples) in
  Str.strip
    (nl ++ lit "You adopt the following voice:" ++ nl
     ++ persona_txt ++ nl
     ++ nl
     ++ lit "Style rules:" ++ nl
     ++ rules ++ nl
     ++ nl
     ++ lit "Examples of the voice:" ++ nl
     ++ ex ++ nl
     ++ nl
     ++ lit "Now, reflect in 2" ++ [en_dash]
     ++ lit "4 paragraphs about the topic below in that voice. Do not include headings. Avoid bullet lists. Conclude with a crisp image or turn of phrase."
     ++ nl
     ++ nl
     ++ lit "Topic: " ++ topic ++ nl
     ++ nl
     ++ lit "</END>" ++ nl).

Record PersonaState := mk_pstate {
  persona : Persona;
  topic : str;
  text : str
}.

Inductive awaiting := Topic | Text.

(** The fields of the controller that change during a run. *)
Record AppController := mk_ctrl {
  persona_states : list PersonaState;
  _idx : Z;
  _awaiting : option awaiting
}.

(** The calls the controller makes on the window and on the worker. *)
Inductive action :=
| show_status (msg : str)
| set_background (path : option str)
| set_balloon_rect_design (x y w h : Z)
| play_chunks (chunks : list str)
| gen_topic
| worker_generate (prompt : str) (max_tokens : Z).

(** The signals the controller is connected to. *)
Inductive event :=
| worker_generated (text : str)
| worker_error (msg : str)
| chunkPlaybackFinished.

Record Config := mk_cfg {
  personalities : option (list Persona);
  num_characters : option Z
}.

(** [os.path.join(a, b)] for a relative first part without a final
    separator. *)
Definition path_join (a b : str) : str :=
  match b with
  | 47%N :: _ => b
  | _ => a ++ lit "/" ++ b
  end.

(** [l[i]] *)
Definition index {A : Type} (l : list A) (i : Z) : result A :=
  let j := if i <? 0 then i + len l else i in
  if (j <? 0) || (len l <=? j) then Raise IndexError
  else match nth_error l (Z.to_nat j) with
       | Some a => Ok a
       | None => Raise IndexError
       end.

(** [l[i].field = v], once [l[i]] has been read. *)
Fixpoint update {A : Type} (l : list A) (j : nat) (f : A -> A) : list A :=
  match l, j with
  | [], _ => []
  | x :: r, O => f x :: r
  | x :: r, S j' => x :: update r j' f
  end.

Definition update_at {A : Type} (l : list A) (i : Z) (f : A -> A) : list A :=
  update l (Z.to_nat (if i <? 0 then i + len l else i)) f.

Section WithEnvironment.

(** [os.path.exists] *)
Variable path_exists : str -> bool.

(** The permutation [random.shuffle] leaves the list in. *)
Variable shuffle : list Persona -> list Persona.

Definition existing (path : str) : option str :=
  if path_exists path then Some path else None.

Definition goodbye : str := lit "All personas complete. Goodbye.".

(** What [_next_persona] does for the persona it moves to. *)
Definition enter (p : Persona) : list action :=
  let img := path_join (lit "assets") (get (image_file_name p) []) in
  let rect := get (speech_balloon p)
                  (mk_balloon (Some 80) (Some 80) (Some 864) (Some 560)) in
  [ set_background (existing img);
    set_balloon_rect_design (get (x_pos rect) 80) (get (y_pos rect) 80)
                            (get (width rect) 864) (get (height rect) 560);
    show_status (lit "Persona: "
                 ++ get (display_name p) (get (name p) (lit "?"))
                 ++ [Chr.space; em_dash] ++ lit " choosing topic"
                 ++ [ellipsis]);
    gen_topic ].

Definition _next_persona (self : AppController)
  : result (AppController * list action) :=
  let self := mk_ctrl (persona_states self) (_idx self + 1) (_awaiting self) in
  if _idx self >=? len (persona_states self) then
    Ok (self, [show_status goodbye])
  else
    st <- index (persona_states self) (_idx self) ;;
    Ok (mk_ctrl (persona_states self) (_idx self) (Some Topic),
        enter (persona st)).

Definition _prepare_personas (cfg : Config) (self : AppController)
  : AppController :=
  let plist := shuffle (get (personalities cfg) []) in
  let n := get (num_characters cfg) 1 in
  let plist := Py.slice plist 0 (Z.max 1 n) in
  mk_ctrl (map (fun p => mk_pstate p [] []) plist) (_idx self)
          (_awaiting self).

Definition start (cfg : Config) (self : AppController)
  : result (AppController * list action) :=
  let startup_img := path_join (lit "assets") (lit "startup.jpg") in
  let a1 := [ set_background (existing startup_img);
              show_status (lit "App started" ++ [ellipsis]
                           ++ lit " Initializing LLM" ++ [ellipsis]) ] in
  let self := _prepare_personas cfg self in
  r <- _next_persona self ;;
  Ok (fst r, a1 ++ snd r).

Definition _on_worker_generated (self : AppController) (text : str)
  : result (AppController * list action) :=
  match _awaiting self with
  | Some Topic =>
      st <- index (persona_states self) (_idx self) ;;
      let topic := match text with
                   | _ :: _ => text
                   | [] => lit "amusement parks"
                   end in
      let states := update_at (persona_states self) (_idx self)
                      (fun s => mk_pstate (persona s) topic (App.text s)) in
      let prompt := build_prompt (persona st) topic in
      Ok (mk_ctrl states (_idx self) (Some Text),
          [ show_status (lit "Topic: " ++ topic ++ [Chr.space; em_dash]
                         ++ lit " generating monologue" ++ [ellipsis]);
            worker_generate prompt 700 ])
  | Some Text =>
      st <- index (persona_states self) (_idx self) ;;
      let states := update_at (persona_states self) (_idx self)
                      (fun s => mk_pstate (persona s) (App.topic s) text) in
      let ready := path_join (lit "assets") (lit "ready.jpg") in
      let bg := if path_exists ready then [set_background (Some ready)]
                else [] in
      let mw := get (max_words_per_chunk (persona st)) 120 in
      chunks <- Chunker.split_into_sentence_chunks text (Z.max 40 mw) ;;
      Ok (mk_ctrl states (_idx self) None,
          bg ++ [ show_status (lit "Displaying " ++ Py.str_of_Z (len chunks)
                               ++ lit " chunks" ++ [ellipsis]);
                  play_chunks chunks ])
  | None => Ok (self, [])
  end.

Definition _on_chunk_finished (self : AppController)
  : result (AppController * list action) :=
  r <- _next_persona self ;;
  Ok (fst r, show_status (lit "Persona finished. Moving on" ++ [ellipsis])
             :: snd r).

Definition _on_worker_error (self : AppController) (msg : str)
  : result (AppController * list action) :=
  r <- _next_persona self ;;
  Ok (fst r, show_status (lit "Error: " ++ msg) :: snd r).

(** The slot a signal is connected to. *)
Definition dispatch (self : AppController) (e : event)
  : result (AppController * list action) :=
  match e with
  | worker_generated text => _on_worker_generated self text
  | worker_error msg => _on_worker_error self msg
  | chunkPlaybackFinished => _on_chunk_finished self
  end.

(** A new controller, before [start]. *)
Definition new : AppController := mk_ctrl [] (-1) None.

End WithEnvironment.

(** *** A run of the pipeline

    The controller is driven by the answers to its requests.  Every slot
    makes at most one request, as its last call: [gen_topic], [generate] or
    [play_chunks]; the answer is one signal.  A run ends when a slot makes
    no request. *)

Definition request_of (acts : list action) : option action :=
  match rev acts with
  | gen_topic :: _ => Some gen_topic
  | worker_generate p m :: _ => Some (worker_generate p m)
  | play_chunks c :: _ => Some (play_chunks c)
  | _ => None
  end.

(** How the collaborators answer the [k]-th request of a run. *)
Definition responder := nat -> action -> event.

(** The calls made so far, each with the value of [_idx] at the end of the
    slot that made it (a request is the last call of its slot). *)
Definition trace := list (Z * action).

Definition stamp (self : AppController) (acts : list action) : trace :=
  map (fun a => (_idx self, a)) acts.

Section Run.

Variable path_exists : str -> bool.
Variable answer : responder.

(** [None]: the run is not over after [fuel] signals. *)
Fixpoint run (fuel : nat) (k : nat) (self : AppController)
  (acts : list action) (tr : trace)
  : option (result (AppController * trace)) :=
  let tr := tr ++ stamp self acts in
  match request_of acts with
  | None => Some (Ok (self, tr))
  | Some req =>
      match fuel with
      | O => None
      | S fuel' =>
          match dispatch path_exists self (answer k req) with
          | Ok (self', acts') => run fuel' (S k) self' acts' tr
          | Raise e => Some (Raise e)
          end
      end
  end.

(** A whole run, from [start] on. *)
Definition run_app (shuffle : list Persona -> list Persona) (cfg : Config)
  (fuel : nat) : option (result (AppController * trace)) :=
  match start path_exists shuffle cfg new with
  | Ok (self, acts) => run fuel 0 self acts []
  | Raise e => Some (Raise e)
  end.

End Run.

End App.

(** ** ui_renderer.py: playback *)

Module UI.

(** The functions the window hands to a timer or connects to the end of an
    animation. *)
Inductive callback :=
| chunkPlaybackFinished_emit
| _start_fade_out
| _swap (text : str)
| _hold_then_fade
| show_next.  (* lambda: self._show_next_chunk(initial=False) *)

Inductive animation := fade_in | fade_out.

(** The calls the window makes on its widgets, timers and animations. *)
Inductive effect :=
| balloon_setText (s : str)
| balloon_setHtml (s : str)
| _center_text_vertically
| opacity_setOpacity (percent : Z)
| singleShot (ms : Z) (cb : callback)
| finished_connect (a : animation) (cb : callback)
| finished_disconnect (a : animation) (cb : option callback)
| animation_start (a : animation)
| chunkPlaybackFinished.

(** The fields of the window that playback reads or writes. *)
Record UIRenderer := mk_ui {
  font_point_size : option Z;
  chunk_duration_s : Z;
  chunks : list str;
  _chunk_idx : Z;
  _chunk_duration_ms : Z
}.

Definition set_session (self : UIRenderer) (c : list str) (i d : Z)
  : UIRenderer :=
  mk_ui (font_point_size self) (chunk_duration_s self) c i d.

(** [s.replace(old, new)] for a one-character [old]. *)
Definition replace_char (old : char) (new : str) (s : str) : str :=
  flat_map (fun c => if (c =? old)%N then new else [c]) s.

Definition _escape_html (s : str) : str :=
  replace_char 34%N (lit "&quot;")
    (replace_char 62%N (lit "&gt;")
       (replace_char 60%N (lit "&lt;")
          (replace_char 38%N (lit "&amp;") s))).

Definition _wrap_html (self : UIRenderer) (text : str) : str :=
  let safe_text := replace_char Chr.newline (lit "<br/>") (_escape_html text) in
  lit "<div style='text-align:center; font-size:"
  ++ Py.str_of_Z (match font_point_size self with Some n => n | None => 16 end)
  ++ lit "pt;'>" ++ safe_text ++ lit "</div>".

(** The body of the nested [_swap]. *)
Definition swap_effects (self : UIRenderer) (text : str) : list effect :=
  [ balloon_setHtml (_wrap_html self text);
    _center_text_vertically;
    finished_connect fade_in _hold_then_fade;
    animation_start fade_in ].

Definition _show_next_chunk (self : UIRenderer) (initial : bool)
  : UIRenderer * list effect :=
  let self := set_session self (chunks self) (_chunk_idx self + 1)
                          (_chunk_duration_ms self) in
  if _chunk_idx self >=? len (chunks self) then
    (self, [chunkPlaybackFinished])
  else
    let text := nth (Z.to_nat (_chunk_idx self)) (chunks self) [] in
    if initial then
      (self, opacity_setOpacity 0 :: swap_effects self text)
    else
      (self, [finished_connect fade_out (_swap text);
              animation_start fade_out]).

Definition play_chunks (self : UIRenderer) (chunks : list str)
  (duration_s : option Z) : UIRenderer * list effect :=
  let duration_s := match duration_s with
                    | Some d => d
                    | None => chunk_duration_s self
                    end in
  let self := set_session self chunks (-1)
                          (Z.max 1000 (duration_s * 1000)) in
  match UI.chunks self with
  | [] =>
      (self, [balloon_setText [];
              singleShot 300 chunkPlaybackFinished_emit])
  | _ => _show_next_chunk self true
  end.

Definition callback_eqb (a b : callback) : bool :=
  match a, b with
  | chunkPlaybackFinished_emit, chunkPlaybackFinished_emit
  | _start_fade_out, _start_fade_out
  | _hold_then_fade, _hold_then_fade
  | show_next, show_next => true
  | _swap s, _swap t => if list_eq_dec N.eq_dec s t then true else false
  | _, _ => false
  end.

(** What a callback does when the event loop calls it, [connected] being
    the slots connected to the end of each animation at that moment: the
    window it leaves, the calls it makes, and the exception that ends it,
    if any.  [disconnect] raises [TypeError] when it finds nothing to
    disconnect: no slot at all for [finished.disconnect()], no connection
    of [cb] for [finished.disconnect(cb)].  The call that raises is the last
    one made. *)
Definition call (connected : animation -> list callback)
  (self : UIRenderer) (cb : callback)
  : UIRenderer * list effect * option exn :=
  match cb with
  | chunkPlaybackFinished_emit => (self, [chunkPlaybackFinished], None)
  | _start_fade_out =>
      match connected fade_out with
      | [] => (self, [finished_disconnect fade_out None], Some TypeError)
      | _ :: _ =>
          (self, [finished_disconnect fade_out None;
                  finished_connect fade_out show_next;
                  animation_start fade_out], None)
      end
  | _swap text => (self, swap_effects self text, None)
  | _hold_then_fade =>
      if existsb (callback_eqb _hold_then_fade) (connected fade_in) then
        (self, [finished_disconnect fade_in (Some _hold_then_fade);
                singleShot (_chunk_duration_ms self) _start_fade_out], None)
      else
        (self, [finished_disconnect fade_in (Some _hold_then_fade)],
         Some TypeError)
  | show_next =>
      let (self, effs) := _show_next_chunk self false in (self, effs, None)
  end.

(** *** The event loop

    The window together with what the toolkit holds for it: the timers not
    yet fired, the slots connected to the end of each animation, the
    animations running, the calls made so far, and the exceptions that
    left a callback and reached the event loop. *)
Record world := mk_world {
  window : UIRenderer;
  timers : list (Z * callback);
  slots : animation -> list callback;
  running : list animation;
  log : list effect;
  uncaught : list exn
}.

Definition animation_eqb (a b : animation) : bool :=
  match a, b with
  | fade_in, fade_in | fade_out, fade_out => true
  | _, _ => false
  end.

Fixpoint remove_first (cb : callback) (l : list callback) : list callback :=
  match l with
  | [] => []
  | x :: r => if callback_eqb cb x then r else x :: remove_first cb r
  end.

Definition set_slots (f : animation -> list callback) (a : animation)
  (l : list callback) : animation -> list callback :=
  fun b => if animation_eqb a b then l else f b.

(** The toolkit's side of one call. *)
Definition record (w : world) (e : effect) : world :=
  let w := mk_world (window w) (timers w) (slots w) (running w)
                    (log w ++ [e]) (uncaught w) in
  match e with
  | singleShot ms cb =>
      mk_world (window w) (timers w ++ [(ms, cb)]) (slots w) (running w)
               (log w) (uncaught w)
  | finished_connect a cb =>
      mk_world (window w) (timers w)
               (set_slots (slots w) a (slots w a ++ [cb])) (running w) (log w)
               (uncaught w)
  | finished_disconnect a None =>
      mk_world (window w) (timers w) (set_slots (slots w) a []) (running w)
               (log w) (uncaught w)
  | finished_disconnect a (Some cb) =>
      mk_world (window w) (timers w)
               (set_slots (slots w) a (remove_first cb (slots w a)))
               (running w) (log w) (uncaught w)
  | animation_start a =>
      mk_world (window w) (timers w) (slots w)
               (a :: filter (fun b => negb (animation_eqb a b)) (running w))
               (log w) (uncaught w)
  | _ => w
  end.

(** A method of the window called on the window of a world. *)
Definition perform (w : world)
  (f : UIRenderer -> UIRenderer * list effect) : world :=
  let (self, effs) := f (window w) in
  fold_left record effs
    (mk_world self (timers w) (slots w) (running w) (log w) (uncaught w)).

(** A callback called by the event loop: its calls are recorded, and an
    exception that ends it reaches the event loop. *)
Definition dispatch (w : world) (cb : callback) : world :=
  let '(self, effs, e) := call (slots w) (window w) cb in
  let w' := fold_left record effs
              (mk_world self (timers w) (slots w) (running w) (log w)
                        (uncaught w)) in
  match e with
  | None => w'
  | Some x =>
      mk_world (window w') (timers w') (slots w') (running w') (log w')
               (uncaught w' ++ [x])
  end.

(** One turn of the event loop: a pending timer fires, or a running
    animation ends and the slots connected at that moment are called. *)
Inductive turn : world -> world -> Prop :=
| timer_fires w pre ms cb post :
    timers w = pre ++ (ms, cb) :: post ->
    turn w
      (dispatch (mk_world (window w) (pre ++ post) (slots w) (running w)
                          (log w) (uncaught w))
                cb)
| animation_ends w a :
    In a (running w) ->
    turn w
      (fold_left dispatch (slots w a)
         (mk_world (window w) (timers w) (slots w)
                   (filter (fun b => negb (animation_eqb a b)) (running w))
                   (log w) (uncaught w))).

(** Nothing is scheduled and nothing is moving. *)
Definition idle (w : world) : Prop := timers w = [] /\ running w = [].

Definition is_fade (e : effect) : bool :=
  match e with
  | animation_start _ => true
  | _ => false
  end.

(** The window as [__init__] leaves it ([_chunk_duration_ms] is set by the
    first [play_chunks]), and the world around it. *)
Definition new (font_point_size chunk_duration_s : option Z) : UIRenderer :=
  mk_ui font_point_size
        (match chunk_duration_s with Some d => d | None => 30 end)
        [] (-1) 0.

Definition new_world (self : UIRenderer) : world :=
  mk_world self [] (fun _ => []) [] [] [].

End UI.

(** ** Python floats *)

Module PyFloat.
Import SpecFloat.

(** A Python float is an IEEE 754 binary64 number. *)
Definition prec : Z := 53.
Definition emax : Z := 1024.

(** An int operand of a float operation: the nearest float, the int itself
    when it has at most 53 bits; [OverflowError] when it is too large. *)
Definition of_int (n : Z) : result spec_float :=
  match binary_normalize prec emax n 0 false with
  | S754_infinity _ => Raise OverflowError
  | f => Ok f
  end.

(** [a / b] for two ints. *)
Definition truediv (a b : Z) : result spec_float :=
  if b =? 0 then Raise ZeroDivisionError
  else
    x <- of_int a ;;
    y <- of_int b ;;
    Ok (SFdiv prec emax x y).

(** [f * n] for a float and an int. *)
Definition mul_int (f : spec_float) (n : Z) : result spec_float :=
  y <- of_int n ;;
  Ok (SFmul prec emax f y).

(** [int(f)]: the integral part of [f], towards zero. *)
Definition to_int (f : spec_float) : result Z :=
  match f with
  | S754_zero _ => Ok 0
  | S754_finite s m e => Ok (cond_Zopp s (Z.shiftl (Zpos m) e))
  | S754_infinity _ => Raise OverflowError
  | S754_nan => Raise NanToInteger
  end.

End PyFloat.

(** ** ui_renderer.py: geometry *)

Module Geometry.

Record QRect := mk_rect { x : Z; y : Z; width : Z; height : Z }.

(** The ints of Qt are C ints. *)
Definition int32 (n : Z) : Prop := - 2 ^ 31 <= n < 2 ^ 31.

Definition is_int32 (n : Z) : bool := (- 2 ^ 31 <=? n) && (n <? 2 ^ 31).

(** [QRect(x, y, w, h)] *)
Definition QRect_new (x y w h : Z) : result QRect :=
  if is_int32 x && is_int32 y && is_int32 w && is_int32 h
  then Ok (mk_rect x y w h)
  else Raise OverflowError.

(** The fields of the window that the geometry reads, and its size as
    [width()] and [height()] give it. *)
Record Window := mk_window {
  design_w : Z;
  design_h : Z;
  _rect_design : QRect;
  window_width : Z;
  window_height : Z
}.

(** [int(value / max(1, design) * current)], the division first. *)
Definition ratio (value design : Z) : result SpecFloat.spec_float :=
  PyFloat.truediv value (Z.max 1 design).

Definition scaled (r : SpecFloat.spec_float) (current : Z) : result Z :=
  p <- PyFloat.mul_int r current ;; PyFloat.to_int p.

(** The two together, for one coordinate. *)
Definition scale (value design current : Z) : result Z :=
  r <- ratio value design ;; scaled r current.

(** The rectangle handed to [overlay.setGeometry]. *)
Definition _apply_balloon_geometry (self : Window) : result QRect :=
  let w := window_width self in
  let h := window_height self in
  rx <- ratio (x (_rect_design self)) (design_w self) ;;
  ry <- ratio (y (_rect_design self)) (design_h self) ;;
  rw <- ratio (width (_rect_design self)) (design_w self) ;;
  rh <- ratio (height (_rect_design self)) (design_h self) ;;
  gx <- scaled rx w ;;
  gy <- scaled ry h ;;
  gw <- scaled rw w ;;
  gh <- scaled rh h ;;
  QRect_new gx gy gw gh.

End Geometry.

(** * Facts about the model *)

(** The example of the specification. *)
Example chunk_spec_example :
  Chunker.split_into_sentence_chunks
    (lit "Hello world. This is a test sentence that is quite long indeed.") 3
  = Ok [lit "Hello world."; lit "This is a"; lit "test sentence that";
        lit "is quite long"; lit "indeed."].
Proof. vm_compute. reflexivity. Qed.

(** ** Words and whitespace *)

Module StrFacts.
Import Str.

(** A word: what [split] returns, non-empty and free of whitespace. *)
Definition no_space (w : str) : bool :=
  forallb (fun c => negb (Chr.isspace c)) w.

Definition is_word (w : str) : Prop := w <> [] /\ no_space w = true.

Lemma no_space_app u v :
  no_space (u ++ v) = no_space u && no_space v.
Proof. apply forallb_app. Qed.

Lemma space_isspace : Chr.isspace Chr.space = true.
Proof. reflexivity. Qed.

(** A whitespace character cuts [split] in two independent scans. *)
Lemma split_from_cut w a c b :
  Chr.isspace c = true ->
  split_from w (a ++ c :: b) = split_from w a ++ split_from [] b.
Proof.
  intros Hc. revert w.
  induction a as [|x a IH]; intros w; simpl.
  - rewrite Hc. destruct w; reflexivity.
  - destruct (Chr.isspace x).
    + destruct w; simpl; rewrite IH; reflexivity.
    + apply IH.
Qed.

Lemma split_cut a c b :
  Chr.isspace c = true -> split (a ++ c :: b) = split a ++ split b.
Proof. apply split_from_cut. Qed.

(** Characters that are not whitespace go to the word being read. *)
Lemma split_from_word w u s :
  no_space u = true -> split_from w (u ++ s) = split_from (w ++ u) s.
Proof.
  revert w. induction u as [|x u IH]; intros w Hu; simpl.
  - rewrite app_nil_r. reflexivity.
  - simpl in Hu. apply andb_true_iff in Hu as [Hx Hu].
    apply negb_true_iff in Hx. rewrite Hx, IH by assumption.
    rewrite <- app_assoc. reflexivity.
Qed.

Lemma split_word w : is_word w -> split w = [w].
Proof.
  intros [Hne Hw]. unfold split.
  rewrite <- (app_nil_r w) at 1.
  rewrite split_from_word by assumption. simpl.
  destruct w; [contradiction | reflexivity].
Qed.

(** [split] returns words only. *)
Lemma split_from_words s : forall w,
  no_space w = true -> Forall is_word (split_from w s).
Proof.
  induction s as [|c s IH]; intros w Hw; simpl.
  - destruct w; constructor; [split; [discriminate | assumption] | constructor].
  - destruct (Chr.isspace c) eqn:Hc.
    + destruct w.
      * apply IH. reflexivity.
      * constructor; [split; [discriminate | assumption] | apply IH; reflexivity].
    + apply IH. rewrite no_space_app, Hw. simpl. rewrite Hc. reflexivity.
Qed.

Lemma split_words s : Forall is_word (split s).
Proof. apply split_from_words. reflexivity. Qed.

(** Splitting a join: the words of the parts, in order. *)
Lemma split_join_sp l : split (join_sp l) = concat (map split l).
Proof.
  induction l as [|x l IH]; [reflexivity|].
  destruct l as [|y l].
  - simpl. rewrite app_nil_r. reflexivity.
  - change (join_sp (x :: y :: l)) with (x ++ Chr.space :: join_sp (y :: l)).
    rewrite split_cut by apply space_isspace.
    rewrite IH. reflexivity.
Qed.

Lemma concat_map_split_words ws :
  Forall is_word ws -> concat (map split ws) = ws.
Proof.
  induction 1 as [|w ws Hw _ IH]; [reflexivity|].
  simpl. rewrite split_word, IH by assumption. reflexivity.
Qed.

Lemma split_join_words ws : Forall is_word ws -> split (join_sp ws) = ws.
Proof.
  intros H. rewrite split_join_sp. apply concat_map_split_words, H.
Qed.

(** [strip] and the whitespace substitution keep the words. *)
Lemma split_from_nil s : forall w,
  split_from w s = [] <-> w = [] /\ Forall (fun c => Chr.isspace c = true) s.
Proof.
  induction s as [|c s IH]; intros w; simpl.
  - destruct w; split.
    + auto.
    + reflexivity.
    + discriminate.
    + intros [H _]. discriminate.
  - destruct (Chr.isspace c) eqn:E.
    + destruct w as [|x w].
      * rewrite IH. split; intros [_ H]; split; auto.
        inversion H; assumption.
      * split; [discriminate | intros [H _]; discriminate].
    + rewrite IH. split.
      * intros [H _]. destruct w; discriminate.
      * intros [_ H]. inversion H; congruence.
Qed.

(** A string has no word exactly when all its characters are whitespace. *)
Lemma split_nil_iff s :
  split s = [] <-> Forall (fun c => Chr.isspace c = true) s.
Proof.
  unfold split. rewrite split_from_nil. split; [intros [_ H] | ]; auto.
Qed.

Lemma split_lstrip s : split (lstrip s) = split s.
Proof.
  induction s as [|c s IH]; [reflexivity|].
  simpl. destruct (Chr.isspace c) eqn:Hc; [|reflexivity].
  rewrite IH. unfold split. simpl. rewrite Hc. reflexivity.
Qed.

Lemma split_snoc_space s c :
  Chr.isspace c = true -> split (s ++ [c]) = split s.
Proof.
  intros Hc. rewrite split_cut by assumption. apply app_nil_r.
Qed.

Lemma split_rstrip s : split (rstrip s) = split s.
Proof.
  unfold rstrip. rewrite <- (rev_involutive s) at 2.
  induction (rev s) as [|c r IH]; [reflexivity|].
  simpl. destruct (Chr.isspace c) eqn:Hc.
  - rewrite split_snoc_space by assumption. exact IH.
  - reflexivity.
Qed.

Lemma split_strip s : split (strip s) = split s.
Proof. unfold strip. rewrite split_rstrip. apply split_lstrip. Qed.

Lemma split_from_sub_ws s : forall w,
  split_from w (sub_ws_from false s) = split_from w s
  /\ split_from [] (sub_ws_from true s) = split_from [] s.
Proof.
  induction s as [|c s IH]; intros w; [split; reflexivity|].
  simpl. destruct (Chr.isspace c) eqn:Hc.
  - split.
    + cbn [split_from]. rewrite space_isspace.
      destruct w; rewrite (proj2 (IH [])); reflexivity.
    + apply (IH []).
  - simpl. rewrite Hc. split; apply IH.
Qed.

Lemma split_sub_ws s : split (sub_ws s) = split s.
Proof. apply split_from_sub_ws. Qed.

End StrFacts.

(** ** Sentences, ranges and windows *)

Module SplitFacts.
Import Str StrFacts.

(** The sentence split moves no word: its matches are runs of whitespace. *)
Lemma re_split_from_words s : forall in_sep after_term piece,
  (in_sep = true -> piece = []) ->
  concat (map split (re_split_from in_sep after_term piece s))
  = split (piece ++ s).
Proof.
  induction s as [|c s IH]; intros in_sep after_term piece Hsep; simpl.
  - rewrite !app_nil_r. reflexivity.
  - destruct (Chr.isspace c) eqn:Hc.
    + destruct in_sep.
      * rewrite IH by assumption. rewrite (Hsep eq_refl). simpl.
        unfold split. simpl. rewrite Hc. reflexivity.
      * destruct after_term.
        -- simpl. rewrite (IH true false []) by reflexivity.
           rewrite split_cut by assumption. reflexivity.
        -- rewrite IH by discriminate. rewrite <- app_assoc. reflexivity.
    + rewrite IH by discriminate. rewrite <- app_assoc. reflexivity.
Qed.

Lemma re_split_sentences_words t :
  concat (map split (re_split_sentences t)) = split t.
Proof. apply (re_split_from_words t false false []). discriminate. Qed.

Lemma firstn_add {A : Type} (a b : nat) (l : list A) :
  firstn (a + b) l = firstn a l ++ firstn b (skipn a l).
Proof.
  revert l. induction a as [|a IH]; intros l; [reflexivity|].
  destruct l as [|x l]; simpl.
  - rewrite firstn_nil. reflexivity.
  - rewrite IH. reflexivity.
Qed.

Lemma firstn_min_length {A : Type} (n : nat) (l : list A) :
  firstn n l = firstn (Nat.min n (length l)) l.
Proof.
  destruct (Nat.le_gt_cases n (length l)) as [H|H].
  - rewrite Nat.min_l by assumption. reflexivity.
  - rewrite Nat.min_r by lia. rewrite firstn_all, firstn_all2 by lia.
    reflexivity.
Qed.

(** A slice that starts inside the list, as a window. *)
Lemma slice_window {A : Type} (l : list A) (i d : Z) :
  0 <= i -> 0 <= d ->
  Py.slice l i (i + d) = firstn (Z.to_nat d) (skipn (Z.to_nat i) l).
Proof.
  intros Hi Hd. unfold Py.slice, Py.clamp, len.
  destruct (i <? 0) eqn:E1; [zbool; lia|].
  destruct (i + d <? 0) eqn:E2; [zbool; lia|].
  destruct (Z_le_gt_dec i (Z.of_nat (length l))) as [Hle|Hgt].
  - replace (Z.max 0 (Z.min (Z.of_nat (length l)) i)) with i by lia.
    rewrite (firstn_min_length (Z.to_nat d)).
    f_equal. rewrite length_skipn. lia.
  - rewrite (skipn_all2 l) by lia.
    rewrite (skipn_all2 l) by lia.
    rewrite !firstn_nil. reflexivity.
Qed.

(** The number of windows: [ceil(n / m)]. *)
Definition ceil_div (n m : Z) : Z := (n + m - 1) / m.

Lemma ceil_div_bounds n m :
  1 <= m -> 0 < n ->
  (ceil_div n m - 1) * m < n <= ceil_div n m * m /\ 1 <= ceil_div n m.
Proof.
  intros Hm Hn. unfold ceil_div.
  pose proof (Z.div_mod (n + m - 1) m ltac:(lia)) as E.
  pose proof (Z.mod_pos_bound (n + m - 1) m ltac:(lia)) as B.
  nia.
Qed.

Lemma range_pos n m :
  1 <= m ->
  Py.range 0 n m
  = Ok (map (fun k => Z.of_nat k * m) (seq 0 (Z.to_nat (ceil_div n m)))).
Proof.
  intros Hm. unfold Py.range, ceil_div.
  destruct (m =? 0) eqn:E0; [zbool; lia|].
  destruct (0 <? m) eqn:E1; [|zbool; lia].
  rewrite Z.sub_0_r. reflexivity.
Qed.

(** The word lists of the fragments of [w]. *)
Definition windows (w : list str) (m : Z) : list (list str) :=
  map (fun k => firstn (Z.to_nat m) (skipn (k * Z.to_nat m) w))
      (seq 0 (Z.to_nat (ceil_div (len w) m))).

Lemma hard_split_windows w m :
  1 <= m ->
  Chunker.hard_split w m = Ok (map join_sp (windows w m)).
Proof.
  intros Hm. unfold Chunker.hard_split, windows.
  rewrite range_pos by assumption. simpl.
  rewrite !map_map. f_equal. apply map_ext. intros k.
  rewrite slice_window by lia. do 3 f_equal. lia.
Qed.

Lemma concat_windows_firstn (w : list str) (m n : nat) :
  concat (map (fun k => firstn m (skipn (k * m) w)) (seq 0 n))
  = firstn (n * m) w.
Proof.
  induction n as [|n IH]; [reflexivity|].
  rewrite seq_S, map_app, concat_app, IH. simpl.
  rewrite app_nil_r, (Nat.add_comm m), firstn_add. reflexivity.
Qed.

Lemma concat_windows w m : 1 <= m -> concat (windows w m) = w.
Proof.
  intros Hm. unfold windows. rewrite concat_windows_firstn.
  apply firstn_all2.
  destruct w as [|x w]; [simpl; lia|].
  assert (0 < len (x :: w)) as Hn by (unfold len; simpl; lia).
  pose proof (ceil_div_bounds _ _ Hm Hn) as B.
  apply Nat2Z.inj_le. rewrite Nat2Z.inj_mul, !Z2Nat.id by lia.
  fold (len (x :: w)). lia.
Qed.

Lemma length_windows w m :
  len (windows w m) = Z.max 0 (ceil_div (len w) m).
Proof.
  unfold windows, len. rewrite length_map, length_seq. lia.
Qed.

(** Window [k]: [m] words, or what is left for the last one. *)
Lemma nth_window w m (k : nat) :
  1 <= m -> Z.of_nat k < ceil_div (len w) m ->
  exists g, nth_error (windows w m) k = Some g
    /\ g = firstn (Z.to_nat m) (skipn (k * Z.to_nat m) w)
    /\ len g = Z.min m (len w - Z.of_nat k * m)
    /\ 1 <= len g.
Proof.
  intros Hm Hk. eexists. split; [|split; [reflexivity|]].
  - unfold windows. rewrite nth_error_map, nth_error_seq.
    destruct (Nat.ltb_spec k (Z.to_nat (ceil_div (len w) m))); [|lia].
    reflexivity.
  - assert (0 < len w) as Hn.
    { destruct w; [|unfold len; simpl; lia].
      unfold ceil_div, len in Hk. simpl in Hk.
      rewrite Z.div_small in Hk; lia. }
    pose proof (ceil_div_bounds _ _ Hm Hn) as B.
    unfold len in *. rewrite length_firstn, length_skipn. nia.
Qed.

Lemma windows_nonempty w m :
  1 <= m -> Forall (fun g => g <> []) (windows w m).
Proof.
  intros Hm. apply Forall_forall. intros g Hg.
  apply In_nth_error in Hg as [k Hk].
  assert (Z.of_nat k < ceil_div (len w) m) as Hlt.
  { apply nth_error_Some_lt in Hk ||
      (assert (k < length (windows w m))%nat by
         (apply nth_error_Some; congruence)).
    pose proof (length_windows w m). unfold len in *. lia. }
  destruct (nth_window w m k Hm Hlt) as (g' & E & _ & _ & L).
  rewrite Hk in E. injection E as <-.
  intros ->. unfold len in L. simpl in L. lia.
Qed.

Lemma windows_bounded w m :
  1 <= m -> Forall (fun g => len g <= m) (windows w m).
Proof.
  intros Hm. apply Forall_forall. intros g Hg.
  unfold windows in Hg. apply in_map_iff in Hg as (k & <- & _).
  unfold len. rewrite length_firstn. lia.
Qed.

Lemma windows_sub w m g : In g (windows w m) -> incl g w.
Proof.
  unfold windows. intros Hg. apply in_map_iff in Hg as (k & <- & _).
  intros x Hx.
  rewrite <- (firstn_skipn (k * Z.to_nat m) w). apply in_or_app. right.
  rewrite <- (firstn_skipn (Z.to_nat m) (skipn _ w)). apply in_or_app.
  left. exact Hx.
Qed.

End SplitFacts.

(** ** The chunking loop *)

Module ChunkerFacts.
Import Str StrFacts SplitFacts Chunker.

(** The words of a list of strings, in order. *)
Definition words_of (l : list str) : list str := concat (map split l).

Definition all_words (st : state) : list str :=
  words_of (chunks st) ++ words_of (cur st).

(** A chunk carries at least one word and at most [m]. *)
Definition chunk_ok (m : Z) (c : str) : Prop := 1 <= len (split c) <= m.

(** What every iteration keeps: the counter counts the words waiting in
    [cur], which fit the budget, and every finished chunk is well sized. *)
Record inv (m : Z) (st : state) : Prop := mk_inv {
  inv_count : cur_words st = len (words_of (cur st));
  inv_fit : cur_words st <= m;
  inv_cur : Forall (fun s => split s <> []) (cur st);
  inv_chunks : Forall (chunk_ok m) (chunks st)
}.

Lemma words_of_app a b : words_of (a ++ b) = words_of a ++ words_of b.
Proof. unfold words_of. rewrite map_app, concat_app. reflexivity. Qed.

Lemma words_of_single s : words_of [s] = split s.
Proof. unfold words_of. simpl. apply app_nil_r. Qed.

Lemma len_app {A : Type} (a b : list A) : len (a ++ b) = len a + len b.
Proof. unfold len. rewrite length_app. lia. Qed.

Lemma len_nonneg {A : Type} (a : list A) : 0 <= len a.
Proof. unfold len. lia. Qed.

Lemma len_pos {A : Type} (a : list A) : a <> [] -> 1 <= len a.
Proof. destruct a; [contradiction | unfold len; simpl; lia]. Qed.

Lemma init_inv m : 0 <= m -> inv m init.
Proof. intros Hm. split; simpl; auto. Qed.

Lemma split_flushed l : split (strip (join_sp l)) = words_of l.
Proof. rewrite split_strip. apply split_join_sp. Qed.

Lemma words_of_nonempty l :
  l <> [] -> Forall (fun s => split s <> []) l -> words_of l <> [].
Proof.
  intros Hl Hall. destruct Hall as [|s l Hs _]; [contradiction|].
  unfold words_of. simpl. destruct (split s); [contradiction | discriminate].
Qed.

Lemma flush_cur st : cur (flush st) = [].
Proof. unfold flush. destruct (cur st) eqn:E; [exact E | reflexivity]. Qed.

Lemma flush_cur_words m st : inv m st -> cur_words (flush st) = 0.
Proof.
  intros I. unfold flush. destruct (cur st) eqn:E; [|reflexivity].
  rewrite (inv_count _ _ I), E. reflexivity.
Qed.

Lemma flush_all_words st : words_of (chunks (flush st)) = all_words st.
Proof.
  unfold flush, all_words. destruct (cur st) eqn:E.
  - unfold words_of at 3. simpl. rewrite app_nil_r. reflexivity.
  - cbn [chunks]. rewrite words_of_app, words_of_single, split_flushed.
    reflexivity.
Qed.

Lemma flush_chunks_ok m st :
  inv m st -> Forall (chunk_ok m) (chunks (flush st)).
Proof.
  intros I. unfold flush. destruct (cur st) eqn:E.
  - apply (inv_chunks _ _ I).
  - cbn [chunks]. apply Forall_app. split; [apply (inv_chunks _ _ I)|].
    constructor; [|constructor].
    unfold chunk_ok. rewrite split_flushed, <- E.
    split.
    + apply len_pos, words_of_nonempty; [rewrite E; discriminate|].
      apply (inv_cur _ _ I).
    + rewrite <- (inv_count _ _ I). apply (inv_fit _ _ I).
Qed.

Lemma flush_inv m st : 0 <= m -> inv m st -> inv m (flush st).
Proof.
  intros Hm I. split.
  - rewrite (flush_cur_words m st I), flush_cur. reflexivity.
  - rewrite (flush_cur_words m st I). exact Hm.
  - rewrite flush_cur. constructor.
  - apply flush_chunks_ok, I.
Qed.

(** The three ways an iteration goes, for a budget of at least one. *)
Lemma step_skip m st s : split s = [] -> step m st s = Ok st.
Proof. intros E. unfold step. rewrite E. reflexivity. Qed.

Lemma step_hard m st s :
  1 <= m -> len (split s) > m ->
  step m st s
  = Ok (mk_state (chunks (flush st) ++ map join_sp (windows (split s) m))
                 (cur (flush st)) (cur_words (flush st))).
Proof.
  intros Hm Hn. unfold step.
  destruct (split s) as [|w0 ws] eqn:E; [unfold len in Hn; simpl in Hn; lia|].
  destruct (len (w0 :: ws) >? m) eqn:G; [|zbool; lia].
  rewrite hard_split_windows by assumption. reflexivity.
Qed.

Lemma step_fit m st s :
  split s <> [] -> len (split s) <= m ->
  cur_words st + len (split s) <= m ->
  step m st s
  = Ok (mk_state (chunks st) (cur st ++ [s])
                 (cur_words st + len (split s))).
Proof.
  intros Hne Hn Hfit. unfold step.
  destruct (split s) as [|w0 ws] eqn:E; [contradiction|].
  destruct (len (w0 :: ws) >? m) eqn:G;
    [zbool; lia|].
  destruct (cur_words st + len (w0 :: ws) <=? m) eqn:F;
    [reflexivity | zbool; lia].
Qed.

Lemma step_start m st s :
  split s <> [] -> len (split s) <= m ->
  cur_words st + len (split s) > m ->
  step m st s = Ok (mk_state (chunks (flush st)) [s] (len (split s))).
Proof.
  intros Hne Hn Hfit. unfold step.
  destruct (split s) as [|w0 ws] eqn:E; [contradiction|].
  destruct (len (w0 :: ws) >? m) eqn:G;
    [zbool; lia|].
  destruct (cur_words st + len (w0 :: ws) <=? m) eqn:F;
    [zbool; lia | reflexivity].
Qed.

Lemma windows_chunk_ok m w :
  1 <= m -> Forall is_word w ->
  Forall (chunk_ok m) (map join_sp (windows w m)).
Proof.
  intros Hm Hw. apply Forall_map, Forall_forall. intros g Hg.
  assert (Forall is_word g) as Hgw.
  { apply Forall_forall. intros x Hx.
    eapply Forall_forall; [exact Hw|]. eapply windows_sub; eauto. }
  unfold chunk_ok. rewrite split_join_words by assumption. split.
  - apply len_pos.
    pose proof (windows_nonempty w m Hm) as N.
    eapply Forall_forall in N; eauto.
  - pose proof (windows_bounded w m Hm) as B.
    eapply Forall_forall in B; eauto.
Qed.

Lemma words_of_windows m w :
  1 <= m -> Forall is_word w -> words_of (map join_sp (windows w m)) = w.
Proof.
  intros Hm Hw. unfold words_of. rewrite map_map.
  rewrite (map_ext_in _ (fun g => g)).
  - rewrite map_id. apply concat_windows, Hm.
  - intros g Hg. apply split_join_words.
    apply Forall_forall. intros x Hx.
    eapply Forall_forall; [exact Hw|]. eapply windows_sub; eauto.
Qed.

(** An iteration never raises for a budget of at least one, keeps the
    invariant and adds exactly the words of its sentence. *)
Lemma step_inv m st s :
  1 <= m -> inv m st ->
  exists st', step m st s = Ok st' /\ inv m st'
              /\ all_words st' = all_words st ++ split s.
Proof.
  intros Hm I.
  destruct (split s) as [|w0 ws] eqn:E.
  - exists st. rewrite step_skip by assumption.
    rewrite app_nil_r. auto.
  - assert (split s <> []) as Hne by (rewrite E; discriminate).
    destruct (Z_le_gt_dec (len (split s)) m) as [Hn|Hn].
    + destruct (Z_le_gt_dec (cur_words st + len (split s)) m) as [Hf|Hf].
      * eexists. split; [apply step_fit; assumption|]. rewrite <- E.
        split.
        -- split; cbn [chunks cur cur_words].
           ++ rewrite words_of_app, words_of_single, len_app.
              rewrite (inv_count _ _ I). reflexivity.
           ++ exact Hf.
           ++ apply Forall_app. split; [apply (inv_cur _ _ I)|].
              constructor; [exact Hne | constructor].
           ++ apply (inv_chunks _ _ I).
        -- unfold all_words. cbn [chunks cur].
           rewrite words_of_app, words_of_single, app_assoc. reflexivity.
      * eexists. split; [apply step_start; assumption|]. rewrite <- E.
        split.
        -- split; cbn [chunks cur cur_words].
           ++ rewrite words_of_single. reflexivity.
           ++ exact Hn.
           ++ constructor; [exact Hne | constructor].
           ++ apply flush_chunks_ok, I.
        -- unfold all_words at 1. cbn [chunks cur].
           rewrite flush_all_words, words_of_single. reflexivity.
    + eexists. split; [apply step_hard; assumption|]. rewrite <- E.
      pose proof (split_words s) as Hw.
      split.
      * split; cbn [chunks cur cur_words].
        -- rewrite (flush_cur_words m st I), flush_cur. reflexivity.
        -- rewrite (flush_cur_words m st I). lia.
        -- rewrite flush_cur. constructor.
        -- apply Forall_app. split; [apply flush_chunks_ok, I|].
           apply windows_chunk_ok; assumption.
      * unfold all_words at 1. cbn [chunks cur].
        rewrite flush_cur, words_of_app, flush_all_words.
        rewrite words_of_windows by assumption.
        simpl. rewrite app_nil_r. reflexivity.
Qed.

Lemma loop_inv m ss : forall st,
  1 <= m -> inv m st ->
  exists st', loop m st ss = Ok st' /\ inv m st'
              /\ all_words st' = all_words st ++ words_of ss.
Proof.
  induction ss as [|s ss IH]; intros st Hm I.
  - exists st. simpl. rewrite app_nil_r. auto.
  - destruct (step_inv m st s Hm I) as (st1 & E1 & I1 & W1).
    destruct (IH st1 Hm I1) as (st2 & E2 & I2 & W2).
    exists st2. simpl. rewrite E1. simpl. rewrite E2.
    split; [reflexivity|]. split; [assumption|].
    rewrite W2, W1, <- app_assoc. reflexivity.
Qed.

(** The chunks of a list of sentences. *)
Lemma chunk_sentences_ok m ss :
  1 <= m ->
  exists cs, chunk_sentences m ss = Ok cs
             /\ words_of cs = words_of ss
             /\ Forall (chunk_ok m) cs.
Proof.
  intros Hm.
  destruct (loop_inv m ss init Hm (init_inv m ltac:(lia)))
    as (st & E & I & W).
  exists (chunks (flush st)). unfold chunk_sentences. rewrite E. simpl.
  split; [reflexivity|]. split.
  - rewrite flush_all_words, W. reflexivity.
  - apply flush_chunks_ok, I.
Qed.

Lemma split_normalize text : split (normalize text) = split text.
Proof. unfold normalize. rewrite split_sub_ws. apply split_strip. Qed.

(** The chunks of a text. *)
Lemma chunks_ok text m :
  1 <= m ->
  exists cs, split_into_sentence_chunks text m = Ok cs
             /\ words_of cs = split text
             /\ Forall (chunk_ok m) cs.
Proof.
  intros Hm. destruct text as [|c text].
  - exists []. simpl. auto.
  - destruct (chunk_sentences_ok m
                (re_split_sentences (normalize (c :: text))) Hm)
      as (cs & E & W & B).
    exists cs. split; [exact E|]. split; [|exact B].
    rewrite W. unfold words_of.
    rewrite re_split_sentences_words. apply split_normalize.
Qed.

End ChunkerFacts.

(** ** Normal form: words joined by single spaces *)

Module CanonFacts.
Import Str StrFacts SplitFacts Chunker ChunkerFacts.

(** A string is canonical when it is its words joined by single spaces. *)
Definition canonical (s : str) : Prop := join_sp (split s) = s.

Lemma join_sp_cons x l :
  l <> [] -> join_sp (x :: l) = x ++ Chr.space :: join_sp l.
Proof. destruct l; [contradiction | reflexivity]. Qed.

Lemma join_sp_app a b :
  a <> [] -> b <> [] ->
  join_sp (a ++ b) = join_sp a ++ Chr.space :: join_sp b.
Proof.
  intros Ha Hb. induction a as [|x a IH]; [contradiction|].
  destruct a as [|y a].
  - simpl app. rewrite join_sp_cons by assumption. reflexivity.
  - change ((x :: y :: a) ++ b) with (x :: (y :: a) ++ b).
    rewrite join_sp_cons by discriminate.
    rewrite IH by discriminate.
    rewrite (join_sp_cons x (y :: a)) by discriminate.
    rewrite <- app_assoc. reflexivity.
Qed.

Lemma join_sp_snoc l x :
  l <> [] -> join_sp (l ++ [x]) = join_sp l ++ Chr.space :: x.
Proof. intros Hl. apply join_sp_app; [assumption | discriminate]. Qed.

Lemma concat_nonempty {A : Type} (gs : list (list A)) :
  gs <> [] -> Forall (fun g => g <> []) gs -> concat gs <> [].
Proof.
  intros Hg Hall. destruct Hall as [|g gs Hne _]; [contradiction|].
  simpl. destruct g; [contradiction | discriminate].
Qed.

(** Joining joins is joining the concatenation. *)
Lemma join_sp_concat gs :
  Forall (fun g => g <> []) gs ->
  join_sp (map join_sp gs) = join_sp (concat gs).
Proof.
  induction 1 as [|g gs Hg Hall IH]; [reflexivity|].
  destruct gs as [|g' gs].
  - simpl. rewrite app_nil_r. reflexivity.
  - change (concat (g :: g' :: gs)) with (g ++ concat (g' :: gs)).
    change (map join_sp (g :: g' :: gs))
      with (join_sp g :: map join_sp (g' :: gs)).
    rewrite join_sp_cons by discriminate.
    rewrite IH, join_sp_app;
      [reflexivity | assumption | apply concat_nonempty; [discriminate | assumption]].
Qed.

Lemma canonical_words ws : Forall is_word ws -> canonical (join_sp ws).
Proof. intros H. unfold canonical. rewrite split_join_words; auto. Qed.

Lemma canonical_is_join s : canonical s -> exists ws,
  Forall is_word ws /\ s = join_sp ws.
Proof. intros H. exists (split s). split; [apply split_words | auto]. Qed.

(** Canonical strings with a word each join into a canonical string. *)
Lemma join_sp_canonical l :
  Forall canonical l -> Forall (fun s => split s <> []) l ->
  join_sp l = join_sp (words_of l).
Proof.
  intros Hc Hne. unfold words_of.
  rewrite <- join_sp_concat by (apply Forall_map; exact Hne).
  rewrite map_map. f_equal.
  rewrite <- (map_id l) at 1. apply map_ext_in. intros s Hs.
  symmetry. eapply Forall_forall in Hc; eauto.
Qed.

Lemma rev_join_sp l : rev (join_sp l) = join_sp (rev (map (@rev char) l)).
Proof.
  induction l as [|x l IH]; [reflexivity|].
  destruct l as [|y l]; [reflexivity|].
  rewrite join_sp_cons by discriminate.
  change (x ++ Chr.space :: join_sp (y :: l))
    with (x ++ [Chr.space] ++ join_sp (y :: l)).
  rewrite !rev_app_distr, IH.
  change (rev (map (@rev char) (x :: y :: l)))
    with (rev (map (@rev char) (y :: l)) ++ [rev x]).
  rewrite join_sp_snoc.
  - rewrite <- app_assoc. reflexivity.
  - cbn [map rev]. intros E. apply app_eq_nil in E as [_ E]. discriminate.
Qed.

Lemma is_word_rev w : is_word w -> is_word (rev w).
Proof.
  intros [Hne Hw]. split.
  - intros E. apply Hne. rewrite <- (rev_involutive w), E. reflexivity.
  - unfold no_space in *. rewrite forallb_forall in *.
    intros c Hc. apply Hw, in_rev, Hc.
Qed.

Lemma lstrip_join_words ws :
  Forall is_word ws -> lstrip (join_sp ws) = join_sp ws.
Proof.
  intros H. destruct H as [|w ws [Hne Hw] _]; [reflexivity|].
  destruct w as [|c w]; [contradiction|].
  simpl in Hw. apply andb_true_iff in Hw as [Hc _].
  apply negb_true_iff in Hc.
  destruct ws; simpl; rewrite Hc; reflexivity.
Qed.

Lemma strip_join_words ws :
  Forall is_word ws -> strip (join_sp ws) = join_sp ws.
Proof.
  intros H. unfold strip, rstrip.
  rewrite lstrip_join_words by assumption.
  rewrite rev_join_sp, lstrip_join_words.
  - rewrite <- rev_join_sp. apply rev_involutive.
  - apply Forall_rev, Forall_map.
    eapply Forall_impl; [|exact H]. apply is_word_rev.
Qed.

Lemma strip_canonical s : canonical s -> strip s = s.
Proof.
  intros H. destruct (canonical_is_join s H) as (ws & Hw & ->).
  apply strip_join_words, Hw.
Qed.

(** *** The normalized text is canonical *)

(** After the first character: whitespace is a single space, and a
    character that is not whitespace follows it. *)
Fixpoint tidy_tail (s : str) : bool :=
  match s with
  | [] => true
  | c :: r =>
      if Chr.isspace c
      then (c =? Chr.space)%N
           && match r with
              | [] => false
              | c' :: _ => negb (Chr.isspace c')
              end
           && tidy_tail r
      else tidy_tail r
  end.

Definition tidy (s : str) : bool :=
  match s with
  | [] => true
  | c :: r => negb (Chr.isspace c) && tidy_tail r
  end.

Lemma split_from_acc w s : w <> [] -> split_from w s <> [].
Proof.
  revert w. induction s as [|c s IH]; intros w Hw; simpl.
  - destruct w; [contradiction | discriminate].
  - destruct (Chr.isspace c).
    + destruct w; [contradiction | discriminate].
    + apply IH. destruct w; discriminate.
Qed.

Lemma join_split_tidy_tail r : forall w,
  tidy_tail r = true ->
  (w = [] -> match r with [] => True | c :: _ => Chr.isspace c = false end) ->
  join_sp (split_from w r) = w ++ r.
Proof.
  induction r as [|c r IH]; intros w Ht Hw.
  - simpl. destruct w; [reflexivity|]. simpl. rewrite app_nil_r. reflexivity.
  - simpl in Ht. cbn [split_from]. destruct (Chr.isspace c) eqn:Hc.
    + apply andb_true_iff in Ht as [Ht Ht2].
      apply andb_true_iff in Ht as [Heq Hnext].
      apply N.eqb_eq in Heq. subst c.
      destruct w as [|x w]; [specialize (Hw eq_refl); congruence|].
      destruct r as [|c' r]; [discriminate|].
      apply negb_true_iff in Hnext.
      rewrite join_sp_cons.
      * rewrite (IH []); [reflexivity | assumption | intros _; assumption].
      * cbn [split_from]. rewrite Hnext. apply split_from_acc. discriminate.
    + rewrite IH; [rewrite <- app_assoc; reflexivity | assumption |].
      intros E. destruct w; discriminate.
Qed.

Lemma tidy_canonical s : tidy s = true -> canonical s.
Proof.
  unfold canonical. destruct s as [|c r]; [reflexivity|].
  simpl. intros H. apply andb_true_iff in H as [Hc Ht].
  apply negb_true_iff in Hc. unfold split. simpl. rewrite Hc.
  apply (join_split_tidy_tail r [c]); [assumption | discriminate].
Qed.

(** The last character, if any, is not whitespace. *)
Fixpoint clean_end (s : str) : bool :=
  match s with
  | [] => true
  | [c] => negb (Chr.isspace c)
  | _ :: r => clean_end r
  end.

Lemma clean_end_snoc s c : clean_end (s ++ [c]) = negb (Chr.isspace c).
Proof.
  induction s as [|x s IH]; [reflexivity|].
  simpl. destruct (s ++ [c]) eqn:E; [|exact IH].
  apply app_eq_nil in E as [_ E]. discriminate.
Qed.

Lemma lstrip_head s :
  match lstrip s with
  | [] => True
  | c :: _ => Chr.isspace c = false
  end.
Proof.
  induction s as [|c s IH]; [exact I|].
  simpl. destruct (Chr.isspace c) eqn:Hc; [exact IH | exact Hc].
Qed.

Lemma rstrip_clean_end s : clean_end (rstrip s) = true.
Proof.
  unfold rstrip. pose proof (lstrip_head (rev s)) as H.
  destruct (lstrip (rev s)) as [|c r]; [reflexivity|].
  simpl. rewrite clean_end_snoc, H. reflexivity.
Qed.

Lemma lstrip_snoc a c :
  Chr.isspace c = false -> lstrip (a ++ [c]) = lstrip a ++ [c].
Proof.
  intros Hc. induction a as [|x a IH]; simpl.
  - rewrite Hc. reflexivity.
  - destruct (Chr.isspace x); [exact IH | reflexivity].
Qed.

Lemma rstrip_cons c r :
  Chr.isspace c = false -> rstrip (c :: r) = c :: rstrip r.
Proof.
  intros Hc. unfold rstrip. simpl.
  rewrite lstrip_snoc by assumption.
  rewrite rev_app_distr. reflexivity.
Qed.

Lemma sub_ws_tidy s :
  clean_end s = true ->
  tidy_tail (sub_ws_from false s) = true
  /\ (s <> [] ->
      match sub_ws_from true s with
      | [] => False
      | c :: x => Chr.isspace c = false /\ tidy_tail x = true
      end).
Proof.
  induction s as [|c r IH]; intros Hend; [split; [reflexivity | contradiction]|].
  assert (r <> [] -> clean_end r = true) as Hr.
  { intros Hne. destruct r; [contradiction | exact Hend]. }
  cbn [sub_ws_from]. destruct (Chr.isspace c) eqn:Hc.
  - assert (r <> []) as Hne.
    { intros ->. simpl in Hend. rewrite Hc in Hend. discriminate. }
    destruct (IH (Hr Hne)) as [_ IH2]. specialize (IH2 Hne).
    destruct (sub_ws_from true r) as [|c' x] eqn:E; [contradiction|].
    destruct IH2 as [Hc' Hx]. split.
    + cbn [tidy_tail]. rewrite space_isspace, Hc', Hx, N.eqb_refl.
      reflexivity.
    + intros _. split; assumption.
  - assert (tidy_tail (sub_ws_from false r) = true) as Ht.
    { destruct r as [|y r']; [reflexivity|]. apply IH, Hr. discriminate. }
    split.
    + cbn [tidy_tail]. rewrite Hc. exact Ht.
    + intros _. split; assumption.
Qed.

Lemma normalize_tidy text : tidy (normalize text) = true.
Proof.
  unfold normalize, strip, sub_ws.
  pose proof (lstrip_head text) as H.
  destruct (lstrip text) as [|c r]; [reflexivity|].
  rewrite rstrip_cons by assumption.
  pose proof (rstrip_clean_end (c :: r)) as Hend.
  rewrite rstrip_cons in Hend by assumption.
  destruct (sub_ws_tidy (c :: rstrip r) Hend) as [Ht _].
  change (sub_ws_from false (c :: rstrip r))
    with (if Chr.isspace c
          then Chr.space :: sub_ws_from true (rstrip r)
          else c :: sub_ws_from false (rstrip r)) in *.
  rewrite H in *.
  unfold tidy. rewrite H. simpl in Ht. rewrite H in Ht. exact Ht.
Qed.

Lemma normalize_canonical text : canonical (normalize text).
Proof. apply tidy_canonical, normalize_tidy. Qed.

(** The normalized text is the words of the text joined by single spaces. *)
Lemma normalize_join text : normalize text = join_sp (split text).
Proof.
  pose proof (normalize_canonical text) as H. unfold canonical in H.
  rewrite split_normalize in H. symmetry. exact H.
Qed.

End CanonFacts.

(** ** Sentences and chunks of a normalized text *)

Module SentenceFacts.
Import Str StrFacts SplitFacts Chunker ChunkerFacts CanonFacts.

(** The scan of the sentence split over the characters of a word. *)
Lemma re_split_scan u : forall in_sep b piece s,
  no_space u = true ->
  re_split_from in_sep b piece (u ++ s)
  = re_split_from (match u with [] => in_sep | _ => false end)
                  (fold_left (fun _ c => Chr.is_terminal c) u b)
                  (piece ++ u) s.
Proof.
  induction u as [|c u IH]; intros in_sep b piece s Hu.
  - simpl. rewrite app_nil_r. reflexivity.
  - simpl in Hu. apply andb_true_iff in Hu as [Hc Hu].
    apply negb_true_iff in Hc. cbn [app re_split_from fold_left].
    rewrite Hc, IH by assumption. rewrite <- app_assoc.
    destruct u; reflexivity.
Qed.

(** The piece being read when the scan stands before a word: empty, or
    words already read and the space after them. *)
Definition pre (ps : list str) : str :=
  match ps with
  | [] => []
  | _ => join_sp ps ++ [Chr.space]
  end.

Lemma pre_word ps w : pre ps ++ w = join_sp (ps ++ [w]).
Proof.
  destruct ps as [|p ps]; [reflexivity|].
  unfold pre. rewrite join_sp_snoc by discriminate.
  rewrite <- app_assoc. reflexivity.
Qed.

Lemma pre_snoc ps w : pre (ps ++ [w]) = (pre ps ++ w) ++ [Chr.space].
Proof.
  rewrite pre_word. destruct ps; reflexivity.
Qed.

Lemma re_split_words_canonical ws : forall w ps in_sep b,
  Forall is_word (w :: ws) -> Forall is_word ps ->
  Forall canonical (re_split_from in_sep b (pre ps) (join_sp (w :: ws))).
Proof.
  induction ws as [|w' ws IH]; intros w ps in_sep b Hws Hps.
  - inversion Hws as [|? ? Hw _]; subst.
    change (join_sp [w]) with w. rewrite <- (app_nil_r w) at 1.
    rewrite re_split_scan by apply Hw. cbn [re_split_from].
    constructor; [|constructor]. rewrite pre_word.
    apply canonical_words, Forall_app. split; [assumption|].
    constructor; [assumption | constructor].
  - inversion Hws as [|? ? Hw Hrest]; subst.
    rewrite join_sp_cons by discriminate.
    rewrite re_split_scan by apply Hw.
    destruct w as [|c0 w0]; [destruct Hw as [Hne _]; contradiction|].
    cbn [re_split_from]. rewrite space_isspace.
    assert (canonical (pre ps ++ c0 :: w0)) as Hcan.
    { rewrite pre_word. apply canonical_words, Forall_app.
      split; [assumption|]. constructor; [assumption | constructor]. }
    destruct (fold_left (fun _ c => Chr.is_terminal c) (c0 :: w0) b).
    + constructor; [exact Hcan|].
      apply (IH w' [] true false); [assumption | constructor].
    + rewrite <- pre_snoc. apply IH; [assumption|].
      apply Forall_app. split; [assumption|].
      constructor; [assumption | constructor].
Qed.

(** Every sentence of a normalized text is canonical. *)
Lemma sentences_canonical text :
  Forall canonical (re_split_sentences (normalize text)).
Proof.
  rewrite normalize_join. pose proof (split_words text) as Hw.
  destruct (split text) as [|w ws].
  - simpl. constructor; [reflexivity | constructor].
  - apply (re_split_words_canonical ws w [] false false);
      [assumption | constructor].
Qed.

(** Chunks and waiting sentences are canonical. *)
Definition cinv (st : state) : Prop :=
  Forall canonical (chunks st) /\ Forall canonical (cur st).

Lemma flush_cinv m st : inv m st -> cinv st -> cinv (flush st).
Proof.
  intros I [Hc Hu].
  assert (canonical (strip (join_sp (cur st)))) as K.
  { rewrite join_sp_canonical by (assumption || apply (inv_cur _ _ I)).
    assert (Forall is_word (words_of (cur st))) as Hw.
    { unfold words_of. apply Forall_concat, Forall_map, Forall_forall.
      intros s _. apply split_words. }
    rewrite strip_join_words by assumption.
    apply canonical_words, Hw. }
  unfold flush. destruct (cur st) eqn:E; [split; rewrite ?E; auto|].
  split; cbn [chunks cur]; [|constructor].
  apply Forall_app. split; [assumption|]. constructor; [exact K | constructor].
Qed.

Lemma windows_canonical m w :
  Forall is_word w -> Forall canonical (map join_sp (windows w m)).
Proof.
  intros Hw. apply Forall_map, Forall_forall. intros g Hg.
  apply canonical_words, Forall_forall. intros x Hx.
  eapply Forall_forall; [exact Hw|]. eapply windows_sub; eauto.
Qed.

Lemma step_cinv m st s st' :
  1 <= m -> inv m st -> cinv st -> canonical s ->
  step m st s = Ok st' -> cinv st'.
Proof.
  intros Hm I C Hs E.
  destruct (split s) as [|w0 ws] eqn:Es.
  - rewrite step_skip in E by assumption. injection E as <-. exact C.
  - assert (split s <> []) as Hne by (rewrite Es; discriminate).
    destruct (Z_le_gt_dec (len (split s)) m) as [Hn|Hn].
    + destruct (Z_le_gt_dec (cur_words st + len (split s)) m) as [Hf|Hf].
      * rewrite step_fit in E by assumption. injection E as <-.
        destruct C as [Hc Hu]. split; cbn [chunks cur]; [assumption|].
        apply Forall_app. split; [assumption|].
        constructor; [assumption | constructor].
      * rewrite step_start in E by assumption. injection E as <-.
        split; cbn [chunks cur].
        -- apply (flush_cinv m st I C).
        -- constructor; [assumption | constructor].
    + rewrite step_hard in E by assumption. injection E as <-.
      split; cbn [chunks cur].
      * apply Forall_app. split; [apply (flush_cinv m st I C)|].
        apply windows_canonical, split_words.
      * rewrite flush_cur. constructor.
Qed.

Lemma loop_cinv m ss : forall st st',
  1 <= m -> inv m st -> cinv st -> Forall canonical ss ->
  loop m st ss = Ok st' -> cinv st'.
Proof.
  induction ss as [|s ss IH]; intros st st' Hm I C Hss E.
  - simpl in E. injection E as <-. exact C.
  - inversion Hss as [|? ? Hs Hrest]; subst.
    destruct (step_inv m st s Hm I) as (st1 & E1 & I1 & _).
    simpl in E. rewrite E1 in E. simpl in E.
    apply (IH st1 st' Hm I1); [|assumption|assumption].
    apply (step_cinv m st s st1); assumption.
Qed.

(** Joined by single spaces, the chunks of a text are the normalized text. *)
Lemma chunks_join text m cs :
  1 <= m -> split_into_sentence_chunks text m = Ok cs ->
  join_sp cs = normalize text.
Proof.
  intros Hm E.
  destruct (chunks_ok text m Hm) as (cs' & E' & W & B).
  rewrite E in E'. injection E' as <-.
  rewrite normalize_join, <- W. apply join_sp_canonical.
  - destruct text as [|c text]; [injection E as <-; constructor|].
    unfold split_into_sentence_chunks, chunk_sentences in E.
    destruct (loop_inv m (re_split_sentences (normalize (c :: text))) init Hm
                (init_inv m ltac:(lia))) as (st & El & I & _).
    rewrite El in E. simpl in E. injection E as <-.
    apply (flush_cinv m st I).
    apply (loop_cinv m (re_split_sentences (normalize (c :: text))) init st);
      [assumption | apply init_inv; lia | split; constructor
      | apply sentences_canonical | assumption].
  - eapply Forall_impl; [|exact B]. intros c [H1 _] E0.
    rewrite E0 in H1. unfold len in H1. simpl in H1. lia.
Qed.

End SentenceFacts.

(** ** Chunks already finished do not influence the loop *)

Module PrefixFacts.
Import Str StrFacts SplitFacts Chunker ChunkerFacts.

(** The same state with [cs] before its chunks. *)
Definition prepend (cs : list str) (st : state) : state :=
  mk_state (cs ++ chunks st) (cur st) (cur_words st).

Definition lift (cs : list str) (r : result state) : result state :=
  st <- r ;; Ok (prepend cs st).

Lemma flush_prepend cs st : flush (prepend cs st) = prepend cs (flush st).
Proof.
  unfold flush, prepend. simpl. destruct (cur st) eqn:E; simpl.
  - rewrite E. reflexivity.
  - rewrite app_assoc. reflexivity.
Qed.

Lemma step_prepend m cs st s :
  step m (prepend cs st) s = lift cs (step m st s).
Proof.
  unfold step. destruct (split s) as [|w0 ws]; [reflexivity|].
  destruct (len (w0 :: ws) >? m).
  - rewrite flush_prepend.
    destruct (hard_split (w0 :: ws) m); simpl; [|reflexivity].
    unfold prepend. simpl. rewrite app_assoc. reflexivity.
  - simpl. destruct (cur_words st + len (w0 :: ws) <=? m); simpl.
    + reflexivity.
    + rewrite flush_prepend. reflexivity.
Qed.

Lemma loop_prepend m cs ss : forall st,
  loop m (prepend cs st) ss = lift cs (loop m st ss).
Proof.
  induction ss as [|s ss IH]; intros st; [reflexivity|].
  simpl. rewrite step_prepend.
  destruct (step m st s) as [st1|e]; simpl; [apply IH | reflexivity].
Qed.

Lemma loop_app m a b : forall st,
  loop m st (a ++ b) = (st' <- loop m st a ;; loop m st' b).
Proof.
  induction a as [|s a IH]; intros st; [reflexivity|].
  simpl. destruct (step m st s) as [st1|e]; simpl; [apply IH | reflexivity].
Qed.

(** A sentence without a word leaves no mark. *)
Lemma chunk_sentences_skip m a s b :
  split s = [] ->
  chunk_sentences m (a ++ s :: b) = chunk_sentences m (a ++ b).
Proof.
  intros E. unfold chunk_sentences. rewrite !loop_app.
  destruct (loop m init a) as [st|e]; [|reflexivity].
  simpl. rewrite step_skip by assumption. reflexivity.
Qed.

(** The chunks around a sentence longer than the budget. *)
Lemma chunk_sentences_hard m a s b :
  1 <= m -> len (split s) > m ->
  exists ca cb,
    chunk_sentences m a = Ok ca /\ chunk_sentences m b = Ok cb
    /\ chunk_sentences m (a ++ s :: b)
       = Ok (ca ++ map join_sp (windows (split s) m) ++ cb).
Proof.
  intros Hm Hn.
  destruct (loop_inv m a init Hm (init_inv m ltac:(lia))) as (sa & Ea & Ia & _).
  destruct (loop_inv m b init Hm (init_inv m ltac:(lia))) as (sb & Eb & Ib & _).
  exists (chunks (flush sa)), (chunks (flush sb)).
  unfold chunk_sentences. rewrite Ea, Eb. simpl.
  split; [reflexivity|]. split; [reflexivity|].
  rewrite loop_app, Ea. simpl.
  rewrite step_hard by assumption. simpl.
  rewrite flush_cur, (flush_cur_words m sa Ia).
  replace (mk_state (chunks (flush sa) ++ map join_sp (windows (split s) m)) [] 0)
    with (prepend (chunks (flush sa) ++ map join_sp (windows (split s) m)) init)
    by (unfold prepend; simpl; rewrite app_nil_r; reflexivity).
  rewrite loop_prepend, Eb. simpl.
  rewrite flush_prepend. unfold prepend. simpl.
  rewrite <- app_assoc. reflexivity.
Qed.

End PrefixFacts.

(** ** Groups of whole sentences and cut sentences *)

Module BlockFacts.
Import Str StrFacts SplitFacts Chunker ChunkerFacts CanonFacts SentenceFacts.

(** What becomes of the sentences that have a word: a group of consecutive
    sentences goes out whole, as one chunk; a sentence too long for the
    budget goes out alone, cut into fragments. *)
Inductive block :=
| Group (g : list str)
| Long (s : str).

Definition sentences_of (b : block) : list str :=
  match b with
  | Group g => g
  | Long s => [s]
  end.

Definition chunks_of (m : Z) (b : block) : list str :=
  match b with
  | Group g => [join_sp g]
  | Long s => map join_sp (windows (split s) m)
  end.

(** A sentence the loop does not skip. *)
Definition has_word (s : str) : bool :=
  match split s with
  | [] => false
  | _ => true
  end.

Definition well_formed (m : Z) (b : block) : Prop :=
  match b with
  | Group g =>
      g <> [] /\ Forall (fun s => 1 <= len (split s) <= m) g
      /\ len (words_of g) <= m
  | Long s => len (split s) > m
  end.

(** A group followed by a group had no room for the first sentence of that
    group. *)
Definition overfull (m : Z) (b next : block) : Prop :=
  match b, next with
  | Group g, Group (s :: _) => len (words_of g) + len (split s) > m
  | _, _ => True
  end.

Fixpoint greedy (m : Z) (bs : list block) : Prop :=
  match bs with
  | [] => True
  | b :: rest =>
      match rest with
      | [] => True
      | next :: _ => overfull m b next
      end
      /\ greedy m rest
  end.

(** The last block, if any, is not a group. *)
Definition closed (bs : list block) : Prop :=
  forall bs' g, bs <> bs' ++ [Group g].

Lemma greedy_snoc m bs b next :
  greedy m (bs ++ [b]) -> overfull m b next -> greedy m (bs ++ [b] ++ [next]).
Proof.
  induction bs as [|a bs IH]; intros G O.
  - simpl. auto.
  - destruct G as [G1 G2]. split; [|apply IH; assumption].
    destruct bs as [|c bs]; exact G1.
Qed.

Lemma greedy_last m bs b b' :
  greedy m (bs ++ [b]) ->
  (forall a, overfull m a b -> overfull m a b') ->
  greedy m (bs ++ [b']).
Proof.
  intros G H. induction bs as [|a bs IH].
  - simpl. auto.
  - destruct G as [G1 G2]. split; [|apply IH; assumption].
    destruct bs as [|c bs]; [apply H|]; exact G1.
Qed.

Lemma last_or_nil {A : Type} (l : list A) :
  l = [] \/ exists l' x, l = l' ++ [x].
Proof.
  destruct l as [|a l]; [left; reflexivity|]. right.
  destruct (@exists_last A (a :: l)) as (l' & x & E); [discriminate|].
  exists l', x. exact E.
Qed.

Lemma greedy_long m bs s : greedy m bs -> greedy m (bs ++ [Long s]).
Proof.
  intros G. destruct (last_or_nil bs) as [->|(bs' & b & ->)].
  - simpl. auto.
  - rewrite <- app_assoc. apply greedy_snoc; [exact G|].
    destruct b; exact I.
Qed.

Lemma greedy_closed m bs s :
  greedy m bs -> closed bs -> greedy m (bs ++ [Group [s]]).
Proof.
  intros G C. destruct (last_or_nil bs) as [->|(bs' & b & ->)].
  - simpl. auto.
  - rewrite <- app_assoc. apply greedy_snoc; [exact G|].
    destruct b as [g|s0]; [|exact I]. exfalso. apply (C bs' g). reflexivity.
Qed.

Lemma greedy_grow m bs c s :
  c <> [] -> greedy m (bs ++ [Group c]) -> greedy m (bs ++ [Group (c ++ [s])]).
Proof.
  intros Hc G. apply (greedy_last m bs (Group c)); [exact G|].
  intros a. destruct a as [g|s0]; [|auto].
  destruct c as [|s1 c]; [contradiction|]. simpl. auto.
Qed.

(** The blocks behind the chunks, the group waiting in [cur] last. *)
Definition all_blocks (bs : list block) (cur : list str) : list block :=
  match cur with
  | [] => bs
  | _ => bs ++ [Group cur]
  end.

Record blocked (m : Z) (st : state) (bs : list block) (seen : list str)
  : Prop := mk_blocked {
  b_chunks : chunks st = concat (map (chunks_of m) bs);
  b_sentences : concat (map sentences_of bs) ++ cur st = filter has_word seen;
  b_formed : Forall (well_formed m) bs;
  b_greedy : greedy m (all_blocks bs (cur st));
  b_closed : cur st = [] -> closed bs
}.

Lemma filter_last {A : Type} (f : A -> bool) l x :
  filter f (l ++ [x]) = filter f l ++ (if f x then [x] else []).
Proof. rewrite filter_app. reflexivity. Qed.

(** A group of canonical sentences, each with a word, is flushed as its
    join: there is nothing to strip. *)
Lemma strip_join_group g :
  Forall canonical g -> Forall (fun s => split s <> []) g ->
  strip (join_sp g) = join_sp g.
Proof.
  intros Hc Hw. rewrite join_sp_canonical by assumption.
  apply strip_join_words.
  unfold words_of. apply Forall_concat, Forall_map, Forall_forall.
  intros s _. apply split_words.
Qed.

Lemma waiting_canonical m st bs seen :
  Forall canonical seen -> blocked m st bs seen -> Forall canonical (cur st).
Proof.
  intros Hc B. apply Forall_forall. intros s Hs.
  assert (In s (filter has_word seen)) as Hf
    by (rewrite <- (b_sentences _ _ _ _ B); apply in_or_app; right; exact Hs).
  apply filter_In in Hf as [Hf _].
  eapply Forall_forall; [exact Hc | exact Hf].
Qed.

(** What [flush] leaves in [chunks]: the waiting sentences, joined, behind
    the chunks there were. *)
Lemma flush_emits m st :
  inv m st -> Forall canonical (cur st) ->
  chunks (flush st)
  = chunks st ++ match cur st with
                 | [] => []
                 | _ => [join_sp (cur st)]
                 end.
Proof.
  intros I Hc. unfold flush. destruct (cur st) as [|s0 c] eqn:E.
  - rewrite app_nil_r. reflexivity.
  - cbn [chunks]. rewrite <- E in *.
    rewrite strip_join_group; [reflexivity | exact Hc | apply (inv_cur _ _ I)].
Qed.

Lemma waiting_formed m st :
  inv m st -> cur st <> [] -> well_formed m (Group (cur st)).
Proof.
  intros I Hc. split; [exact Hc|]. split.
  - apply Forall_forall. intros s Hs.
    pose proof (inv_cur _ _ I) as W.
    eapply Forall_forall in W; [|exact Hs].
    split; [apply len_pos, W|].
    apply in_split in Hs as (a & b & E).
    pose proof (inv_count _ _ I) as C. pose proof (inv_fit _ _ I) as F.
    rewrite E, words_of_app in C.
    change (s :: b) with ([s] ++ b) in C.
    rewrite words_of_app, words_of_single, !len_app in C.
    pose proof (len_nonneg (words_of a)). pose proof (len_nonneg (words_of b)).
    lia.
  - rewrite <- (inv_count _ _ I). apply (inv_fit _ _ I).
Qed.

Lemma flush_blocks m st bs seen :
  inv m st -> Forall canonical seen -> blocked m st bs seen ->
  chunks (flush st) = concat (map (chunks_of m) (all_blocks bs (cur st)))
  /\ concat (map sentences_of (all_blocks bs (cur st))) = filter has_word seen
  /\ Forall (well_formed m) (all_blocks bs (cur st)).
Proof.
  intros I Hc B.
  pose proof (waiting_canonical m st bs seen Hc B) as Hw.
  rewrite (flush_emits m st I Hw).
  pose proof (waiting_formed m st I) as F.
  destruct B as [B1 B2 B3 B4 B5]. unfold all_blocks.
  destruct (cur st) as [|s0 c] eqn:E.
  - rewrite !app_nil_r in *. auto.
  - rewrite !map_app, !concat_app. simpl. rewrite !app_nil_r, B1.
    split; [reflexivity|]. split; [exact B2|].
    apply Forall_app. split; [exact B3|].
    constructor; [apply F; discriminate | constructor].
Qed.

Lemma step_blocked m st s bs seen :
  1 <= m -> inv m st -> Forall canonical seen -> canonical s ->
  blocked m st bs seen ->
  exists st' bs',
    step m st s = Ok st' /\ inv m st' /\ blocked m st' bs' (seen ++ [s]).
Proof.
  intros Hm I Hseen Hs B.
  destruct (step_inv m st s Hm I) as (st1 & E1 & I1 & _).
  exists st1. rewrite E1.
  destruct (split s) as [|w0 ws] eqn:E.
  - rewrite step_skip in E1 by assumption. injection E1 as <-.
    exists bs. split; [reflexivity|]. split; [assumption|].
    destruct B. split; auto.
    rewrite filter_last. unfold has_word. rewrite E, app_nil_r. assumption.
  - assert (split s <> []) as Hne by (rewrite E; discriminate).
    assert (has_word s = true) as Hw by (unfold has_word; rewrite E; reflexivity).
    clear E.
    destruct (Z_le_gt_dec (len (split s)) m) as [Hn|Hn].
    + destruct (Z_le_gt_dec (cur_words st + len (split s)) m) as [Hf|Hf].
      * rewrite step_fit in E1 by assumption. injection E1 as <-.
        exists bs. split; [reflexivity|]. split; [assumption|].
        destruct B as [B1 B2 B3 B4 B5]. split; cbn [chunks cur].
        -- exact B1.
        -- rewrite filter_last, Hw, app_assoc, B2. reflexivity.
        -- exact B3.
        -- destruct (cur st) as [|s0 c] eqn:Ec.
           ++ apply greedy_closed; [exact B4 | apply B5; reflexivity].
           ++ unfold all_blocks in *. simpl app.
              change (s0 :: c ++ [s]) with ((s0 :: c) ++ [s]).
              apply greedy_grow; [discriminate | exact B4].
        -- intros H. apply app_eq_nil in H as [_ H]. discriminate.
      * rewrite step_start in E1 by assumption. injection E1 as <-.
        assert (cur st <> []) as Hc.
        { intros Ec. pose proof (inv_count _ _ I) as C. rewrite Ec in C.
          unfold words_of, len in C. simpl in C. lia. }
        destruct (flush_blocks m st bs seen I Hseen B) as (F1 & F2 & F3).
        assert (all_blocks bs (cur st) = bs ++ [Group (cur st)]) as Ea
          by (unfold all_blocks; destruct (cur st); [contradiction | reflexivity]).
        rewrite Ea in *.
        exists (bs ++ [Group (cur st)]).
        split; [reflexivity|]. split; [assumption|].
        split; cbn [chunks cur].
        -- exact F1.
        -- rewrite filter_last, Hw, F2. reflexivity.
        -- exact F3.
        -- unfold all_blocks. rewrite <- app_assoc.
           apply greedy_snoc; [rewrite <- Ea; apply (b_greedy _ _ _ _ B)|].
           simpl. rewrite <- (inv_count _ _ I). exact Hf.
        -- discriminate.
    + rewrite step_hard in E1 by assumption. injection E1 as <-.
      destruct (flush_blocks m st bs seen I Hseen B) as (F1 & F2 & F3).
      exists (all_blocks bs (cur st) ++ [Long s]).
      split; [reflexivity|]. split; [assumption|].
      split; cbn [chunks cur]; rewrite ?flush_cur.
      * rewrite map_app, concat_app, F1. simpl. rewrite app_nil_r.
        reflexivity.
      * rewrite map_app, concat_app, F2, filter_last, Hw. simpl.
        rewrite !app_nil_r. reflexivity.
      * apply Forall_app. split; [exact F3|].
        constructor; [exact Hn | constructor].
      * simpl. apply greedy_long, (b_greedy _ _ _ _ B).
      * intros _ bs' g H. apply app_inj_tail in H as [_ H]. discriminate.
Qed.

Lemma loop_blocked m ss : forall st bs seen,
  1 <= m -> inv m st -> Forall canonical seen -> Forall canonical ss ->
  blocked m st bs seen ->
  exists st' bs',
    loop m st ss = Ok st' /\ inv m st' /\ blocked m st' bs' (seen ++ ss).
Proof.
  induction ss as [|s ss IH]; intros st bs seen Hm I Hseen Hss B.
  - exists st, bs. rewrite app_nil_r. auto.
  - inversion Hss as [|? ? Hs Hrest]; subst.
    destruct (step_blocked m st s bs seen Hm I Hseen Hs B)
      as (st1 & bs1 & E1 & I1 & B1).
    assert (Forall canonical (seen ++ [s])) as Hseen1
      by (apply Forall_app; split; [exact Hseen | constructor; auto]).
    destruct (IH st1 bs1 (seen ++ [s]) Hm I1 Hseen1 Hrest B1)
      as (st2 & bs2 & E2 & I2 & B2).
    exists st2, bs2. simpl. rewrite E1. simpl. rewrite E2.
    rewrite <- app_assoc in B2. auto.
Qed.

(** The chunks of canonical sentences are the chunks of their blocks. *)
Lemma chunk_sentences_blocks m ss :
  1 <= m -> Forall canonical ss ->
  exists blocks,
    chunk_sentences m ss = Ok (concat (map (chunks_of m) blocks))
    /\ concat (map sentences_of blocks) = filter has_word ss
    /\ Forall (well_formed m) blocks
    /\ greedy m blocks.
Proof.
  intros Hm Hss.
  assert (blocked m init [] []) as B0.
  { split; simpl; auto. intros _ bs' g H. destruct bs'; discriminate. }
  destruct (loop_blocked m ss init [] [] Hm (init_inv m ltac:(lia))
              (Forall_nil _) Hss B0) as (st & bs & E & I & B).
  simpl in B.
  destruct (flush_blocks m st bs ss I Hss B) as (F1 & F2 & F3).
  exists (all_blocks bs (cur st)). unfold chunk_sentences. rewrite E. simpl.
  rewrite F1. split; [reflexivity|]. split; [exact F2|].
  split; [exact F3 | apply (b_greedy _ _ _ _ B)].
Qed.

(** The blocks of a text. *)
Lemma text_blocks text m :
  1 <= m ->
  exists blocks,
    split_into_sentence_chunks text m
    = Ok (concat (map (chunks_of m) blocks))
    /\ concat (map sentences_of blocks)
       = filter has_word (re_split_sentences (normalize text))
    /\ Forall (well_formed m) blocks
    /\ greedy m blocks.
Proof.
  intros Hm. destruct text as [|c text].
  - exists []. simpl. auto.
  - apply (chunk_sentences_blocks m _ Hm (sentences_canonical (c :: text))).
Qed.

End BlockFacts.

(** * The chunker's properties *)

Import Str StrFacts SplitFacts Chunker ChunkerFacts CanonFacts SentenceFacts
  PrefixFacts BlockFacts.

(** A state the loop can be in: reached from [init] over some sentences. *)
Definition reachable (max_words : Z) (st : state) : Prop :=
  exists sentences, loop max_words init sentences = Ok st.

Lemma reachable_inv m st : 1 <= m -> reachable m st -> inv m st.
Proof.
  intros Hm [ss E].
  destruct (loop_inv m ss init Hm (init_inv m ltac:(lia))) as (st' & E' & I & _).
  congruence.
Qed.

(** C1.  For every text and every [max_words >= 1] the chunker returns, and
    its chunks joined by single spaces are exactly the whitespace-normalized
    text: the same words in the same order, none lost and none repeated. *)
Theorem chunks_reconstruct_words (text : str) (max_words : Z) :
  1 <= max_words ->
  exists cs,
    split_into_sentence_chunks text max_words = Ok cs
    /\ join_sp cs = normalize text
    /\ split (join_sp cs) = split (normalize text)
    /\ split (join_sp cs) = split text.
Proof.
  intros Hm. destruct (chunks_ok text max_words Hm) as (cs & E & W & _).
  exists cs. split; [exact E|].
  pose proof (chunks_join text max_words cs Hm E) as J.
  split; [exact J|]. rewrite J. split; [reflexivity|].
  apply split_normalize.
Qed.

Definition sample_text : str :=
  lit "Hello world.  This is a test sentence that is quite long indeed. ".

Lemma chunks_reconstruct_words_witness :
  1 <= 3 /\
  exists cs,
    split_into_sentence_chunks sample_text 3 = Ok cs
    /\ join_sp cs = normalize sample_text
    /\ split (join_sp cs) = split (normalize sample_text)
    /\ split (join_sp cs) = split sample_text.
Proof.
  split; [lia|]. apply (chunks_reconstruct_words sample_text 3). lia.
Defined.

(** C2.  For every text and every [max_words >= 1] the chunks are those of
    a sequence of blocks that takes up, in order, every sentence with a
    word: a group of whole sentences, joined into one chunk of at most
    [max_words] words, or a sentence of more than [max_words] words, cut
    into fragments.  The grouping is greedy: a group followed by a group
    had no room left for the first sentence of that group.  Every chunk,
    fragment or not, has between one and [max_words] words, and together
    they carry the words of the text.  In the loop, where [cur_words] counts
    the words waiting in [cur], a sentence of [1 .. max_words] words is
    appended to [cur] exactly when the count stays within [max_words];
    otherwise the sentences waiting, joined, become the next chunk and
    [cur] restarts with that sentence alone. *)
Theorem chunks_within_budget_greedy (text : str) (max_words : Z) :
  1 <= max_words ->
  (exists blocks,
      split_into_sentence_chunks text max_words
      = Ok (concat (map (chunks_of max_words) blocks))
      /\ concat (map sentences_of blocks)
         = filter has_word (re_split_sentences (normalize text))
      /\ Forall (well_formed max_words) blocks
      /\ greedy max_words blocks
      /\ Forall (fun c => 1 <= len (split c) <= max_words)
           (concat (map (chunks_of max_words) blocks))
      /\ words_of (concat (map (chunks_of max_words) blocks)) = split text)
  /\ forall st s,
      reachable max_words st ->
      1 <= len (split s) <= max_words ->
      cur_words st = len (words_of (cur st))
      /\ (cur_words st + len (split s) <= max_words ->
          step max_words st s
          = Ok (mk_state (chunks st) (cur st ++ [s])
                         (cur_words st + len (split s))))
      /\ (cur_words st + len (split s) > max_words ->
          cur st <> []
          /\ split (strip (join_sp (cur st))) = words_of (cur st)
          /\ step max_words st s
             = Ok (mk_state (chunks st ++ [strip (join_sp (cur st))]) [s]
                            (len (split s))))
      /\ (forall st', step max_words st s = Ok st' ->
          (cur st' = cur st ++ [s]
           <-> cur_words st + len (split s) <= max_words)).
Proof.
  intros Hm. split.
  - destruct (text_blocks text max_words Hm) as (blocks & E & S & F & G).
    destruct (chunks_ok text max_words Hm) as (cs & E' & W & B).
    assert (cs = concat (map (chunks_of max_words) blocks)) as ->
      by congruence.
    exists blocks. auto 10.
  - intros st s R [Hn1 Hn2].
    pose proof (reachable_inv max_words st Hm R) as I.
    assert (split s <> []) as Hne.
    { intros E. rewrite E in Hn1. unfold len in Hn1. simpl in Hn1. lia. }
    assert (cur_words st + len (split s) > max_words -> cur st <> []) as Hc.
    { intros Hf Ec. pose proof (inv_count _ _ I) as C. rewrite Ec in C.
      unfold words_of, len in C. simpl in C. lia. }
    assert (cur_words st + len (split s) > max_words ->
            step max_words st s
            = Ok (mk_state (chunks st ++ [strip (join_sp (cur st))]) [s]
                           (len (split s)))) as Hstart.
    { intros Hf. rewrite step_start by assumption. unfold flush.
      specialize (Hc Hf). destruct (cur st); [contradiction | reflexivity]. }
    split; [apply (inv_count _ _ I)|].
    split; [intros Hf; apply step_fit; assumption|].
    split.
    { intros Hf. split; [apply Hc, Hf|].
      split; [apply split_flushed | apply Hstart, Hf]. }
    intros st' E.
    destruct (Z_le_gt_dec (cur_words st + len (split s)) max_words) as [Hf|Hf].
    + rewrite step_fit in E by assumption. injection E as <-.
      simpl. split; auto.
    + rewrite (Hstart Hf) in E. injection E as <-.
      simpl. split; [|lia]. intros E.
      apply (f_equal (@length str)) in E. rewrite length_app in E.
      simpl in E. assert (cur st <> []) as Hc' by (apply Hc, Hf).
      destruct (cur st); [contradiction | simpl in E; lia].
Qed.

Definition packed_text : str :=
  lit "One two. Three! Four five six? Seven eight nine ten eleven. Twelve.".

Definition waiting_state : state := mk_state [] [lit "Hello world."] 2.

Lemma chunks_within_budget_greedy_witness :
  1 <= 4
  /\ split_into_sentence_chunks packed_text 4
     = Ok [lit "One two. Three!"; lit "Four five six?";
           lit "Seven eight nine ten"; lit "eleven."; lit "Twelve."]
  /\ (exists blocks,
        split_into_sentence_chunks packed_text 4
        = Ok (concat (map (chunks_of 4) blocks))
        /\ concat (map sentences_of blocks)
           = filter has_word (re_split_sentences (normalize packed_text))
        /\ Forall (well_formed 4) blocks
        /\ greedy 4 blocks
        /\ Forall (fun c => 1 <= len (split c) <= 4)
             (concat (map (chunks_of 4) blocks))
        /\ words_of (concat (map (chunks_of 4) blocks)) = split packed_text)
  /\ reachable 4 waiting_state
  /\ step 4 waiting_state (lit "Bye.")
     = Ok (mk_state [] [lit "Hello world."; lit "Bye."] 3)
  /\ step 4 waiting_state (lit "See you later.")
     = Ok (mk_state [lit "Hello world."] [lit "See you later."] 3).
Proof.
  assert (1 <= 4) as Hm by lia.
  assert (reachable 4 waiting_state) as R
    by (exists [lit "Hello world."]; reflexivity).
  destruct (chunks_within_budget_greedy packed_text 4 Hm) as [Hblocks Hstep].
  split; [exact Hm|]. split; [reflexivity|]. split; [exact Hblocks|].
  split; [exact R|]. split.
  - assert (1 <= len (split (lit "Bye.")) <= 4) as Hn
      by (split; discriminate).
    destruct (Hstep waiting_state (lit "Bye.") R Hn) as (_ & Hfit & _).
    apply Hfit. discriminate.
  - assert (1 <= len (split (lit "See you later.")) <= 4) as Hn
      by (split; discriminate).
    destruct (Hstep waiting_state (lit "See you later.") R Hn)
      as (_ & _ & Hstart & _).
    apply Hstart. reflexivity.
Defined.

(** C5.  A sentence [s] of [n > max_words] words, anywhere among the
    sentences.  In the loop, the sentences waiting in [cur], if any, go out
    first, joined into one chunk that carries their words; then exactly
    [ceil(n / max_words)] fragments follow, fragment [k] holding the words
    [k*max_words .. k*max_words + max_words) of [s], so [max_words] words
    each except possibly the last; and [cur] is empty afterwards.  So the
    chunks of the whole are the chunks of what precedes [s], with all the
    words of what precedes, then the fragments, then the chunks of what
    follows [s], with all its words: no fragment shares a chunk with a
    neighbour. *)
Theorem oversized_sentence_fragments (max_words : Z) (before : list str)
  (s : str) (after : list str) :
  1 <= max_words -> len (split s) > max_words ->
  exists ca frags cb,
    hard_split (split s) max_words = Ok frags
    /\ (forall st, reachable max_words st ->
          step max_words st s
          = Ok (mk_state (chunks st
                          ++ match cur st with
                             | [] => []
                             | _ => [strip (join_sp (cur st))]
                             end
                          ++ frags) [] 0)
          /\ split (strip (join_sp (cur st))) = words_of (cur st)
          /\ (cur st <> [] -> 1 <= len (words_of (cur st)) <= max_words))
    /\ chunk_sentences max_words before = Ok ca
    /\ words_of ca = words_of before
    /\ chunk_sentences max_words after = Ok cb
    /\ words_of cb = words_of after
    /\ chunk_sentences max_words (before ++ s :: after)
       = Ok (ca ++ frags ++ cb)
    /\ len frags = ceil_div (len (split s)) max_words
    /\ (forall k, 0 <= k < len frags ->
          exists c,
            nth_error frags (Z.to_nat k) = Some c
            /\ split c
               = Py.slice (split s) (k * max_words) (k * max_words + max_words)
            /\ len (split c)
               = (if k <? len frags - 1 then max_words
                  else len (split s) - (len frags - 1) * max_words)
            /\ 1 <= len (split c) <= max_words)
    /\ words_of frags = split s.
Proof.
  intros Hm Hn.
  destruct (chunk_sentences_hard max_words before s after Hm Hn)
    as (ca & cb & Ea & Eb & E).
  pose proof (split_words s) as Hw.
  assert (0 < len (split s)) as Hpos by lia.
  pose proof (ceil_div_bounds (len (split s)) max_words Hm Hpos) as [B1 B2].
  assert (len (map join_sp (windows (split s) max_words))
          = ceil_div (len (split s)) max_words) as L.
  { transitivity (len (windows (split s) max_words)).
    - unfold len. rewrite length_map. reflexivity.
    - rewrite length_windows. lia. }
  exists ca, (map join_sp (windows (split s) max_words)), cb.
  split; [apply hard_split_windows, Hm|].
  split.
  { intros st R. pose proof (reachable_inv max_words st Hm R) as I.
    split; [|split; [apply split_flushed|]].
    - rewrite step_hard by assumption.
      rewrite flush_cur, (flush_cur_words max_words st I).
      unfold flush. destruct (cur st); [reflexivity|].
      cbn [chunks]. rewrite <- app_assoc. reflexivity.
    - intros Hc. split.
      + apply len_pos, words_of_nonempty; [exact Hc | apply (inv_cur _ _ I)].
      + rewrite <- (inv_count _ _ I). apply (inv_fit _ _ I). }
  split; [exact Ea|].
  split.
  { destruct (chunk_sentences_ok max_words before Hm) as (cs & E' & W & _).
    congruence. }
  split; [exact Eb|].
  split.
  { destruct (chunk_sentences_ok max_words after Hm) as (cs & E' & W & _).
    congruence. }
  split; [exact E|].
  split; [exact L|]. split; [|apply words_of_windows; assumption].
  intros k Hk. rewrite L in Hk.
  destruct (nth_window (split s) max_words (Z.to_nat k) Hm ltac:(lia))
    as (g & Eg & Dg & Lg & Pg).
  assert (Forall is_word g) as Hg.
  { apply Forall_forall. intros x Hx.
    eapply Forall_forall; [exact Hw|].
    eapply windows_sub; [eapply nth_error_In; exact Eg | exact Hx]. }
  exists (join_sp g). split; [rewrite nth_error_map, Eg; reflexivity|].
  rewrite split_join_words by assumption.
  split.
  { rewrite Dg, (slice_window (split s) (k * max_words) max_words) by nia.
    do 2 f_equal. rewrite Z2Nat.inj_mul by lia. reflexivity. }
  split.
  { rewrite Lg, L, Z2Nat.id by lia.
    destruct (k <? ceil_div (len (split s)) max_words - 1) eqn:C; zbool; nia. }
  split; [exact Pg|]. rewrite Lg. lia.
Qed.

Definition long_sentence : str :=
  lit "This is a test sentence that is quite long indeed.".

Lemma oversized_sentence_fragments_witness :
  1 <= 3 /\ len (split long_sentence) > 3
  /\ reachable 3 waiting_state
  /\ step 3 waiting_state long_sentence
     = Ok (mk_state [lit "Hello world."; lit "This is a";
                     lit "test sentence that"; lit "is quite long";
                     lit "indeed."] [] 0)
  /\ chunk_sentences 3 ([lit "Hello world."] ++ long_sentence :: [lit "Bye."])
     = Ok ([lit "Hello world."]
           ++ [lit "This is a"; lit "test sentence that";
               lit "is quite long"; lit "indeed."]
           ++ [lit "Bye."])
  /\ exists ca frags cb,
    hard_split (split long_sentence) 3 = Ok frags
    /\ (forall st, reachable 3 st ->
          step 3 st long_sentence
          = Ok (mk_state (chunks st
                          ++ match cur st with
                             | [] => []
                             | _ => [strip (join_sp (cur st))]
                             end
                          ++ frags) [] 0)
          /\ split (strip (join_sp (cur st))) = words_of (cur st)
          /\ (cur st <> [] -> 1 <= len (words_of (cur st)) <= 3))
    /\ chunk_sentences 3 [lit "Hello world."] = Ok ca
    /\ words_of ca = words_of [lit "Hello world."]
    /\ chunk_sentences 3 [lit "Bye."] = Ok cb
    /\ words_of cb = words_of [lit "Bye."]
    /\ chunk_sentences 3 ([lit "Hello world."] ++ long_sentence :: [lit "Bye."])
       = Ok (ca ++ frags ++ cb)
    /\ len frags = ceil_div (len (split long_sentence)) 3
    /\ (forall k, 0 <= k < len frags ->
          exists c,
            nth_error frags (Z.to_nat k) = Some c
            /\ split c = Py.slice (split long_sentence) (k * 3) (k * 3 + 3)
            /\ len (split c)
               = (if k <? len frags - 1 then 3
                  else len (split long_sentence) - (len frags - 1) * 3)
            /\ 1 <= len (split c) <= 3)
    /\ words_of frags = split long_sentence.
Proof.
  split; [lia|]. split; [reflexivity|].
  split; [exists [lit "Hello world."]; reflexivity|].
  split; [reflexivity|]. split; [reflexivity|].
  apply (oversized_sentence_fragments 3 [lit "Hello world."] long_sentence
           [lit "Bye."]); [lia | reflexivity].
Defined.

(** C9, as stated, fails: a stray punctuation mark between two sentences is
    a sentence of one word, not of none, and it is emitted: as a chunk of
    its own when the budget is one word, inside a chunk when there is
    room. *)
Lemma stray_punctuation_counterexample :
  re_split_sentences (normalize (lit "Hi. ! Bye."))
  = [lit "Hi."; lit "!"; lit "Bye."]
  /\ split (lit "!") = [lit "!"]
  /\ split_into_sentence_chunks (lit "Hi. ! Bye.") 1
     = Ok [lit "Hi."; lit "!"; lit "Bye."]
  /\ split_into_sentence_chunks (lit "Hi. ! Bye.") 5 = Ok [lit "Hi. ! Bye."].
Proof. repeat split; reflexivity. Qed.

(** C9, amended.  The empty text and any text without a word (three
    spaces, for one) give no chunk, for every budget.  A sentence has no
    word exactly when each of its characters is whitespace; such a sentence
    leaves the state of the loop as it is and the chunks of the whole
    unchanged.  Every other sentence, a stray punctuation mark included,
    has its words in the chunks, for a budget of at least one. *)
Theorem blank_text_no_chunks :
  (forall N, split_into_sentence_chunks [] N = Ok [])
  /\ (forall N, split_into_sentence_chunks (lit "   ") N = Ok [])
  /\ (forall text N,
        split text = [] -> split_into_sentence_chunks text N = Ok [])
  /\ (forall N st s, split s = [] -> step N st s = Ok st)
  /\ (forall N before s after,
        split s = [] ->
        chunk_sentences N (before ++ s :: after)
        = chunk_sentences N (before ++ after))
  /\ (forall s, split s = [] <-> Forall (fun c => Chr.isspace c = true) s)
  /\ (forall N sentences,
        1 <= N ->
        exists cs,
          chunk_sentences N sentences = Ok cs
          /\ words_of cs = concat (map split sentences)).
Proof.
  assert (forall text N,
             split text = [] -> split_into_sentence_chunks text N = Ok [])
    as H.
  { intros text N E. destruct text as [|c text]; [reflexivity|].
    unfold split_into_sentence_chunks.
    rewrite normalize_join, E. reflexivity. }
  split; [intros N; reflexivity|].
  split; [intros N; apply H; reflexivity|].
  split; [exact H|].
  split; [intros N st s E; apply step_skip, E|].
  split; [intros N a s b E; apply chunk_sentences_skip, E|].
  split; [apply split_nil_iff|].
  intros N ss HN.
  destruct (chunk_sentences_ok N ss HN) as (cs & E & W & _).
  exists cs. auto.
Qed.

Definition blank_text : str := [32; 9; 160; 10]%N.

Lemma blank_text_no_chunks_witness :
  split blank_text = []
  /\ split_into_sentence_chunks blank_text 5 = Ok [].
Proof.
  assert (split blank_text = []) as H by reflexivity.
  split; [exact H|].
  exact (proj1 (proj2 (proj2 blank_text_no_chunks)) blank_text 5 H).
Defined.

(** C10.  For every text and every [max_words >= 1], every chunk returned is
    a non-empty string that holds at least one word. *)
Theorem chunks_nonempty (text : str) (max_words : Z) :
  1 <= max_words ->
  exists cs,
    split_into_sentence_chunks text max_words = Ok cs
    /\ Forall (fun c => c <> [] /\ 1 <= len (split c)) cs.
Proof.
  intros Hm. destruct (chunks_ok text max_words Hm) as (cs & E & _ & B).
  exists cs. split; [exact E|].
  eapply Forall_impl; [|exact B]. intros c [H _].
  split; [|exact H]. intros ->. unfold len in H. simpl in H. lia.
Qed.

Lemma chunks_nonempty_witness :
  1 <= 3 /\
  exists cs,
    split_into_sentence_chunks sample_text 3 = Ok cs
    /\ Forall (fun c => c <> [] /\ 1 <= len (split c)) cs.
Proof.
  split; [lia|]. apply (chunks_nonempty sample_text 3). lia.
Defined.

(** * The generation gateway *)

Module GatewayFacts.
Import LLM.

Lemma sample_pool_length {A : Type} (raw : nat -> nat) (d : A) k :
  forall pool i, length (Random.sample_pool raw d pool i k) = k.
Proof.
  induction k as [|k IH]; intros pool i; [reflexivity|].
  simpl. rewrite IH. reflexivity.
Qed.

Ltac perm_small :=
  repeat first
    [ apply Permutation_refl
    | apply (Permutation_cons_app nil)
    | apply (Permutation_cons_app [_])
    | apply (Permutation_cons_app [_; _]) ].

(** A sample of the whole of a three-element population is one of its six
    arrangements. *)
Lemma sample_three {A : Type} (raw : nat -> nat) (d a b c : A) :
  Permutation (Random.sample raw d [a; b; c] 3) [a; b; c].
Proof.
  unfold Random.sample. cbn [Random.sample_pool length Nat.sub].
  unfold Random.randbelow.
  pose proof (Nat.mod_upper_bound (raw 0%nat) 3 ltac:(lia)) as B0.
  destruct (raw 0%nat mod 3)%nat as [|[|[|j0]]] eqn:E0; [| | |lia];
    cbn [Random.set_nth nth length Nat.sub];
    pose proof (Nat.mod_upper_bound (raw 1%nat) 2 ltac:(lia)) as B1;
    destruct (raw 1%nat mod 2)%nat as [|[|j1]] eqn:E1; try lia;
    cbn [Random.set_nth nth length Nat.sub];
    rewrite Nat.mod_1_r; cbn [nth]; perm_small.
Qed.

Lemma join_nonempty sep x y l : sep <> [] -> Str.join sep (x :: y :: l) <> [].
Proof.
  intros Hs E. change (x ++ sep ++ Str.join sep (y :: l) = []) in E.
  apply app_eq_nil in E as [_ E]. apply app_eq_nil in E as [E _].
  contradiction.
Qed.

Lemma dummy_nonempty draw prompt : _dummy_generate draw prompt <> [].
Proof.
  unfold _dummy_generate.
  pose proof (sample_pool_length (draw (seed_of prompt)) [] (length samples)
                samples 0) as L.
  unfold Random.sample.
  destruct (Random.sample_pool _ _ _ _ _) as [|x [|y l]];
    try discriminate.
  apply join_nonempty. discriminate.
Qed.

Lemma seed_range prompt : 0 <= seed_of prompt < 1000.
Proof. unfold seed_of. apply Z.mod_pos_bound. lia. Qed.

End GatewayFacts.

(** The text the backend delivers for a call, if it is available and the
    call raises nothing. *)
Definition backend_text (llm : LLM.LLMInterface) (prompt : str)
  (max_tokens : Z) : option str :=
  if LLM._available llm then
    match LLM._llm llm with
    | Some model =>
        match model prompt max_tokens with
        | LLM.Returns text => Some text
        | LLM.Throws => None
        end
    | None => None
    end
  else None.

Definition example_config : LLM.LLMConfig :=
  LLM.mk_config (lit "model.gguf") 4096 4 0.

(** A backend that answers every prompt with three spaces. *)
Definition blank_backend : LLM.backend := fun _ _ => LLM.Returns (lit "   ").

(** C4, as stated, fails: with a backend that is available and answers with
    whitespace only, [generate] returns the empty string. *)
Lemma generate_empty_counterexample :
  LLM.generate (fun _ _ => 0%nat)
    (LLM.mk_llm example_config (Some blank_backend) true)
    (lit "Tell me about kettles.") 512
  = [].
Proof. reflexivity. Qed.

(** C4, amended.  [generate] is total: no failure of the backend reaches the
    caller.  When the backend is unavailable or raises, the result is the
    fallback text: non-empty, an arrangement of the three filler paragraphs
    joined by blank lines, and determined by the seed alone, the sum of the
    prompt's character codes modulo 1000.  When the backend answers, the
    result is its answer stripped, which may be empty. *)
Theorem generate_fallback (draw : Z -> nat -> nat) (llm : LLM.LLMInterface)
  (prompt : str) (max_tokens : Z) :
  (backend_text llm prompt max_tokens = None ->
     LLM.generate draw llm prompt max_tokens = LLM._dummy_generate draw prompt
     /\ LLM.generate draw llm prompt max_tokens <> [])
  /\ (forall text,
        backend_text llm prompt max_tokens = Some text ->
        LLM.generate draw llm prompt max_tokens = Str.strip text)
  /\ (exists paragraphs,
        Permutation paragraphs LLM.samples
        /\ LLM._dummy_generate draw prompt
           = Str.join [Chr.newline; Chr.newline] paragraphs)
  /\ (forall prompt',
        LLM.seed_of prompt' = LLM.seed_of prompt ->
        LLM._dummy_generate draw prompt' = LLM._dummy_generate draw prompt)
  /\ 0 <= LLM.seed_of prompt < 1000.
Proof.
  assert (backend_text llm prompt max_tokens = None ->
          LLM.generate draw llm prompt max_tokens
          = LLM._dummy_generate draw prompt) as F.
  { unfold backend_text, LLM.generate.
    destruct (LLM._available llm); simpl; [|reflexivity].
    destruct (LLM._llm llm) as [model|]; [|reflexivity].
    destruct (model prompt max_tokens); [discriminate | reflexivity]. }
  split.
  { intros H. split; [apply F, H|]. rewrite (F H).
    apply GatewayFacts.dummy_nonempty. }
  split.
  { intros text. unfold backend_text, LLM.generate.
    destruct (LLM._available llm); simpl; [|discriminate].
    destruct (LLM._llm llm) as [model|]; [|discriminate].
    destruct (model prompt max_tokens); [|discriminate].
    intros E. injection E as ->. reflexivity. }
  split.
  { eexists. split; [|reflexivity]. apply GatewayFacts.sample_three. }
  split.
  { intros prompt' E. unfold LLM._dummy_generate. rewrite E. reflexivity. }
  apply GatewayFacts.seed_range.
Qed.

Lemma generate_fallback_witness :
  let llm := LLM.mk_llm example_config None false in
  let prompt := lit "Tell me about kettles." in
  backend_text llm prompt 512 = None
  /\ LLM.generate (fun _ i => i) llm prompt 512
     = LLM._dummy_generate (fun _ i => i) prompt
  /\ LLM.generate (fun _ i => i) llm prompt 512 <> [].
Proof.
  intros llm prompt.
  assert (backend_text llm prompt 512 = None) as H by reflexivity.
  split; [exact H|].
  exact (proj1 (generate_fallback (fun _ i => i) llm prompt 512) H).
Defined.

(** ** Topics *)

Module TopicFacts.
Import LLM.

(** After the whitespace substitution the only whitespace left is the
    space character. *)
Definition plain_space (c : char) : Prop :=
  Chr.isspace c = true -> c = Chr.space.

Lemma sub_ws_plain s : forall b, Forall plain_space (Str.sub_ws_from b s).
Proof.
  induction s as [|c s IH]; intros b; simpl; [constructor|].
  destruct (Chr.isspace c) eqn:Hc.
  - destruct b; [apply IH|]. constructor; [intros _; reflexivity | apply IH].
  - constructor; [|apply IH]. intros H. congruence.
Qed.

Lemma Forall_lstrip (P : char -> Prop) s :
  Forall P s -> Forall P (Str.lstrip s).
Proof.
  induction 1 as [|c s Hc Hs IH]; simpl; [constructor|].
  destruct (Chr.isspace c); [exact IH | constructor; assumption].
Qed.

Lemma Forall_strip (P : char -> Prop) s :
  Forall P s -> Forall P (Str.strip s).
Proof.
  intros H. unfold Str.strip, Str.rstrip.
  apply Forall_rev, Forall_lstrip, Forall_rev, Forall_lstrip, H.
Qed.

Lemma Forall_filter_both {A : Type} (P : A -> Prop) (f : A -> bool) l :
  Forall P l -> Forall (fun x => P x /\ f x = true) (filter f l).
Proof.
  induction 1 as [|x l Hx Hl IH]; simpl; [constructor|].
  destruct (f x) eqn:E; [constructor; auto | exact IH].
Qed.

(** What a topic is made of. *)
Definition topic_char (unicode_alnum : char -> bool) (c : char) : Prop :=
  is_word_char unicode_alnum c = true \/ c = Chr.space \/ c = Chr.hyphen.

Lemma sanitize_chars ua raw : Forall (topic_char ua) (sanitize ua raw).
Proof.
  unfold sanitize.
  eapply Forall_impl;
    [|apply Forall_filter_both, Forall_strip, (sub_ws_plain raw false)].
  intros c [Hp Hk]. unfold kept in Hk. unfold topic_char.
  destruct (is_word_char ua c); [left; reflexivity|].
  destruct (Chr.isspace c) eqn:Hs; [right; left; apply Hp, Hs|].
  simpl in Hk. right. right. apply N.eqb_eq, Hk.
Qed.

Lemma slice_prefix {A : Type} (l : list A) (n : Z) :
  0 <= n -> Py.slice l 0 n = firstn (Z.to_nat n) l.
Proof.
  intros Hn. rewrite <- (Z.add_0_l n) at 1.
  rewrite SplitFacts.slice_window by lia. reflexivity.
Qed.

Lemma Forall_firstn {A : Type} (P : A -> Prop) n l :
  Forall P l -> Forall P (firstn n l).
Proof.
  intros H. revert n. induction H as [|x l Hx Hl IH]; intros [|n]; simpl;
    constructor; auto.
Qed.

Definition topic_charb (unicode_alnum : char -> bool) (c : char) : bool :=
  is_word_char unicode_alnum c || (c =? Chr.space)%N || (c =? Chr.hyphen)%N.

Lemma topic_charb_sound ua c : topic_charb ua c = true -> topic_char ua c.
Proof.
  unfold topic_charb, topic_char. intros H.
  apply orb_true_iff in H as [H|H]; [apply orb_true_iff in H as [H|H]|].
  - left. exact H.
  - right. left. apply N.eqb_eq, H.
  - right. right. apply N.eqb_eq, H.
Qed.

Lemma default_topics_chars ua :
  Forall (Forall (topic_char ua)) default_topics.
Proof.
  assert (forallb (forallb (topic_charb ua)) default_topics = true) as H
    by (vm_compute; reflexivity).
  apply Forall_forall. intros d Hd. apply Forall_forall. intros c Hc.
  apply topic_charb_sound.
  rewrite forallb_forall in H. specialize (H d Hd).
  rewrite forallb_forall in H. apply H, Hc.
Qed.

Lemma default_topics_short :
  Forall (fun d => d <> [] /\ len d <= 64) default_topics.
Proof.
  repeat constructor; try discriminate; unfold len; simpl; lia.
Qed.

Lemma choice_default rnd : In (Random.choice rnd [] default_topics) default_topics.
Proof.
  unfold Random.choice, Random.randbelow. apply nth_In.
  apply Nat.mod_upper_bound. discriminate.
Qed.

End TopicFacts.

Definition wordy_backend : LLM.backend :=
  fun _ _ => LLM.Returns (lit "a_b ! c").

(** C3, as stated, fails: for the backend output [a_b ! c] the topic is
    [a_b  c], which holds an underscore and two spaces in a row. *)
Lemma generate_topic_counterexample :
  let t := LLM.generate_topic (fun _ _ => 0%nat) (fun _ => false)
             (LLM.mk_llm example_config (Some wordy_backend) true) 0 in
  t = lit "a_b  c" /\ In Chr.underscore t /\ Str.sub_ws t <> t.
Proof.
  split; [reflexivity|]. split; [simpl; auto|]. discriminate.
Qed.

(** C3, amended.  For every backend, available or not, and every draw,
    [generate_topic] returns a non-empty string of at most 64 characters,
    each a word character (alphanumeric or underscore), a plain space or a
    hyphen.  It is the first 64 characters of the sanitized output when that
    is not empty, and otherwise one of the four built-in topics, none of
    which is empty. *)
Theorem generate_topic_sanitized (draw : Z -> nat -> nat)
  (unicode_alnum : char -> bool) (llm : LLM.LLMInterface) (rnd : nat) :
  let raw := LLM.generate draw llm LLM.topic_prompt 24 in
  let line := LLM.sanitize unicode_alnum raw in
  let t := LLM.generate_topic draw unicode_alnum llm rnd in
  t <> []
  /\ len t <= 64
  /\ Forall (TopicFacts.topic_char unicode_alnum) t
  /\ (line <> [] -> t = Py.slice line 0 64)
  /\ (line = [] -> In t LLM.default_topics)
  /\ LLM.default_topics <> []
  /\ Forall (fun d => d <> []) LLM.default_topics.
Proof.
  intros raw line t.
  assert (Forall (fun d => d <> []) LLM.default_topics) as Hd.
  { eapply Forall_impl; [|apply TopicFacts.default_topics_short].
    intros d [H _]. exact H. }
  pose proof (TopicFacts.choice_default rnd) as Hin.
  pose proof (TopicFacts.sanitize_chars unicode_alnum raw) as Hch.
  fold line in Hch.
  unfold t, LLM.generate_topic. fold raw. fold line.
  destruct line as [|c l] eqn:El.
  - split; [eapply Forall_forall in Hd; eauto|].
    split.
    { pose proof TopicFacts.default_topics_short as S.
      eapply Forall_forall in S; [|exact Hin]. apply S. }
    split.
    { pose proof (TopicFacts.default_topics_chars unicode_alnum) as C.
      eapply Forall_forall in C; [|exact Hin]. exact C. }
    split; [intros H; contradiction|].
    split; [intros _; exact Hin|]. split; [discriminate | exact Hd].
  - rewrite TopicFacts.slice_prefix by lia.
    split; [simpl; discriminate|].
    split; [unfold len; rewrite length_firstn; lia|].
    split; [apply TopicFacts.Forall_firstn, Hch|].
    split; [intros _; reflexivity|].
    split; [discriminate|]. split; [discriminate | exact Hd].
Qed.

Lemma generate_topic_sanitized_witness :
  let llm := LLM.mk_llm example_config (Some wordy_backend) true in
  let draw := fun (_ : Z) (i : nat) => i in
  let line := LLM.sanitize (fun _ => false)
                (LLM.generate draw llm LLM.topic_prompt 24) in
  line <> []
  /\ LLM.generate_topic draw (fun _ => false) llm 0 = Py.slice line 0 64.
Proof.
  intros llm draw line.
  assert (line <> []) as H by discriminate.
  split; [exact H|].
  destruct (generate_topic_sanitized draw (fun _ => false) llm 0)
    as (_ & _ & _ & Hline & _).
  exact (Hline H).
Defined.

(** * The persona pipeline *)

Module PipelineFacts.
Import App.

(** The calls that ask for an answer. *)
Definition is_request (a : action) : bool :=
  match a with
  | gen_topic | worker_generate _ _ | play_chunks _ => true
  | _ => false
  end.

(** The calls that only follow a topic: the monologue and its playback. *)
Definition after_topic (a : action) : bool :=
  match a with
  | worker_generate _ _ | play_chunks _ => true
  | _ => false
  end.

Definition is_gen_topic (a : action) : bool :=
  match a with
  | gen_topic => true
  | _ => false
  end.

(** The generation calls: the topic and the monologue. *)
Definition is_generation (a : action) : bool :=
  match a with
  | gen_topic | worker_generate _ _ => true
  | _ => false
  end.

(** The values of [_idx] at which a topic was asked for, in order. *)
Definition topic_requests (tr : trace) : list Z :=
  map fst (filter (fun x => is_gen_topic (snd x)) tr).

Definition quiet (tr : trace) : Prop :=
  Forall (fun x => after_topic (snd x) = false) tr.

Lemma topic_requests_app a b :
  topic_requests (a ++ b) = topic_requests a ++ topic_requests b.
Proof. unfold topic_requests. rewrite filter_app, map_app. reflexivity. Qed.

Lemma topic_requests_plain self pfx :
  Forall (fun a => is_request a = false) pfx ->
  topic_requests (stamp self pfx) = [].
Proof.
  induction 1 as [|a pfx Ha _ IH]; [reflexivity|].
  unfold topic_requests in *. simpl.
  destruct a; simpl in *; try discriminate; exact IH.
Qed.

Lemma quiet_plain self pfx :
  Forall (fun a => is_request a = false) pfx -> quiet (stamp self pfx).
Proof.
  induction 1 as [|a pfx Ha _ IH]; [constructor|].
  constructor; [|exact IH]. destruct a; simpl in *; congruence.
Qed.

Section Errors.

Variable path_exists : str -> bool.
Variable answer : responder.

Lemma index_nth {A : Type} (l : list A) (j : nat) (x : A) :
  nth_error l j = Some x -> index l (Z.of_nat j) = Ok x.
Proof.
  intros E. unfold index.
  assert (j < length l)%nat as Hj by (apply nth_error_Some; congruence).
  assert ((Z.of_nat j <? 0) = false) as E1 by (apply Z.ltb_ge; lia).
  assert ((len l <=? Z.of_nat j) = false) as E2
    by (apply Z.leb_gt; unfold len; lia).
  cbv zeta. rewrite E1, E1, E2. simpl. rewrite Nat2Z.id, E. reflexivity.
Qed.

Lemma next_done ps (j : Z) aw :
  len ps <= j + 1 ->
  _next_persona path_exists (mk_ctrl ps j aw)
  = Ok (mk_ctrl ps (j + 1) aw, [show_status goodbye]).
Proof.
  intros H. unfold _next_persona. simpl.
  destruct (j + 1 >=? len ps) eqn:E; [reflexivity | zbool; lia].
Qed.

Lemma next_enter ps (j : Z) aw (i : nat) st :
  j + 1 = Z.of_nat i -> nth_error ps i = Some st ->
  _next_persona path_exists (mk_ctrl ps j aw)
  = Ok (mk_ctrl ps (Z.of_nat i) (Some Topic),
        enter path_exists (persona st)).
Proof.
  intros Hj E. unfold _next_persona. simpl. rewrite Hj.
  assert (i < length ps)%nat as Hi by (apply nth_error_Some; congruence).
  destruct (Z.of_nat i >=? len ps) eqn:G; [zbool; unfold len in *; lia|].
  rewrite (index_nth ps i st E). reflexivity.
Qed.

Lemma request_of_enter pfx p :
  request_of (pfx ++ enter path_exists p) = Some gen_topic.
Proof.
  unfold request_of, enter. rewrite rev_app_distr. reflexivity.
Qed.

Lemma request_of_status pfx msg :
  request_of (pfx ++ [show_status msg]) = None.
Proof.
  unfold request_of. rewrite rev_app_distr. reflexivity.
Qed.

Lemma enter_requests self pfx p :
  Forall (fun a => is_request a = false) pfx ->
  topic_requests (stamp self (pfx ++ enter path_exists p)) = [_idx self].
Proof.
  intros H. unfold stamp. rewrite map_app, topic_requests_app.
  fold (stamp self pfx). rewrite topic_requests_plain by assumption.
  reflexivity.
Qed.

Lemma enter_quiet self pfx p :
  Forall (fun a => is_request a = false) pfx ->
  quiet (stamp self (pfx ++ enter path_exists p)).
Proof.
  intros H. unfold stamp, quiet. rewrite map_app. apply Forall_app.
  split; [apply (quiet_plain self pfx H)|].
  repeat constructor.
Qed.

(** Every answer to a generation call is an error signal. *)
Definition all_errors : Prop :=
  forall k req,
    is_generation req = true ->
    exists msg, answer k req = worker_error msg.

Lemma run_final fuel k self pfx msg tr :
  run path_exists answer fuel k self (pfx ++ [show_status msg]) tr
  = Some (Ok (self, tr ++ stamp self (pfx ++ [show_status msg]))).
Proof. destruct fuel; cbn [run]; rewrite request_of_status; reflexivity. Qed.

(** From the moment persona [j] is entered, with [d] personas left. *)
Lemma run_errors ps (d : nat) : forall (j : nat) st aw pfx k tr fuel,
  all_errors ->
  (j + S d = length ps)%nat -> (S d <= fuel)%nat ->
  nth_error ps j = Some st ->
  Forall (fun a => is_request a = false) pfx ->
  exists final tr',
    run path_exists answer fuel k (mk_ctrl ps (Z.of_nat j) aw)
        (pfx ++ enter path_exists (persona st)) tr
    = Some (Ok (final, tr'))
    /\ persona_states final = ps
    /\ _idx final = len ps
    /\ topic_requests tr'
       = topic_requests tr ++ map Z.of_nat (seq j (S d))
    /\ (quiet tr -> quiet tr')
    /\ exists tr0, tr' = tr0 ++ [(len ps, show_status goodbye)].
Proof.
  induction d as [|d IH]; intros j st aw pfx k tr fuel Herr Hn Hf Hj Hp;
    (destruct fuel as [|fuel]; [lia|]);
    destruct (Herr k gen_topic eq_refl) as [msg Hmsg];
    cbn [run]; rewrite request_of_enter, Hmsg;
    cbn [dispatch]; unfold _on_worker_error.
  - rewrite next_done by (unfold len; lia). cbn [bind fst snd].
    change [show_status (lit "Error: " ++ msg); show_status goodbye]
      with ([show_status (lit "Error: " ++ msg)] ++ [show_status goodbye]).
    rewrite run_final.
    assert (Z.of_nat j + 1 = len ps) as Hlen by (unfold len; lia).
    eexists. eexists. split; [reflexivity|].
    split; [reflexivity|]. split; [exact Hlen|].
    split.
    { rewrite !topic_requests_app, enter_requests by assumption.
      rewrite topic_requests_plain by (repeat constructor).
      rewrite app_nil_r. reflexivity. }
    split.
    { intros Q. apply Forall_app. split.
      - apply Forall_app. split; [exact Q | apply enter_quiet, Hp].
      - apply quiet_plain. repeat constructor. }
    eexists. unfold stamp at 2. rewrite map_app, app_assoc.
    cbn [map _idx]. rewrite Hlen. reflexivity.
  - destruct (nth_error ps (S j)) as [st'|] eqn:Ej;
      [|apply nth_error_None in Ej; lia].
    rewrite (next_enter ps (Z.of_nat j) aw (S j) st') by (assumption || lia).
    cbn [bind fst snd].
    change (show_status (lit "Error: " ++ msg)
            :: enter path_exists (persona st'))
      with ([show_status (lit "Error: " ++ msg)]
            ++ enter path_exists (persona st')).
    destruct (IH (S j) st' (Some Topic) [show_status (lit "Error: " ++ msg)]
                (S k)
                (tr ++ stamp (mk_ctrl ps (Z.of_nat j) aw)
                               (pfx ++ enter path_exists (persona st)))
                fuel Herr ltac:(lia) ltac:(lia) Ej
                ltac:(repeat constructor))
      as (final & tr' & E & Hps & Hidx & Hreq & Hq & Hlast).
    exists final, tr'. split; [exact E|].
    split; [exact Hps|]. split; [exact Hidx|].
    split.
    { rewrite Hreq, topic_requests_app, enter_requests by assumption.
      rewrite <- app_assoc. reflexivity. }
    split; [|exact Hlast].
    intros Q. apply Hq, Forall_app. split; [exact Q | apply enter_quiet, Hp].
Qed.

End Errors.

End PipelineFacts.

(** C6.  When every generation call is answered by an error signal, a run of
    the pipeline ends (within as many signals as there are prepared
    personas), raises nothing, and leaves [_idx] at the number of prepared
    personas.  A topic was asked for at each index [0, 1, ..., n-1], once
    and in this order; no monologue was asked for and nothing was played, so
    no persona was retried; and the last call shows the status that all
    personas are complete. *)
Theorem errors_visit_every_persona (path_exists : str -> bool)
  (shuffle : list App.Persona -> list App.Persona) (cfg : App.Config)
  (answer : App.responder) (fuel : nat) :
  PipelineFacts.all_errors answer ->
  (length (App.persona_states (App._prepare_personas shuffle cfg App.new))
   <= fuel)%nat ->
  exists final tr,
    App.run_app path_exists answer shuffle cfg fuel = Some (Ok (final, tr))
    /\ App.persona_states final
       = App.persona_states (App._prepare_personas shuffle cfg App.new)
    /\ App._idx final = len (App.persona_states final)
    /\ PipelineFacts.topic_requests tr
       = map Z.of_nat (seq 0 (length (App.persona_states final)))
    /\ PipelineFacts.quiet tr
    /\ exists tr0,
         tr = tr0 ++ [(len (App.persona_states final),
                       App.show_status App.goodbye)].
Proof.
  intros Herr Hf. unfold App.run_app, App.start.
  set (a1 := [App.set_background _; App.show_status _]).
  assert (Forall (fun a => PipelineFacts.is_request a = false) a1) as Ha1
    by (repeat constructor).
  remember (App._prepare_personas shuffle cfg App.new) as self eqn:Eself.
  assert (App._idx self = -1) as Hidx by (subst self; reflexivity).
  destruct self as [ps i aw]. simpl in Hidx, Hf. subst i. cbn [App.persona_states].
  destruct ps as [|p ps].
  - rewrite PipelineFacts.next_done by (unfold len; simpl; lia).
    cbn [bind fst snd]. rewrite PipelineFacts.run_final.
    eexists. eexists. split; [reflexivity|]. cbn [App.persona_states App._idx].
    split; [reflexivity|]. split; [reflexivity|].
    split.
    { cbn [app]. apply PipelineFacts.topic_requests_plain.
      apply Forall_app. split; [exact Ha1 | repeat constructor]. }
    split.
    { cbn [app]. apply PipelineFacts.quiet_plain.
      apply Forall_app. split; [exact Ha1 | repeat constructor]. }
    eexists. cbn [app]. unfold App.stamp. rewrite map_app. reflexivity.
  - rewrite (PipelineFacts.next_enter path_exists (p :: ps) (-1) aw 0 p)
      by reflexivity.
    cbn [bind fst snd].
    destruct (PipelineFacts.run_errors path_exists answer (p :: ps)
                (length ps) 0 p (Some App.Topic) a1 0 [] fuel Herr
                ltac:(simpl; lia) ltac:(simpl in Hf; lia) eq_refl Ha1)
      as (final & tr & E & Hps & Hi & Hreq & Hq & Hlast).
    exists final, tr. change (Z.of_nat 0) with 0 in E.
    split; [exact E|]. rewrite Hps.
    split; [reflexivity|]. split; [exact Hi|].
    split; [exact Hreq|]. split; [apply Hq; constructor | exact Hlast].
Qed.

Definition two_personas : App.Config :=
  App.mk_cfg
    (Some [ App.mk_persona (Some (lit "ada")) None None None None None None
                           None;
            App.mk_persona (Some (lit "bob")) None None None None None None
                           None ])
    (Some 2).

Definition failing_worker : App.responder :=
  fun _ _ => App.worker_error (lit "backend down").

Lemma errors_visit_every_persona_witness :
  PipelineFacts.all_errors failing_worker
  /\ exists final tr,
       App.run_app (fun _ => false) failing_worker (fun l => l) two_personas 2
       = Some (Ok (final, tr))
       /\ App.persona_states final
          = App.persona_states
              (App._prepare_personas (fun l => l) two_personas App.new)
       /\ App._idx final = len (App.persona_states final)
       /\ PipelineFacts.topic_requests tr
          = map Z.of_nat (seq 0 (length (App.persona_states final)))
       /\ PipelineFacts.quiet tr
       /\ exists tr0,
            tr = tr0 ++ [(len (App.persona_states final),
                          App.show_status App.goodbye)].
Proof.
  assert (PipelineFacts.all_errors failing_worker) as H
    by (intros k req _; eexists; reflexivity).
  split; [exact H|].
  apply (errors_visit_every_persona (fun _ => false) (fun l => l)
           two_personas failing_worker 2 H).
  simpl. lia.
Defined.

(** * Playback *)

(** C7.  Playback started with no chunk, in a world where nothing is
    scheduled and nothing is moving: the index is -1; the call sets the
    balloon text to the empty string and schedules the finished signal 300
    ms later, and does nothing else; the only turn the event loop can take
    next is that timer, which emits the signal.  So no fade is started by
    the call, and none before the signal. *)
Theorem empty_playback_finishes (w : UI.world) (duration_s : option Z) :
  UI.idle w ->
  let w1 := UI.perform w (fun self => UI.play_chunks self [] duration_s) in
  UI._chunk_idx (UI.window w1) = -1
  /\ UI.chunks (UI.window w1) = []
  /\ UI.log w1
     = UI.log w ++ [UI.balloon_setText [];
                    UI.singleShot 300 UI.chunkPlaybackFinished_emit]
  /\ UI.timers w1 = [(300, UI.chunkPlaybackFinished_emit)]
  /\ UI.running w1 = []
  /\ (exists w2, UI.turn w1 w2)
  /\ forall w2,
       UI.turn w1 w2 ->
       UI.log w2
       = UI.log w ++ [UI.balloon_setText [];
                      UI.singleShot 300 UI.chunkPlaybackFinished_emit;
                      UI.chunkPlaybackFinished]
       /\ forallb (fun e => negb (UI.is_fade e))
            [UI.balloon_setText [];
             UI.singleShot 300 UI.chunkPlaybackFinished_emit;
             UI.chunkPlaybackFinished] = true
       /\ UI.timers w2 = [] /\ UI.running w2 = []
       /\ UI._chunk_idx (UI.window w2) = -1.
Proof.
  intros [Ht Hr] w1.
  assert (UI.timers w1 = [(300, UI.chunkPlaybackFinished_emit)]) as T
    by (unfold w1, UI.perform; simpl; rewrite Ht; reflexivity).
  assert (UI.running w1 = []) as R
    by (unfold w1, UI.perform; simpl; exact Hr).
  assert (UI.log w1
          = UI.log w ++ [UI.balloon_setText [];
                         UI.singleShot 300 UI.chunkPlaybackFinished_emit])
    as L by (unfold w1, UI.perform; simpl; rewrite <- app_assoc; reflexivity).
  assert (UI._chunk_idx (UI.window w1) = -1) as I by reflexivity.
  assert (UI.chunks (UI.window w1) = []) as C by reflexivity.
  clearbody w1.
  split; [exact I|]. split; [exact C|].
  split; [exact L|]. split; [exact T|]. split; [exact R|].
  split.
  { eexists. apply (UI.timer_fires w1 [] 300 UI.chunkPlaybackFinished_emit []).
    exact T. }
  intros w2 Hturn. inversion Hturn as [w' pre ms cb post E|w' a Hin]; subst.
  - rewrite T in E. destruct pre as [|x pre].
    + injection E as <- <- <-. unfold UI.perform. simpl.
      rewrite L, <- app_assoc. auto.
    + injection E as _ E. destruct pre; discriminate.
  - rewrite R in Hin. contradiction.
Qed.

Lemma empty_playback_finishes_witness :
  let w := UI.new_world (UI.new (Some 16) None) in
  UI.idle w /\
  let w1 := UI.perform w (fun self => UI.play_chunks self [] None) in
  UI._chunk_idx (UI.window w1) = -1
  /\ UI.chunks (UI.window w1) = []
  /\ UI.log w1
     = UI.log w ++ [UI.balloon_setText [];
                    UI.singleShot 300 UI.chunkPlaybackFinished_emit]
  /\ UI.timers w1 = [(300, UI.chunkPlaybackFinished_emit)]
  /\ UI.running w1 = []
  /\ (exists w2, UI.turn w1 w2)
  /\ forall w2,
       UI.turn w1 w2 ->
       UI.log w2
       = UI.log w ++ [UI.balloon_setText [];
                      UI.singleShot 300 UI.chunkPlaybackFinished_emit;
                      UI.chunkPlaybackFinished]
       /\ forallb (fun e => negb (UI.is_fade e))
            [UI.balloon_setText [];
             UI.singleShot 300 UI.chunkPlaybackFinished_emit;
             UI.chunkPlaybackFinished] = true
       /\ UI.timers w2 = [] /\ UI.running w2 = []
       /\ UI._chunk_idx (UI.window w2) = -1.
Proof.
  intros w.
  assert (UI.idle w) as H by (split; reflexivity).
  split; [exact H|].
  apply (empty_playback_finishes w None H).
Defined.

(** * The balloon's rectangle *)

(** ** Rounding in binary64 *)

Module FloatFacts.
Import SpecFloat PyFloat.

Lemma digits2_pos_bounds p :
  2 ^ (Zpos (digits2_pos p) - 1) <= Zpos p < 2 ^ Zpos (digits2_pos p).
Proof.
  induction p as [p IH|p IH|]; cbn [digits2_pos].
  - rewrite Pos2Z.inj_succ, Z.pow_succ_r by lia.
    replace (Z.succ (Zpos (digits2_pos p)) - 1)
      with (Z.succ (Zpos (digits2_pos p) - 1)) by lia.
    rewrite Z.pow_succ_r by lia. lia.
  - rewrite Pos2Z.inj_succ, Z.pow_succ_r by lia.
    replace (Z.succ (Zpos (digits2_pos p)) - 1)
      with (Z.succ (Zpos (digits2_pos p) - 1)) by lia.
    rewrite Z.pow_succ_r by lia. lia.
  - simpl. lia.
Qed.

Lemma digits2_unique p k :
  2 ^ (k - 1) <= Zpos p < 2 ^ k -> Zpos (digits2_pos p) = k.
Proof.
  intros [L U]. pose proof (digits2_pos_bounds p) as [L' U'].
  assert (0 < k).
  { destruct (Z_lt_le_dec 0 k); [assumption|].
    assert (2 ^ k <= 2 ^ 0) by (apply Z.pow_le_mono_r; lia).
    simpl in *. lia. }
  destruct (Z_lt_le_dec (Zpos (digits2_pos p)) k).
  - assert (2 ^ Zpos (digits2_pos p) <= 2 ^ (k - 1))
      by (apply Z.pow_le_mono_r; lia). lia.
  - destruct (Z_lt_le_dec k (Zpos (digits2_pos p))); [|lia].
    assert (2 ^ k <= 2 ^ (Zpos (digits2_pos p) - 1))
      by (apply Z.pow_le_mono_r; lia). lia.
Qed.

Lemma shr_1_m mrs : 0 <= shr_m mrs -> shr_m (shr_1 mrs) = shr_m mrs / 2.
Proof.
  destruct mrs as [m r s]. cbn [shr_m]. intros H.
  rewrite <- Z.div2_div.
  destruct m as [|[p|p|]|p]; try reflexivity. lia.
Qed.

Lemma pow2_xI p : 2 ^ Zpos p~1 = 2 * (2 ^ Zpos p * 2 ^ Zpos p).
Proof.
  rewrite (Pos2Z.inj_xI p).
  replace (2 * Zpos p + 1) with (1 + (Zpos p + Zpos p)) by lia.
  rewrite Z.pow_add_r by lia. rewrite Z.pow_add_r by lia. reflexivity.
Qed.

Lemma pow2_xO p : 2 ^ Zpos p~0 = 2 ^ Zpos p * 2 ^ Zpos p.
Proof.
  rewrite (Pos2Z.inj_xO p).
  replace (2 * Zpos p) with (Zpos p + Zpos p) by lia.
  rewrite Z.pow_add_r by lia. reflexivity.
Qed.

Lemma iter_shr_m p : forall mrs,
  0 <= shr_m mrs ->
  shr_m (iter_pos shr_1 p mrs) = shr_m mrs / 2 ^ Zpos p.
Proof.
  induction p as [p IH|p IH|]; intros mrs H; cbn [iter_pos].
  - assert (0 <= shr_m (shr_1 mrs))
      by (rewrite shr_1_m by assumption; apply Z.div_pos; lia).
    assert (0 <= shr_m (iter_pos shr_1 p (shr_1 mrs)))
      by (rewrite IH by assumption; apply Z.div_pos; lia).
    rewrite IH, IH, shr_1_m by assumption.
    rewrite !Z.div_div by lia. rewrite pow2_xI. reflexivity.
  - assert (0 <= shr_m (iter_pos shr_1 p mrs))
      by (rewrite IH by assumption; apply Z.div_pos; lia).
    rewrite IH, IH by assumption.
    rewrite !Z.div_div by lia. rewrite pow2_xO. reflexivity.
  - rewrite shr_1_m by assumption. reflexivity.
Qed.

Lemma shr_m_shift mrs e n :
  0 <= shr_m mrs -> 0 <= n ->
  shr_m (fst (shr mrs e n)) = shr_m mrs / 2 ^ n /\ snd (shr mrs e n) = e + n.
Proof.
  intros H Hn. destruct n as [|p|p]; cbn [shr fst snd].
  - rewrite Z.div_1_r. split; [reflexivity | lia].
  - split; [apply iter_shr_m, H | reflexivity].
  - lia.
Qed.

Lemma shr_record_m m l : shr_m (shr_record_of_loc m l) = m.
Proof. destruct l as [|[| |]]; reflexivity. Qed.

Lemma round_nearest_even_cases m l :
  round_nearest_even m l = m \/ round_nearest_even m l = m + 1.
Proof.
  destruct l as [|[| |]]; cbn [round_nearest_even]; auto.
  destruct (Z.even m); auto.
Qed.

Lemma fexp_normal e : -1074 <= e - 53 -> fexp prec emax e = e - 53.
Proof. intros H. unfold fexp, emin, prec, emax. lia. Qed.

Lemma Zdigits2_bounds m :
  0 < m -> 2 ^ (Zdigits2 m - 1) <= m < 2 ^ Zdigits2 m.
Proof. destruct m as [|p|p]; try lia. intros _. apply digits2_pos_bounds. Qed.

Lemma Zdigits2_unique m k :
  2 ^ (k - 1) <= m < 2 ^ k -> 0 < m -> Zdigits2 m = k.
Proof.
  destruct m as [|p|p]; try lia. intros H _. apply digits2_unique, H.
Qed.

(** Rounding a mantissa of at least 53 digits, away from the ends of the
    exponent range: the result is within one unit in the last place. *)
Lemma round_aux_bounds sx mx ex lx :
  0 < mx -> 53 <= Zdigits2 mx ->
  -1074 <= Zdigits2 mx + ex - 53 -> Zdigits2 mx + ex - 53 < 971 ->
  exists m k,
    binary_round_aux prec emax sx mx ex lx = S754_finite sx m (ex + k)
    /\ Zdigits2 mx - 53 <= k <= Zdigits2 mx - 52
    /\ 2 ^ 52 <= Zpos m < 2 ^ 53
    /\ (Zpos m - 1) * 2 ^ k <= mx
    /\ mx + 1 <= (Zpos m + 1) * 2 ^ k.
Proof.
  intros Hpos Hd Hlo Hhi.
  set (d := Zdigits2 mx) in *.
  set (n := d - 53).
  pose proof (Zdigits2_bounds mx Hpos) as [L U]. fold d in L, U.
  unfold binary_round_aux, shr_fexp. fold d.
  rewrite fexp_normal by lia.
  replace (d + ex - 53 - ex) with n by (unfold n; lia).
  destruct (shr (shr_record_of_loc mx lx) ex n) as [mrs' e'] eqn:E1.
  pose proof (shr_m_shift (shr_record_of_loc mx lx) ex n) as S1.
  rewrite shr_record_m, E1 in S1. cbn [fst snd] in S1.
  destruct S1 as [S1 S1']; [lia | unfold n; lia|]. subst e'.
  set (M := shr_m mrs') in *.
  assert (2 ^ d = 2 ^ 53 * 2 ^ n) as Pd
    by (rewrite <- Z.pow_add_r by (unfold n; lia); f_equal; unfold n; lia).
  assert (2 ^ (d - 1) = 2 ^ 52 * 2 ^ n) as Pd1
    by (rewrite <- Z.pow_add_r by (unfold n; lia); f_equal; unfold n; lia).
  assert (0 < 2 ^ n) as Pn by (apply Z.pow_pos_nonneg; unfold n; lia).
  assert (M * 2 ^ n <= mx < (M + 1) * 2 ^ n) as HM.
  { rewrite S1. pose proof (Z.mul_div_le mx (2 ^ n) Pn).
    pose proof (Z.mul_succ_div_gt mx (2 ^ n) Pn). lia. }
  assert (2 ^ 52 <= M < 2 ^ 53) as BM by nia.
  set (m1 := round_nearest_even M (loc_of_shr_record mrs')).
  assert (m1 = M \/ m1 = M + 1) as Hm1 by apply round_nearest_even_cases.
  destruct (Z_lt_le_dec m1 (2 ^ 53)) as [Hlt|Hge].
  - (* no carry *)
    assert (Zdigits2 m1 = 53) as D1
      by (apply Zdigits2_unique; [change (53 - 1) with 52|]; lia).
    rewrite D1, fexp_normal by (unfold n; lia).
    replace (53 + (ex + n) - 53 - (ex + n)) with 0 by lia.
    cbn [shr shr_record_of_loc shr_m].
    destruct m1 as [|p|p] eqn:Em1; try lia.
    replace (ex + n <=? emax - prec) with true
      by (symmetry; apply Z.leb_le; unfold emax, prec, n; lia).
    exists p, n. split; [reflexivity|].
    split; [unfold n; lia|]. split; [lia|]. nia.
  - (* the rounding carried into a new digit *)
    assert (m1 = 2 ^ 53) as Em1 by lia.
    assert (M = 2 ^ 53 - 1) as EM by lia.
    rewrite Em1.
    assert (Zdigits2 (2 ^ 53) = 54) as D1 by reflexivity.
    rewrite D1, fexp_normal by (unfold n; lia).
    replace (54 + (ex + n) - 53 - (ex + n)) with 1 by lia.
    assert (shr (shr_record_of_loc (2 ^ 53) loc_Exact) (ex + n) 1
            = (Build_shr_record 4503599627370496 false false, ex + n + 1))
      as E2 by reflexivity.
    rewrite E2. cbn [shr_m].
    replace (ex + n + 1 <=? emax - prec) with true
      by (symmetry; apply Z.leb_le; unfold emax, prec, n; lia).
    exists 4503599627370496%positive, (n + 1).
    split; [f_equal; lia|].
    split; [unfold n; lia|].
    rewrite Z.pow_add_r by (unfold n; lia).
    change (Z.pos 4503599627370496) with (2 ^ 52).
    change (2 ^ 1) with 2.
    split; [lia|]. nia.
Qed.

(** An exact mantissa of 53 digits is returned as it is. *)
Lemma round_aux_exact sx p ex :
  2 ^ 52 <= Zpos p < 2 ^ 53 -> -1074 <= ex -> ex <= 971 ->
  binary_round_aux prec emax sx (Zpos p) ex loc_Exact = S754_finite sx p ex.
Proof.
  intros B Hlo Hhi.
  assert (Zdigits2 (Zpos p) = 53) as D
    by (apply Zdigits2_unique; [change (53 - 1) with 52|]; lia).
  unfold binary_round_aux, shr_fexp.
  cbn [shr_record_of_loc].
  rewrite D, fexp_normal by lia.
  replace (53 + ex - 53 - ex) with 0 by lia.
  cbn [shr shr_m loc_of_shr_record round_nearest_even shr_record_of_loc].
  rewrite D, fexp_normal by lia.
  replace (53 + ex - 53 - ex) with 0 by lia.
  cbn [shr shr_m].
  replace (ex <=? emax - prec) with true
    by (symmetry; apply Z.leb_le; unfold emax, prec; lia).
  reflexivity.
Qed.

Lemma iter_xO p d : Zpos (Pos.iter xO p d) = Zpos p * 2 ^ Zpos d.
Proof.
  induction d as [|d IH] using Pos.peano_ind.
  - simpl. lia.
  - rewrite Pos.iter_succ, Pos2Z.inj_succ, Z.pow_succ_r by lia.
    rewrite (Pos2Z.inj_xO (Pos.iter xO p d)), IH. lia.
Qed.

(** An int of at most 53 bits converts exactly. *)
Lemma binary_round_int s p :
  Zpos p < 2 ^ 53 ->
  exists mz,
    binary_round prec emax s p 0
    = S754_finite s mz (Zpos (digits2_pos p) - 53)
    /\ Zpos mz = Zpos p * 2 ^ (53 - Zpos (digits2_pos p))
    /\ 2 ^ 52 <= Zpos mz < 2 ^ 53
    /\ 1 <= Zpos (digits2_pos p) <= 53.
Proof.
  intros Hp. pose proof (digits2_pos_bounds p) as [L U].
  set (d := Zpos (digits2_pos p)) in *.
  assert (1 <= d <= 53) as Hd.
  { split; [unfold d; lia|].
    destruct (Z_le_gt_dec d 53); [assumption|].
    assert (2 ^ 53 <= 2 ^ (d - 1)) by (apply Z.pow_le_mono_r; lia). lia. }
  assert (exists mz, shl_align p 0 (d - 53) = (mz, d - 53)
                     /\ Zpos mz = Zpos p * 2 ^ (53 - d)) as (mz & E & V).
  { unfold shl_align. replace (d - 53 - 0) with (d - 53) by lia.
    destruct (d - 53) as [|q|q] eqn:Ed; try lia.
    - exists p. replace (53 - d) with 0 by lia. split; [reflexivity | simpl; lia].
    - exists (Pos.iter xO p q). split; [reflexivity|].
      rewrite iter_xO. f_equal. f_equal. lia. }
  assert (2 ^ 52 <= Zpos mz < 2 ^ 53) as Bm.
  { rewrite V.
    assert (2 ^ 52 = 2 ^ (d - 1) * 2 ^ (53 - d)) as ->
      by (rewrite <- Z.pow_add_r by lia; f_equal; lia).
    assert (2 ^ 53 = 2 ^ d * 2 ^ (53 - d)) as ->
      by (rewrite <- Z.pow_add_r by lia; f_equal; lia).
    assert (0 < 2 ^ (53 - d)) by (apply Z.pow_pos_nonneg; lia). nia. }
  exists mz. unfold binary_round. fold d.
  replace (d + 0) with d by lia. rewrite fexp_normal by lia. rewrite E.
  rewrite round_aux_exact by lia. auto.
Qed.

(** The quotient of two floats with full mantissas, away from the ends of the
    exponent range: within one unit in the last place of the exact one. *)
Lemma SFdiv_bounds sx mx ex sy my ey :
  2 ^ 52 <= Zpos mx < 2 ^ 53 -> 2 ^ 52 <= Zpos my < 2 ^ 53 ->
  -900 <= ex - ey <= 900 ->
  exists m k,
    SFdiv prec emax (S754_finite sx mx ex) (S754_finite sy my ey)
    = S754_finite (xorb sx sy) m (ex - ey - 53 + k)
    /\ 0 <= k <= 2
    /\ 2 ^ 52 <= Zpos m < 2 ^ 53
    /\ (Zpos m - 1) * 2 ^ k * Zpos my <= Zpos mx * 2 ^ 53
    /\ Zpos mx * 2 ^ 53 < (Zpos m + 1) * 2 ^ k * Zpos my.
Proof.
  intros Bx By He.
  assert (Zdigits2 (Zpos mx) = 53) as Dx
    by (apply Zdigits2_unique; [change (53 - 1) with 52|]; lia).
  assert (Zdigits2 (Zpos my) = 53) as Dy
    by (apply Zdigits2_unique; [change (53 - 1) with 52|]; lia).
  unfold SFdiv, SFdiv_core_binary. rewrite Dx, Dy.
  replace (53 + ex - (53 + ey)) with (ex - ey) by lia.
  rewrite fexp_normal by lia.
  replace (Z.min (ex - ey - 53) (ex - ey)) with (ex - ey - 53) by lia.
  replace (ex - ey - (ex - ey - 53)) with 53 by lia.
  cbv iota beta.
  rewrite Z.shiftl_mul_pow2 by lia.
  pose proof (Z_div_mod (Zpos mx * 2 ^ 53) (Zpos my) ltac:(lia)) as DM.
  destruct (Z.div_eucl (Zpos mx * 2 ^ 53) (Zpos my)) as [q r].
  destruct DM as [DM1 DM2].
  assert (2 ^ 52 <= q < 2 ^ 54) as Bq.
  { change (2 ^ 54) with (2 * 2 ^ 53). change (2 ^ 53) with (2 * 2 ^ 52) in *.
    nia. }
  assert (53 <= Zdigits2 q <= 54) as Dq.
  { destruct (Z_lt_le_dec q (2 ^ 53)).
    - rewrite (Zdigits2_unique q 53); [lia | change (53 - 1) with 52; lia | lia].
    - rewrite (Zdigits2_unique q 54); [lia | change (54 - 1) with 53; lia | lia]. }
  destruct (round_aux_bounds (xorb sx sy) q (ex - ey - 53)
              (new_location (Zpos my) r)) as (m & k & E & Hk & Bm & L & U);
    try lia.
  exists m, k. rewrite E.
  split; [f_equal; lia|]. split; [lia|]. split; [lia|].
  split; nia.
Qed.

(** The product of two floats with full mantissas, likewise. *)
Lemma SFmul_bounds sx mx ex sy my ey :
  2 ^ 52 <= Zpos mx < 2 ^ 53 -> 2 ^ 52 <= Zpos my < 2 ^ 53 ->
  -900 <= ex + ey <= 800 ->
  exists m k,
    SFmul prec emax (S754_finite sx mx ex) (S754_finite sy my ey)
    = S754_finite (xorb sx sy) m (ex + ey + k)
    /\ 52 <= k <= 54
    /\ 2 ^ 52 <= Zpos m < 2 ^ 53
    /\ (Zpos m - 1) * 2 ^ k <= Zpos mx * Zpos my
    /\ Zpos mx * Zpos my < (Zpos m + 1) * 2 ^ k.
Proof.
  intros Bx By He. unfold SFmul.
  assert (2 ^ 104 <= Zpos (mx * my) < 2 ^ 106) as Bp.
  { rewrite Pos2Z.inj_mul.
    change (2 ^ 104) with (2 ^ 52 * 2 ^ 52).
    change (2 ^ 106) with (2 ^ 53 * 2 ^ 53). nia. }
  assert (105 <= Zdigits2 (Zpos (mx * my)) <= 106) as Dp.
  { destruct (Z_lt_le_dec (Zpos (mx * my)) (2 ^ 105)).
    - rewrite (Zdigits2_unique _ 105); [lia | change (105 - 1) with 104; lia | lia].
    - rewrite (Zdigits2_unique _ 106); [lia | change (106 - 1) with 105; lia | lia]. }
  destruct (round_aux_bounds (xorb sx sy) (Zpos (mx * my)) (ex + ey)
              loc_Exact) as (m & k & E & Hk & Bm & L & U); try lia.
  exists m, k. rewrite E. rewrite Pos2Z.inj_mul in L, U.
  split; [reflexivity|]. split; [lia|]. split; [lia|]. split; lia.
Qed.

(** *** The arithmetic of two roundings *)

Section TwoRoundings.
Variables x d w m m2 a c t : Z.
Hypothesis Hx : 1 <= x.
Hypothesis Hd : 1 <= d.
Hypothesis Hw : 1 <= w.
Hypothesis Hxw : x * w <= 2 ^ 50.
Hypothesis Hm : 2 ^ 52 <= m < 2 ^ 53.
Hypothesis Hm2 : 2 ^ 52 <= m2 < 2 ^ 53.
Hypothesis Ha : 0 < a.
Hypothesis Hc : 0 < c.
Hypothesis Ht : 0 < t.
Hypothesis Hdiv_lo : (m - 1) * d <= x * a.
Hypothesis Hdiv_hi : x * a < (m + 1) * d.
Hypothesis Hmul_lo : (m2 - 1) * t <= m * w * c.
Hypothesis Hmul_hi : m * w * c < (m2 + 1) * t.

Lemma budget : (x * w) * (m + m2 - 1) < (m2 - 1) * (m - 1).
Proof.
  set (P := x * w) in *.
  assert (1 <= P) as HP by (unfold P; nia).
  change (2 ^ 50) with 1125899906842624 in *.
  change (2 ^ 52) with 4503599627370496 in *.
  change (2 ^ 53) with 9007199254740992 in *.
  assert (P * (m + m2 - 1) <= 1125899906842624 * (m + m2 - 1)) as K1.
  { apply Z.mul_le_mono_nonneg_r; lia. }
  assert (4503599627370495 * (m - 1) <= (m2 - 1) * (m - 1)) as K2.
  { apply Z.mul_le_mono_nonneg_r; lia. }
  lia.
Qed.

(** The two units in the last place are small against the scale. *)
Lemma units_small : d * (w * c + t) < a * c.
Proof.
  pose proof budget as S1.
  assert (0 < m2 - 1) as Hm2' by (change (2 ^ 52) with 4503599627370496 in *; lia).
  assert (0 < m - 1) as Hm' by (change (2 ^ 52) with 4503599627370496 in *; lia).
  assert (0 < (m2 - 1) * x) as Hk by (apply Z.mul_pos_pos; lia).
  assert (0 <= d * x) as Hdx by (apply Z.mul_nonneg_nonneg; lia).
  assert (0 < d * c) as Hdc by (apply Z.mul_pos_pos; lia).
  assert (0 <= (m2 - 1) * c) as Hmc by (apply Z.mul_nonneg_nonneg; lia).
  pose proof (Z.mul_le_mono_nonneg_l _ _ (d * x) Hdx Hmul_lo) as S2.
  apply (Z.mul_lt_mono_pos_l (d * c)) in S1; [|exact Hdc].
  pose proof (Z.mul_le_mono_nonneg_l _ _ ((m2 - 1) * c) Hmc Hdiv_lo) as S4.
  apply (Z.mul_lt_mono_pos_l ((m2 - 1) * x)); [exact Hk|].
  lia.
Qed.

Variable B : Z.
Hypothesis HB : 0 < B.
Hypothesis HBt : B * t = a * c.

Lemma product_close :
  (x * w - 1) * B < m2 * d /\ m2 * d < (x * w + 1) * B.
Proof.
  pose proof units_small as U.
  assert (0 < w * c) as Hwc by (apply Z.mul_pos_pos; lia).
  assert (0 <= d) as Hd0 by lia.
  (* m2 * t <= m * w * c + t  and  m * d <= x * a + d *)
  pose proof (Z.mul_le_mono_nonneg_l _ _ d Hd0 Hmul_lo) as U1.
  assert (0 <= w * c) as Hwc0 by lia.
  pose proof (Z.mul_le_mono_nonneg_l _ _ (w * c) Hwc0 Hdiv_lo) as U2.
  pose proof Hmul_hi as L1.
  apply (Z.mul_lt_mono_pos_l d) in L1; [|lia].
  pose proof Hdiv_hi as L3.
  apply (Z.mul_lt_mono_pos_l (w * c)) in L3; [|exact Hwc].
  assert (B * t * (x * w) = a * c * (x * w)) as E by (rewrite HBt; reflexivity).
  split.
  - apply (Z.mul_lt_mono_pos_r t); [exact Ht|]. lia.
  - apply (Z.mul_lt_mono_pos_r t); [exact Ht|]. lia.
Qed.

End TwoRoundings.

(** The integral part of a value that close to a quotient. *)
Lemma floor_close P d m2 B :
  0 <= P -> 0 < d -> 0 < B ->
  (P - 1) * B < m2 * d -> m2 * d < (P + 1) * B ->
  m2 / B = P / d \/ (P mod d = 0 /\ m2 / B = P / d - 1).
Proof.
  intros HP Hd HB L U.
  pose proof (Z.mul_div_le m2 B HB) as G1.
  pose proof (Z.mul_succ_div_gt m2 B HB) as G2.
  pose proof (Z.mul_div_le P d Hd) as T1.
  pose proof (Z.mul_succ_div_gt P d Hd) as T2.
  pose proof (Z.div_mod P d ltac:(lia)) as DM.
  set (g := m2 / B) in *. set (T := P / d) in *.
  assert (g * d < P + 1) as K1.
  { apply (Z.mul_lt_mono_pos_r B); [exact HB|].
    assert (B * g * d <= m2 * d) by (apply Z.mul_le_mono_nonneg_r; lia).
    lia. }
  assert (P - 1 < (g + 1) * d) as K2.
  { apply (Z.mul_lt_mono_pos_r B); [exact HB|].
    assert (m2 * d < B * Z.succ g * d) by (apply Z.mul_lt_mono_pos_r; lia).
    lia. }
  assert (g <= T) as K3.
  { destruct (Z_le_gt_dec g T); [assumption|].
    assert (d * (T + 1) <= d * g) by (apply Z.mul_le_mono_nonneg_l; lia).
    lia. }
  assert (T <= g + 1) as K4.
  { destruct (Z_le_gt_dec T (g + 1)); [assumption|].
    assert (d * (g + 2) <= d * T) by (apply Z.mul_le_mono_nonneg_l; lia).
    lia. }
  destruct (Z.eq_dec g T) as [E|N]; [left; exact E|]. right.
  assert (g = T - 1) as E by lia. split; [|exact E].
  subst g. rewrite E in K2.
  replace (T - 1 + 1) with T in K2 by lia. lia.
Qed.

End FloatFacts.

(** ** The scaled coordinate *)

Module GeometryFacts.
Import SpecFloat PyFloat Geometry FloatFacts.

Lemma of_int_zero : of_int 0 = Ok (S754_zero false).
Proof. reflexivity. Qed.

(** An int of at most 53 bits, not zero, converts exactly, to a full
    mantissa. *)
Lemma of_int_nonzero n :
  n <> 0 -> Z.abs n < 2 ^ 53 ->
  exists mz,
    of_int n = Ok (S754_finite (n <? 0) mz (Zdigits2 n - 53))
    /\ Zpos mz = Z.abs n * 2 ^ (53 - Zdigits2 n)
    /\ 2 ^ 52 <= Zpos mz < 2 ^ 53
    /\ 1 <= Zdigits2 n <= 53.
Proof.
  intros Hn Hb. unfold of_int, binary_normalize.
  destruct n as [|p|p]; [contradiction| |].
  - destruct (binary_round_int false p Hb) as (mz & E & V & B & D).
    exists mz. rewrite E. auto.
  - destruct (binary_round_int true p Hb) as (mz & E & V & B & D).
    exists mz. rewrite E. auto.
Qed.

Lemma Zdigits2_abs n : Zdigits2 (Z.abs n) = Zdigits2 n.
Proof. destruct n; reflexivity. Qed.

Lemma Zdigits2_le n k :
  0 < n -> n < 2 ^ k -> 0 <= k -> Zdigits2 n <= k.
Proof.
  intros Hn Hk H0. pose proof (Zdigits2_bounds n Hn) as [L _].
  destruct (Z_le_gt_dec (Zdigits2 n) k); [assumption|].
  assert (2 ^ k <= 2 ^ (Zdigits2 n - 1)) by (apply Z.pow_le_mono_r; lia).
  lia.
Qed.

(** The computed coordinate, for operands that are not zero: the sign of
    the product, and a magnitude that is the integral part of the exact
    quotient, or one less when the quotient is an integer. *)
Lemma scale_nonzero v design cur :
  v <> 0 -> cur <> 0 -> Z.abs v * Z.abs cur <= 2 ^ 50 -> design < 2 ^ 53 ->
  exists g,
    scale v design cur = Ok (cond_Zopp (xorb (v <? 0) (cur <? 0)) g)
    /\ (g = (Z.abs v * Z.abs cur) / Z.max 1 design
        \/ ((Z.abs v * Z.abs cur) mod Z.max 1 design = 0
            /\ g = (Z.abs v * Z.abs cur) / Z.max 1 design - 1)).
Proof.
  intros Hv Hc Hvc Hdes.
  set (x := Z.abs v) in *. set (w := Z.abs cur) in *.
  set (d := Z.max 1 design).
  assert (1 <= x) as Hx by (unfold x; lia).
  assert (1 <= w) as Hw by (unfold w; lia).
  assert (1 <= d < 2 ^ 53) as Hd by (unfold d; lia).
  assert (x <= 2 ^ 50 /\ w <= 2 ^ 50) as [Hx50 Hw50] by (split; nia).
  (* the three conversions *)
  destruct (of_int_nonzero v Hv) as (X & EX & VX & BX & DX);
    [fold x; change (2 ^ 53) with (8 * 2 ^ 50); lia|].
  destruct (of_int_nonzero cur Hc) as (W & EW & VW & BW & DW);
    [fold w; change (2 ^ 53) with (8 * 2 ^ 50); lia|].
  destruct (of_int_nonzero d ltac:(lia)) as (D & ED & VD & BD & DD); [lia|].
  replace (d <? 0) with false in ED by (symmetry; apply Z.ltb_ge; lia).
  replace (Z.abs d) with d in VD by lia.
  fold x in VX. fold w in VW.
  set (dx := Zdigits2 v) in *. set (dw := Zdigits2 cur) in *.
  set (dd := Zdigits2 d) in *.
  assert (dx <= 51) as Hdx.
  { unfold dx. rewrite <- Zdigits2_abs. fold x.
    apply Zdigits2_le; [lia | change (2 ^ 51) with (2 * 2 ^ 50); lia | lia]. }
  (* the quotient *)
  destruct (SFdiv_bounds (v <? 0) X (dx - 53) false D (dd - 53) BX BD
              ltac:(lia)) as (m & k1 & Ediv & Hk1 & Bm & Ldiv & Udiv).
  rewrite xorb_false_r in Ediv.
  set (S := 53 + dd - dx - k1).
  replace (dx - 53 - (dd - 53) - 53 + k1) with (- S) in Ediv
    by (unfold S; lia).
  assert (1 <= S) as HS by (unfold S; lia).
  set (a := 2 ^ S).
  set (G1 := 2 ^ (53 + k1 - dd)).
  assert (0 < a) as Ha by (apply Z.pow_pos_nonneg; lia).
  assert (0 < G1) as HG1 by (apply Z.pow_pos_nonneg; lia).
  assert (2 ^ (53 - dx) * 2 ^ 53 = a * G1) as I1.
  { unfold a, G1. rewrite <- !Z.pow_add_r by lia. f_equal. unfold S. lia. }
  assert (2 ^ k1 * 2 ^ (53 - dd) = G1) as I2.
  { unfold G1. rewrite <- Z.pow_add_r by lia. f_equal. lia. }
  assert ((Zpos m - 1) * d <= x * a /\ x * a < (Zpos m + 1) * d)
    as [Hdiv_lo Hdiv_hi].
  { rewrite VX, VD in Ldiv, Udiv.
    replace ((Zpos m - 1) * 2 ^ k1 * (d * 2 ^ (53 - dd)))
      with ((Zpos m - 1) * d * (2 ^ k1 * 2 ^ (53 - dd))) in Ldiv by ring.
    replace ((Zpos m + 1) * 2 ^ k1 * (d * 2 ^ (53 - dd)))
      with ((Zpos m + 1) * d * (2 ^ k1 * 2 ^ (53 - dd))) in Udiv by ring.
    replace (x * 2 ^ (53 - dx) * 2 ^ 53)
      with (x * (2 ^ (53 - dx) * 2 ^ 53)) in Ldiv, Udiv by ring.
    rewrite I1, I2 in Ldiv, Udiv.
    replace (x * (a * G1)) with (x * a * G1) in Ldiv, Udiv by ring.
    split.
    - apply (Z.mul_le_mono_pos_r _ _ G1); assumption.
    - apply (Z.mul_lt_mono_pos_r G1); assumption. }
  (* the product *)
  destruct (SFmul_bounds (v <? 0) m (- S) (cur <? 0) W (dw - 53) Bm BW
              ltac:(unfold S; lia)) as (m2 & k2 & Emul & Hk2 & Bm2 & Lmul & Umul).
  set (c := 2 ^ (53 - dw)) in *. set (t := 2 ^ k2) in *.
  assert (0 < c) as Hc0 by (apply Z.pow_pos_nonneg; lia).
  assert (0 < t) as Ht0 by (apply Z.pow_pos_nonneg; lia).
  rewrite VW in Lmul, Umul.
  replace (Zpos m * (w * c)) with (Zpos m * w * c) in Lmul, Umul by ring.
  pose proof (units_small x d w (Zpos m) (Zpos m2) a c t Hx ltac:(lia) Hw
                Hvc Bm Bm2 Hc0 Hdiv_lo Lmul) as Usmall.
  (* the exponent of the product is negative *)
  assert (a * c = 2 ^ (S + (53 - dw))) as Iac
    by (unfold a, c; rewrite <- Z.pow_add_r by lia; reflexivity).
  assert (t < a * c) as Htac.
  { assert (1 * (w * c + t) <= d * (w * c + t))
      by (apply Z.mul_le_mono_nonneg_r; [|lia];
          assert (0 < w * c) by (apply Z.mul_pos_pos; lia); lia).
    assert (0 < w * c) by (apply Z.mul_pos_pos; lia). lia. }
  assert (k2 < S + (53 - dw)) as Hk2lt.
  { rewrite Iac in Htac. unfold t in Htac.
    apply Z.pow_lt_mono_r_iff in Htac; lia. }
  set (E := S + (53 - dw) - k2).
  assert (1 <= E) as HE by (unfold E; lia).
  set (B := 2 ^ E).
  assert (0 < B) as HB by (apply Z.pow_pos_nonneg; lia).
  assert (B * t = a * c) as HBt.
  { rewrite Iac. unfold B, t. rewrite <- Z.pow_add_r by lia.
    f_equal. unfold E. lia. }
  replace (- S + (dw - 53) + k2) with (- E) in Emul by (unfold E; lia).
  destruct (product_close x d w (Zpos m) (Zpos m2) a c t Hx ltac:(lia) Hw
              Hvc Bm Bm2 Hc0 Ht0 Hdiv_lo Hdiv_hi Lmul Umul B HBt)
    as [Lp Up].
  exists (Zpos m2 / B). split.
  - unfold scale, ratio, truediv. fold d.
    replace (d =? 0) with false by (symmetry; apply Z.eqb_neq; lia).
    rewrite EX, ED. cbn [bind]. rewrite Ediv.
    unfold scaled, mul_int. rewrite EW. cbn [bind]. rewrite Emul.
    cbn [to_int]. rewrite Z.shiftl_div_pow2 by lia.
    rewrite Z.opp_involutive. reflexivity.
  - apply floor_close; lia.
Qed.

(** The quotient of a value that is not zero is a float that is not zero. *)
Lemma ratio_finite v design :
  v <> 0 -> Z.abs v < 2 ^ 53 -> design < 2 ^ 53 ->
  exists m e, ratio v design = Ok (S754_finite (v <? 0) m e).
Proof.
  intros Hv Hb Hdes. set (d := Z.max 1 design).
  destruct (of_int_nonzero v Hv Hb) as (X & EX & VX & BX & DX).
  destruct (of_int_nonzero d ltac:(unfold d; lia) ltac:(unfold d; lia))
    as (D & ED & VD & BD & DD).
  destruct (SFdiv_bounds (v <? 0) X (Zdigits2 v - 53) (d <? 0) D
              (Zdigits2 d - 53) BX BD ltac:(lia))
    as (m & k1 & Ediv & _).
  replace (d <? 0) with false in *
    by (symmetry; apply Z.ltb_ge; unfold d; lia).
  rewrite xorb_false_r in Ediv.
  exists m, (Zdigits2 v - 53 - (Zdigits2 d - 53) - 53 + k1).
  unfold ratio, truediv. fold d.
  replace (d =? 0) with false by (symmetry; apply Z.eqb_neq; unfold d; lia).
  rewrite EX, ED. cbn [bind]. rewrite Ediv. reflexivity.
Qed.

Lemma ratio_zero design :
  design < 2 ^ 53 -> ratio 0 design = Ok (S754_zero false).
Proof.
  intros Hdes. set (d := Z.max 1 design).
  destruct (of_int_nonzero d ltac:(unfold d; lia) ltac:(unfold d; lia))
    as (D & ED & _).
  replace (d <? 0) with false in *
    by (symmetry; apply Z.ltb_ge; unfold d; lia).
  unfold ratio, truediv. fold d.
  replace (d =? 0) with false by (symmetry; apply Z.eqb_neq; unfold d; lia).
  rewrite of_int_zero, ED. reflexivity.
Qed.

(** Zero times an int of at most 53 bits, and a float times zero. *)
Lemma scaled_zero s cur :
  Z.abs cur < 2 ^ 53 -> scaled (S754_zero s) cur = Ok 0.
Proof.
  intros Hb. unfold scaled, mul_int.
  destruct (Z.eq_dec cur 0) as [->|Hc].
  - rewrite of_int_zero. reflexivity.
  - destruct (of_int_nonzero cur Hc Hb) as (W & EW & _).
    rewrite EW. reflexivity.
Qed.

Lemma scaled_by_zero s m e : scaled (S754_finite s m e) 0 = Ok 0.
Proof. reflexivity. Qed.

(** What is computed for one coordinate, over the integers: the exact
    quotient [P / d] cut towards zero or, only when [d] divides [P], the
    integer next to it towards zero. *)
Definition toward_zero (P d g : Z) : Prop :=
  g = Z.quot P d \/ (Z.rem P d = 0 /\ g = Z.quot P d - Z.sgn P).

Lemma toward_zero_signed v cur d g :
  v <> 0 -> cur <> 0 -> 0 < d ->
  g = (Z.abs v * Z.abs cur) / d
  \/ ((Z.abs v * Z.abs cur) mod d = 0 /\ g = (Z.abs v * Z.abs cur) / d - 1) ->
  toward_zero (v * cur) d (cond_Zopp (xorb (v <? 0) (cur <? 0)) g).
Proof.
  intros Hv Hc Hd H. rewrite <- Z.abs_mul in H.
  assert (v * cur <> 0) as HP by (apply Z.neq_mul_0; auto).
  assert (xorb (v <? 0) (cur <? 0) = (v * cur <? 0)) as ->.
  { destruct (v <? 0) eqn:E1, (cur <? 0) eqn:E2, (v * cur <? 0) eqn:E3;
      try reflexivity; exfalso;
      rewrite ?Z.ltb_lt, ?Z.ltb_ge in E1, E2, E3; nia. }
  set (P := v * cur) in *. unfold toward_zero.
  destruct (Z_lt_le_dec P 0) as [Hneg|Hpos].
  - replace (P <? 0) with true by (symmetry; apply Z.ltb_lt; exact Hneg).
    cbn [cond_Zopp].
    replace (Z.abs P) with (- P) in H by lia.
    assert (P ÷ d = - (- P / d)) as Q.
    { rewrite <- Z.quot_div_nonneg by lia. rewrite Z.quot_opp_l by lia. lia. }
    assert (Z.rem P d = - (- P mod d)) as R.
    { rewrite <- Z.rem_mod_nonneg by lia. rewrite Z.rem_opp_l by lia. lia. }
    rewrite Q, R. replace (Z.sgn P) with (-1) by lia.
    destruct H as [->|[H ->]]; [left; reflexivity | right; split; lia].
  - replace (P <? 0) with false by (symmetry; apply Z.ltb_ge; exact Hpos).
    cbn [cond_Zopp].
    replace (Z.abs P) with P in H by lia.
    rewrite Z.quot_div_nonneg, Z.rem_mod_nonneg by lia.
    replace (Z.sgn P) with 1 by lia. exact H.
Qed.

(** The computed coordinate. *)
Lemma scale_spec v design cur :
  Z.abs v < 2 ^ 53 -> Z.abs cur < 2 ^ 53 -> design < 2 ^ 53 ->
  Z.abs (v * cur) <= 2 ^ 50 ->
  exists g,
    scale v design cur = Ok g /\ toward_zero (v * cur) (Z.max 1 design) g.
Proof.
  intros Hv Hc Hdes Hvc.
  destruct (Z.eq_dec v 0) as [->|Hv0].
  - exists 0. unfold scale. rewrite ratio_zero by assumption. cbn [bind].
    rewrite scaled_zero by assumption. split; [reflexivity|].
    left. rewrite Z.mul_0_l, Z.quot_0_l; [reflexivity | lia].
  - destruct (Z.eq_dec cur 0) as [->|Hc0].
    + exists 0. unfold scale.
      destruct (ratio_finite v design Hv0 Hv Hdes) as (m & e & ->).
      cbn [bind]. rewrite scaled_by_zero. split; [reflexivity|].
      left. rewrite Z.mul_0_r, Z.quot_0_l; [reflexivity | lia].
    + rewrite Z.abs_mul in Hvc.
      destruct (scale_nonzero v design cur Hv0 Hc0 Hvc Hdes) as (g & E & H).
      eexists. split; [exact E|].
      apply toward_zero_signed; [assumption | assumption | lia | exact H].
Qed.

(** What [toward_zero] leaves between the exact product and the computed
    value. *)
Lemma toward_zero_gap P d g :
  0 < d -> toward_zero P d g ->
  (0 <= P -> 0 <= P - g * d <= d /\ 0 <= g)
  /\ (P <= 0 -> - d <= P - g * d <= 0 /\ g <= 0).
Proof.
  intros Hd H. unfold toward_zero in H.
  pose proof (Z.quot_rem P d ltac:(lia)) as QR.
  split; intros HP.
  - pose proof (Z.rem_bound_pos P d HP Hd) as RB.
    pose proof (Z.quot_pos P d HP Hd) as QP.
    destruct H as [->|[R ->]]; [lia|].
    rewrite R in QR.
    destruct (Z.eq_dec P 0) as [->|N].
    + rewrite Z.quot_0_l by lia. simpl. lia.
    + replace (Z.sgn P) with 1 by lia.
      assert (0 < P ÷ d) by nia. lia.
  - pose proof (Z.rem_bound_pos_neg P d Hd HP) as RB.
    assert (P ÷ d <= 0) as QP.
    { replace P with (- - P) by lia. rewrite Z.quot_opp_l by lia.
      pose proof (Z.quot_pos (- P) d ltac:(lia) Hd). lia. }
    destruct H as [->|[R ->]]; [lia|].
    rewrite R in QR.
    destruct (Z.eq_dec P 0) as [->|N].
    + rewrite Z.quot_0_l by lia. simpl. lia.
    + replace (Z.sgn P) with (-1) by lia.
      assert (P ÷ d < 0) by nia. lia.
Qed.

(** A factor [k] on the viewport puts the computed value within [k] of [k]
    times the old one. *)
Lemma toward_zero_scaled P d k g gk :
  0 < d -> 1 <= k ->
  toward_zero P d g -> toward_zero (k * P) d gk ->
  Z.abs (gk - k * g) <= k.
Proof.
  intros Hd Hk H Hk'.
  destruct (toward_zero_gap P d g Hd H) as [Hp Hn].
  destruct (toward_zero_gap (k * P) d gk Hd Hk') as [Hkp Hkn].
  destruct (Z_le_gt_dec 0 P) as [HP|HP].
  - destruct (Hp HP) as [[A1 A2] _].
    destruct (Hkp ltac:(nia)) as [[B1 B2] _].
    assert (- d <= (gk - k * g) * d <= k * d) by nia.
    assert (- 1 <= gk - k * g <= k) by nia. lia.
  - destruct (Hn ltac:(lia)) as [[A1 A2] _].
    destruct (Hkn ltac:(nia)) as [[B1 B2] _].
    assert (- (k * d) <= (gk - k * g) * d <= d) by nia.
    assert (- k <= gk - k * g <= 1) by nia. lia.
Qed.

(** The value fits a C int when the exact quotient does. *)
Lemma toward_zero_int32 P d g :
  0 < d -> Z.abs P < 2 ^ 31 * d -> toward_zero P d g -> is_int32 g = true.
Proof.
  intros Hd HP H.
  destruct (toward_zero_gap P d g Hd H) as [Hp Hn].
  unfold is_int32. apply andb_true_intro.
  rewrite Z.leb_le, Z.ltb_lt.
  change (2 ^ 31) with 2147483648 in *.
  destruct (Z_le_gt_dec 0 P) as [H0|H0].
  - destruct (Hp H0) as [[A1 A2] A3]. split; [lia|]. nia.
  - destruct (Hn ltac:(lia)) as [[A1 A2] A3]. split; [|lia]. nia.
Qed.

(** The operands in range: C ints, a product of at most [2^50], and an
    exact quotient that fits a C int. *)
Definition fits (value design current : Z) : Prop :=
  int32 value /\ int32 design /\ int32 current
  /\ Z.abs (value * current) <= 2 ^ 50
  /\ Z.abs (value * current) < 2 ^ 31 * Z.max 1 design.

Lemma fits_scale value design current :
  fits value design current ->
  exists g,
    scale value design current = Ok g
    /\ toward_zero (value * current) (Z.max 1 design) g
    /\ is_int32 g = true.
Proof.
  intros (Hv & Hd & Hc & Hp & Hq). unfold int32 in *.
  change (2 ^ 31) with 2147483648 in Hv, Hd, Hc.
  destruct (scale_spec value design current) as (g & E & T);
    try (change (2 ^ 53) with 9007199254740992; lia).
  exists g. split; [exact E|]. split; [exact T|].
  apply (toward_zero_int32 (value * current) (Z.max 1 design));
    [lia | exact Hq | exact T].
Qed.

Lemma fits_smaller value design current k :
  1 <= k -> fits value design (k * current) -> fits value design current.
Proof.
  intros Hk (Hv & Hd & Hc & Hp & Hq). unfold fits, int32 in *.
  assert (Z.abs (value * current) <= Z.abs (value * (k * current))) as A.
  { replace (value * (k * current)) with (k * (value * current)) by ring.
    rewrite Z.abs_mul. nia. }
  repeat split; try lia; nia.
Qed.

(** The method in terms of [scale]. *)
Lemma apply_scale self gx gy gw gh :
  scale (x (_rect_design self)) (design_w self) (window_width self) = Ok gx ->
  scale (y (_rect_design self)) (design_h self) (window_height self) = Ok gy ->
  scale (width (_rect_design self)) (design_w self) (window_width self)
  = Ok gw ->
  scale (height (_rect_design self)) (design_h self) (window_height self)
  = Ok gh ->
  _apply_balloon_geometry self = QRect_new gx gy gw gh.
Proof.
  unfold scale, _apply_balloon_geometry. intros E1 E2 E3 E4.
  destruct (ratio (x (_rect_design self)) (design_w self)) as [rx|];
    [|discriminate].
  destruct (ratio (y (_rect_design self)) (design_h self)) as [ry|];
    [|discriminate].
  destruct (ratio (width (_rect_design self)) (design_w self)) as [rw|];
    [|discriminate].
  destruct (ratio (height (_rect_design self)) (design_h self)) as [rh|];
    [|discriminate].
  cbn [bind] in *. rewrite E1, E2, E3, E4. reflexivity.
Qed.

End GeometryFacts.

Import Geometry GeometryFacts.

(** A design of 100 by 2 with the rectangle (29, 1, 58, 1), shown in a
    viewport of 100 by 1 and in one ten times as large; and a window whose
    configured design size is 0 by -5. *)
Definition skewed_window : Window :=
  mk_window 100 2 (mk_rect 29 1 58 1) 100 1.

Definition skewed_window_x10 : Window :=
  mk_window 100 2 (mk_rect 29 1 58 1) 1000 10.

Definition unguarded_window : Window :=
  mk_window 0 (-5) (mk_rect 80 80 864 560) 3 2.

(** C8, as stated, fails.  The doubles round: for the design value 29, the
    design width 100 and the viewport width 100 the computed value is 28,
    where the exact [29 / 100 * 100] is 29 (and 57 for 58).  The error of
    the small value is multiplied by the factor: a viewport ten times as
    large gives 290 and 5, which are 10 and 5 away from ten times 28 and 0.
    And the divisor is [max(1, design_dimension)], not the design
    dimension: with a design size of 0 by -5 the values are those of a
    design of 1 by 1. *)
Lemma balloon_geometry_counterexample :
  _apply_balloon_geometry skewed_window = Ok (mk_rect 28 0 57 0)
  /\ Z.quot (29 * 100) 100 = 29 /\ Z.quot (58 * 100) 100 = 58
  /\ _apply_balloon_geometry skewed_window_x10 = Ok (mk_rect 290 5 580 5)
  /\ 290 - 10 * 28 = 10 /\ 5 - 10 * 0 = 5
  /\ _apply_balloon_geometry unguarded_window
     = Ok (mk_rect 240 160 2592 1120)
  /\ (80 * 3, 80 * 2, 864 * 3, 560 * 2) = (240, 160, 2592, 1120).
Proof. vm_compute. repeat split. Qed.

(** C8, amended.  The operands being C ints, with products of at most
    [2^50] and exact quotients that fit a C int, also for the viewport [k]
    times as large: the method raises nothing, and each of the four values
    of its rectangle is the exact quotient
    [design_value * current_dimension / max(1, design_dimension)] cut
    towards zero or, only when that quotient is an integer, the integer
    next to it towards zero.  So for the viewport scaled by an integer
    factor [k >= 1] each value is within [k] of [k] times the value before. *)
Theorem balloon_geometry_scales (self : Window) (k : Z) :
  let r := _rect_design self in
  let dw := design_w self in
  let dh := design_h self in
  let w := window_width self in
  let h := window_height self in
  let scaled_up := mk_window dw dh r (k * w) (k * h) in
  1 <= k ->
  fits (x r) dw (k * w) -> fits (y r) dh (k * h) ->
  fits (width r) dw (k * w) -> fits (height r) dh (k * h) ->
  exists g gk,
    _apply_balloon_geometry self = Ok g
    /\ _apply_balloon_geometry scaled_up = Ok gk
    /\ toward_zero (x r * w) (Z.max 1 dw) (x g)
    /\ toward_zero (y r * h) (Z.max 1 dh) (y g)
    /\ toward_zero (width r * w) (Z.max 1 dw) (width g)
    /\ toward_zero (height r * h) (Z.max 1 dh) (height g)
    /\ toward_zero (x r * (k * w)) (Z.max 1 dw) (x gk)
    /\ toward_zero (y r * (k * h)) (Z.max 1 dh) (y gk)
    /\ toward_zero (width r * (k * w)) (Z.max 1 dw) (width gk)
    /\ toward_zero (height r * (k * h)) (Z.max 1 dh) (height gk)
    /\ Z.abs (x gk - k * x g) <= k
    /\ Z.abs (y gk - k * y g) <= k
    /\ Z.abs (width gk - k * width g) <= k
    /\ Z.abs (height gk - k * height g) <= k.
Proof.
  intros r dw dh w h scaled_up Hk Fx Fy Fw Fh.
  destruct (fits_scale _ _ _ Fx) as (kx & Ekx & Tkx & Ikx).
  destruct (fits_scale _ _ _ Fy) as (ky & Eky & Tky & Iky).
  destruct (fits_scale _ _ _ Fw) as (kw & Ekw & Tkw & Ikw).
  destruct (fits_scale _ _ _ Fh) as (kh & Ekh & Tkh & Ikh).
  destruct (fits_scale _ _ _ (fits_smaller _ _ _ k Hk Fx))
    as (gx & Ex & Tx & Ix).
  destruct (fits_scale _ _ _ (fits_smaller _ _ _ k Hk Fy))
    as (gy & Ey & Ty & Iy).
  destruct (fits_scale _ _ _ (fits_smaller _ _ _ k Hk Fw))
    as (gw & Ew & Tw & Iw).
  destruct (fits_scale _ _ _ (fits_smaller _ _ _ k Hk Fh))
    as (gh & Eh & Th & Ih).
  exists (mk_rect gx gy gw gh), (mk_rect kx ky kw kh).
  split.
  { rewrite (apply_scale self gx gy gw gh Ex Ey Ew Eh).
    unfold QRect_new. rewrite Ix, Iy, Iw, Ih. reflexivity. }
  split.
  { rewrite (apply_scale scaled_up kx ky kw kh Ekx Eky Ekw Ekh).
    unfold QRect_new. rewrite Ikx, Iky, Ikw, Ikh. reflexivity. }
  cbn [x y width height].
  repeat (split; [assumption|]).
  assert (forall v d c g gk,
             toward_zero (v * c) (Z.max 1 d) g ->
             toward_zero (v * (k * c)) (Z.max 1 d) gk ->
             Z.abs (gk - k * g) <= k) as Hs.
  { intros v d c g gk Tg Tgk.
    apply (toward_zero_scaled (v * c) (Z.max 1 d)); [lia | exact Hk | exact Tg|].
    replace (k * (v * c)) with (v * (k * c)) by ring. exact Tgk. }
  split; [apply (Hs _ _ _ _ _ Tx Tkx)|].
  split; [apply (Hs _ _ _ _ _ Ty Tky)|].
  split; [apply (Hs _ _ _ _ _ Tw Tkw)|].
  apply (Hs _ _ _ _ _ Th Tkh).
Qed.

(** The window of the defaults, 1024 by 768 with the rectangle
    (80, 80, 864, 560), shown at 960 by 540. *)
Definition default_window : Window :=
  mk_window 1024 768 (mk_rect 80 80 864 560) 960 540.

Lemma balloon_geometry_scales_witness :
  1 <= 2
  /\ fits 80 1024 (2 * 960) /\ fits 80 768 (2 * 540)
  /\ fits 864 1024 (2 * 960) /\ fits 560 768 (2 * 540)
  /\ _apply_balloon_geometry default_window = Ok (mk_rect 75 56 810 393)
  /\ _apply_balloon_geometry
       (mk_window 1024 768 (mk_rect 80 80 864 560) (2 * 960) (2 * 540))
     = Ok (mk_rect 150 112 1620 787)
  /\ exists g gk,
    _apply_balloon_geometry default_window = Ok g
    /\ _apply_balloon_geometry
         (mk_window 1024 768 (mk_rect 80 80 864 560) (2 * 960) (2 * 540))
       = Ok gk
    /\ toward_zero (80 * 960) (Z.max 1 1024) (x g)
    /\ toward_zero (80 * 540) (Z.max 1 768) (y g)
    /\ toward_zero (864 * 960) (Z.max 1 1024) (width g)
    /\ toward_zero (560 * 540) (Z.max 1 768) (height g)
    /\ toward_zero (80 * (2 * 960)) (Z.max 1 1024) (x gk)
    /\ toward_zero (80 * (2 * 540)) (Z.max 1 768) (y gk)
    /\ toward_zero (864 * (2 * 960)) (Z.max 1 1024) (width gk)
    /\ toward_zero (560 * (2 * 540)) (Z.max 1 768) (height gk)
    /\ Z.abs (x gk - 2 * x g) <= 2
    /\ Z.abs (y gk - 2 * y g) <= 2
    /\ Z.abs (width gk - 2 * width g) <= 2
    /\ Z.abs (height gk - 2 * height g) <= 2.
Proof.
  assert (1 <= 2) as Hk by lia.
  assert (forall v d c,
             (Z.abs v <? 2 ^ 31) && (Z.abs d <? 2 ^ 31) && (Z.abs c <? 2 ^ 31)
             && (Z.abs (v * c) <=? 2 ^ 50)
             && (Z.abs (v * c) <? 2 ^ 31 * Z.max 1 d) = true ->
             fits v d c) as F.
  { intros v d c H.
    repeat (apply andb_prop in H; destruct H as [H ?]).
    rewrite ?Z.ltb_lt, ?Z.leb_le in *.
    unfold fits, int32. repeat split; lia. }
  assert (fits 80 1024 (2 * 960)) as Fx by (apply F; reflexivity).
  assert (fits 80 768 (2 * 540)) as Fy by (apply F; reflexivity).
  assert (fits 864 1024 (2 * 960)) as Fw by (apply F; reflexivity).
  assert (fits 560 768 (2 * 540)) as Fh by (apply F; reflexivity).
  split; [exact Hk|]. split; [exact Fx|]. split; [exact Fy|].
  split; [exact Fw|]. split; [exact Fh|].
  split; [vm_compute; reflexivity|]. split; [vm_compute; reflexivity|].
  exact (balloon_geometry_scales default_window 2 Hk Fx Fy Fw Fh).
Defined.

(** * Further properties of the chunker *)

Module ChunkerMore.
Import Str StrFacts SplitFacts Chunker ChunkerFacts CanonFacts SentenceFacts
  PrefixFacts.

(** The chunker sees a text through its words only. *)
Lemma chunks_via_words text m :
  split_into_sentence_chunks text m
  = chunk_sentences m (re_split_sentences (join_sp (split text))).
Proof.
  destruct text as [|c text]; [reflexivity|].
  unfold split_into_sentence_chunks. rewrite normalize_join. reflexivity.
Qed.

(** With a budget of zero the first sentence that has a word raises. *)
Lemma loop_zero ss : forall st,
  words_of ss <> [] -> loop 0 st ss = Raise RangeStepZero.
Proof.
  induction ss as [|s ss IH]; intros st H; [contradiction|].
  simpl. destruct (split s) as [|w0 ws] eqn:E.
  - rewrite step_skip by assumption. simpl. apply IH.
    unfold words_of in *. simpl in H. rewrite E in H. exact H.
  - unfold step. rewrite E.
    destruct (len (w0 :: ws) >? 0) eqn:G; [reflexivity|].
    zbool. unfold len in G. simpl in G. lia.
Qed.

(** With a negative budget every sentence is cut into no fragment. *)
Lemma hard_split_negative w m : m < 0 -> hard_split w m = Ok [].
Proof.
  intros Hm. unfold hard_split, Py.range.
  destruct (m =? 0) eqn:E0; [zbool; lia|].
  destruct (0 <? m) eqn:E1; [zbool; lia|].
  replace (Z.to_nat ((0 - len w - m - 1) / - m)) with 0%nat; [reflexivity|].
  assert ((0 - len w - m - 1) / - m <= 0); [|lia].
  destruct (Z_lt_le_dec (0 - len w - m - 1) 0) as [Hneg|Hpos].
  - apply Z.lt_le_incl, Z.div_lt_upper_bound; lia.
  - rewrite Z.div_small; [lia|]. unfold len in *. lia.
Qed.

Lemma loop_negative m ss : m < 0 -> loop m init ss = Ok init.
Proof.
  intros Hm. induction ss as [|s ss IH]; [reflexivity|].
  simpl. unfold step. destruct (split s) as [|w0 ws] eqn:E; [exact IH|].
  destruct (len (w0 :: ws) >? m) eqn:G.
  - rewrite hard_split_negative by assumption. simpl. exact IH.
  - zbool. unfold len in G. simpl in G. lia.
Qed.

Lemma chunk_count m cs :
  Forall (chunk_ok m) cs ->
  len cs <= len (words_of cs) <= m * len cs.
Proof.
  induction 1 as [|c cs [H1 H2] _ IH].
  - unfold len. simpl. lia.
  - unfold words_of in *. simpl. rewrite len_app.
    unfold len in *. simpl length. lia.
Qed.

End ChunkerMore.

(** X1.  Two texts with the same words in the same order have the same
    chunks, or raise alike, for every budget: the layout of the whitespace
    between the words plays no part. *)
Theorem chunks_depend_on_words (text text' : str) (max_words : Z) :
  split text = split text' ->
  split_into_sentence_chunks text max_words
  = split_into_sentence_chunks text' max_words.
Proof.
  intros E. rewrite !ChunkerMore.chunks_via_words, E. reflexivity.
Qed.

Lemma chunks_depend_on_words_witness :
  split (lit "  One.   Two  three! ") = split (lit "One. Two three!")
  /\ split_into_sentence_chunks (lit "  One.   Two  three! ") 2
     = split_into_sentence_chunks (lit "One. Two three!") 2.
Proof.
  assert (split (lit "  One.   Two  three! ") = split (lit "One. Two three!"))
    as H by reflexivity.
  split; [exact H|]. exact (chunks_depend_on_words _ _ 2 H).
Defined.

(** X2.  Chunking again what the chunks join to gives the same chunks: for a
    budget of at least one, the chunks of [" ".join(chunks)] are the chunks. *)
Theorem rechunk_joined_chunks (text : str) (max_words : Z) (cs : list str) :
  1 <= max_words ->
  split_into_sentence_chunks text max_words = Ok cs ->
  split_into_sentence_chunks (join_sp cs) max_words = Ok cs.
Proof.
  intros Hm E. rewrite <- E. rewrite !ChunkerMore.chunks_via_words.
  rewrite (chunks_join text max_words cs Hm E), split_normalize.
  reflexivity.
Qed.

Lemma rechunk_joined_chunks_witness :
  1 <= 3
  /\ split_into_sentence_chunks sample_text 3
     = Ok [lit "Hello world."; lit "This is a"; lit "test sentence that";
           lit "is quite long"; lit "indeed."]
  /\ split_into_sentence_chunks
       (join_sp [lit "Hello world."; lit "This is a"; lit "test sentence that";
                 lit "is quite long"; lit "indeed."]) 3
     = Ok [lit "Hello world."; lit "This is a"; lit "test sentence that";
           lit "is quite long"; lit "indeed."].
Proof.
  assert (1 <= 3) as Hm by lia.
  assert (split_into_sentence_chunks sample_text 3
          = Ok [lit "Hello world."; lit "This is a"; lit "test sentence that";
                lit "is quite long"; lit "indeed."]) as E by reflexivity.
  split; [exact Hm|]. split; [exact E|].
  exact (rechunk_joined_chunks sample_text 3 _ Hm E).
Defined.

(** X3.  A budget below one is not refused: with [max_words = 0] every text
    that has a word raises (the step of [range] is zero) while a text
    without a word gives no chunk; with a negative [max_words] every text
    gives no chunk at all, its words dropped. *)
Theorem nonpositive_budget (text : str) (max_words : Z) :
  (max_words < 0 -> split_into_sentence_chunks text max_words = Ok [])
  /\ (split text <> [] ->
      split_into_sentence_chunks text 0 = Raise RangeStepZero)
  /\ (split text = [] -> split_into_sentence_chunks text 0 = Ok []).
Proof.
  split; [|split].
  - intros Hm. rewrite ChunkerMore.chunks_via_words.
    unfold chunk_sentences. rewrite ChunkerMore.loop_negative by assumption.
    reflexivity.
  - intros Hw. rewrite ChunkerMore.chunks_via_words.
    unfold chunk_sentences. rewrite ChunkerMore.loop_zero; [reflexivity|].
    unfold words_of. rewrite re_split_sentences_words.
    rewrite split_join_words by apply split_words. exact Hw.
  - intros Hw. rewrite ChunkerMore.chunks_via_words, Hw. reflexivity.
Qed.

Lemma nonpositive_budget_witness :
  -2 < 0
  /\ split (lit "One. Two three!") <> []
  /\ split_into_sentence_chunks (lit "One. Two three!") (-2) = Ok []
  /\ split_into_sentence_chunks (lit "One. Two three!") 0
     = Raise RangeStepZero.
Proof.
  assert (-2 < 0) as Hm by lia.
  assert (split (lit "One. Two three!") <> []) as Hw by discriminate.
  split; [exact Hm|]. split; [exact Hw|]. split.
  - exact (proj1 (nonpositive_budget (lit "One. Two three!") (-2)) Hm).
  - exact (proj1 (proj2 (nonpositive_budget (lit "One. Two three!") 0)) Hw).
Defined.

(** X4.  For a budget of at least one, the number of chunks lies between the
    number of words divided by the budget and the number of words: a text
    of [W] words gives [n] chunks with [n <= W <= max_words * n]. *)
Theorem chunk_count_bounds (text : str) (max_words : Z) :
  1 <= max_words ->
  exists cs,
    split_into_sentence_chunks text max_words = Ok cs
    /\ len cs <= len (split text) <= max_words * len cs.
Proof.
  intros Hm. destruct (chunks_ok text max_words Hm) as (cs & E & W & B).
  exists cs. split; [exact E|]. rewrite <- W.
  apply ChunkerMore.chunk_count, B.
Qed.

Lemma chunk_count_bounds_witness :
  1 <= 3 /\
  exists cs,
    split_into_sentence_chunks sample_text 3 = Ok cs
    /\ len cs <= len (split sample_text) <= 3 * len cs.
Proof.
  split; [lia|]. apply (chunk_count_bounds sample_text 3). lia.
Defined.

(** ** Sentences stay whole *)

Module GroupFacts.
Import Str StrFacts SplitFacts Chunker ChunkerFacts CanonFacts SentenceFacts.

(** A sentence the loop does not skip. *)
Definition wordy (s : str) : bool :=
  match split s with
  | [] => false
  | _ => true
  end.

(** No group could have taken the first sentence of the next one. *)
Fixpoint tight (m : Z) (gs : list (list str)) : Prop :=
  match gs with
  | [] => True
  | g :: rest =>
      match rest with
      | (s :: _) :: _ => len (words_of g) + len (split s) > m
      | _ => True
      end
      /\ tight m rest
  end.

Lemma tight_snoc m gs g s :
  tight m (gs ++ [g]) -> len (words_of g) + len (split s) > m ->
  tight m (gs ++ [g] ++ [[s]]).
Proof.
  induction gs as [|a gs IH]; intros T L.
  - simpl. auto.
  - destruct T as [T1 T2]. split; [|apply IH; assumption].
    destruct gs as [|b gs]; exact T1.
Qed.

Lemma tight_grow m gs c s :
  c <> [] -> tight m (gs ++ [c]) -> tight m (gs ++ [c ++ [s]]).
Proof.
  intros Hc. induction gs as [|a gs IH]; intros T.
  - simpl. auto.
  - destruct T as [T1 T2]. split; [|apply IH; assumption].
    destruct gs as [|b gs]; [|exact T1].
    destruct c as [|s0 c]; [contradiction | exact T1].
Qed.

(** The groups behind the chunks, the one waiting in [cur] last. *)
Definition all_groups (gs : list (list str)) (cur : list str)
  : list (list str) :=
  match cur with
  | [] => gs
  | _ => gs ++ [cur]
  end.

Definition flushed (g : list str) : str := strip (join_sp g).

Record grouped (m : Z) (st : state) (gs : list (list str))
  (seen : list str) : Prop := mk_grouped {
  g_chunks : chunks st = map flushed gs;
  g_concat : concat gs ++ cur st = filter wordy seen;
  g_nonempty : Forall (fun g => g <> []) gs;
  g_tight : tight m (all_groups gs (cur st));
  g_start : cur st = [] -> gs = []
}.

Lemma filter_snoc {A : Type} (f : A -> bool) l x :
  filter f (l ++ [x]) = filter f l ++ (if f x then [x] else []).
Proof. rewrite filter_app. reflexivity. Qed.

Lemma step_grouped m st s gs seen :
  1 <= m -> inv m st -> grouped m st gs seen -> len (split s) <= m ->
  exists st' gs',
    step m st s = Ok st' /\ inv m st' /\ grouped m st' gs' (seen ++ [s]).
Proof.
  intros Hm I G Hs.
  destruct (step_inv m st s Hm I) as (st1 & E1 & I1 & _).
  exists st1. rewrite E1.
  destruct (split s) as [|w0 ws] eqn:E.
  - rewrite step_skip in E1 by assumption. injection E1 as <-.
    exists gs. split; [reflexivity|]. split; [assumption|].
    destruct G. split; auto.
    rewrite filter_snoc. unfold wordy. rewrite E, app_nil_r. assumption.
  - assert (split s <> []) as Hne by (rewrite E; discriminate).
    assert (wordy s = true) as Hw by (unfold wordy; rewrite E; reflexivity).
    rewrite <- E in *.
    destruct (Z_le_gt_dec (cur_words st + len (split s)) m) as [Hf|Hf].
    + rewrite step_fit in E1 by assumption. injection E1 as <-.
      exists gs. split; [reflexivity|]. split; [assumption|].
      destruct G as [G1 G2 G3 G4 G5]. split; cbn [chunks cur].
      * exact G1.
      * rewrite filter_snoc, Hw, app_assoc, G2. reflexivity.
      * exact G3.
      * destruct (cur st) as [|s0 c] eqn:Ec.
        -- rewrite (G5 eq_refl). simpl. auto.
        -- unfold all_groups in *. simpl app.
           change (s0 :: c ++ [s]) with ((s0 :: c) ++ [s]).
           apply tight_grow; [discriminate | exact G4].
      * intros H. apply app_eq_nil in H as [_ H]. discriminate.
    + rewrite step_start in E1 by assumption. injection E1 as <-.
      assert (cur st <> []) as Hc.
      { intros Ec. pose proof (inv_count _ _ I) as C. rewrite Ec in C.
        unfold words_of, len in C. simpl in C. lia. }
      exists (gs ++ [cur st]). split; [reflexivity|]. split; [assumption|].
      destruct G as [G1 G2 G3 G4 G5]. split; cbn [chunks cur].
      * unfold flush. destruct (cur st) eqn:Ec; [contradiction|].
        cbn [chunks]. rewrite map_app, G1. reflexivity.
      * rewrite filter_snoc, Hw, concat_app. simpl concat.
        rewrite app_nil_r, G2. reflexivity.
      * apply Forall_app. split; [exact G3|]. constructor; [exact Hc | constructor].
      * unfold all_groups in *. rewrite <- app_assoc.
        apply tight_snoc.
        -- destruct (cur st); [contradiction | exact G4].
        -- rewrite <- (inv_count _ _ I). exact Hf.
      * discriminate.
Qed.

Lemma loop_grouped m ss : forall st gs seen,
  1 <= m -> inv m st -> grouped m st gs seen ->
  Forall (fun s => len (split s) <= m) ss ->
  exists st' gs',
    loop m st ss = Ok st' /\ inv m st' /\ grouped m st' gs' (seen ++ ss).
Proof.
  induction ss as [|s ss IH]; intros st gs seen Hm I G Hss.
  - exists st, gs. rewrite app_nil_r. auto.
  - inversion Hss as [|? ? Hs Hrest]; subst.
    destruct (step_grouped m st s gs seen Hm I G Hs) as (st1 & gs1 & E1 & I1 & G1).
    destruct (IH st1 gs1 (seen ++ [s]) Hm I1 G1 Hrest)
      as (st2 & gs2 & E2 & I2 & G2).
    exists st2, gs2. simpl. rewrite E1. simpl. rewrite E2.
    rewrite <- app_assoc in G2. auto.
Qed.

Lemma chunk_sentences_grouped m ss :
  1 <= m -> Forall (fun s => len (split s) <= m) ss ->
  exists groups,
    chunk_sentences m ss = Ok (map flushed groups)
    /\ concat groups = filter wordy ss
    /\ Forall (fun g => g <> [] /\ len (words_of g) <= m) groups
    /\ tight m groups.
Proof.
  intros Hm Hss.
  assert (grouped m init [] []) as G0 by (split; simpl; auto).
  destruct (loop_grouped m ss init [] [] Hm (init_inv m ltac:(lia)) G0 Hss)
    as (st & gs & E & I & [G1 G2 G3 G4 G5]).
  simpl in G2.
  exists (all_groups gs (cur st)). unfold chunk_sentences. rewrite E. simpl.
  assert (chunks (flush st) = map flushed (all_groups gs (cur st))) as C.
  { unfold flush, all_groups. destruct (cur st); [exact G1|].
    cbn [chunks]. rewrite map_app, G1. reflexivity. }
  split; [rewrite C; reflexivity|].
  split.
  { rewrite <- G2. unfold all_groups. destruct (cur st).
    - rewrite app_nil_r. reflexivity.
    - rewrite concat_app. simpl. rewrite app_nil_r. reflexivity. }
  split; [|exact G4].
  pose proof (flush_chunks_ok m st I) as B. rewrite C in B.
  assert (Forall (fun g => g <> []) (all_groups gs (cur st))) as N.
  { unfold all_groups. destruct (cur st) eqn:Ec; [exact G3|].
    apply Forall_app. split; [exact G3|].
    constructor; [discriminate | constructor]. }
  generalize dependent (all_groups gs (cur st)). intros l _ _ B N.
  induction N as [|g l Hg _ IH]; [constructor|].
  inversion B as [|? ? Bg Bgs]; subst.
  constructor; [|apply IH, Bgs].
  split; [exact Hg|]. destruct Bg as [_ Bg]. unfold flushed in Bg.
  rewrite split_flushed in Bg. exact Bg.
Qed.

(** A group of canonical sentences, each with a word, is flushed as its join. *)
Lemma flushed_join g :
  Forall canonical g -> Forall (fun s => split s <> []) g ->
  flushed g = join_sp g.
Proof.
  intros Hc Hw. unfold flushed.
  rewrite join_sp_canonical by assumption.
  apply strip_join_words.
  unfold words_of. apply Forall_concat, Forall_map, Forall_forall.
  intros s _. apply split_words.
Qed.

End GroupFacts.

(** The groups of sentences behind the chunks of a text. *)
Lemma text_grouped (text : str) (max_words : Z) :
  1 <= max_words ->
  Forall (fun s => len (split s) <= max_words)
         (re_split_sentences (normalize text)) ->
  exists groups,
    split_into_sentence_chunks text max_words = Ok (map join_sp groups)
    /\ concat groups
       = filter GroupFacts.wordy (re_split_sentences (normalize text))
    /\ Forall (fun g => g <> [] /\ len (words_of g) <= max_words) groups
    /\ GroupFacts.tight max_words groups.
Proof.
  intros Hm Hss.
  destruct (GroupFacts.chunk_sentences_grouped max_words _ Hm Hss)
    as (groups & E & C & B & T).
  exists groups.
  assert (map GroupFacts.flushed groups = map join_sp groups) as F.
  { apply map_ext_in. intros g Hg.
    assert (forall s, In s g ->
              canonical s /\ split s <> []) as Hs.
    { intros s Hin.
      assert (In s (filter GroupFacts.wordy
                      (re_split_sentences (normalize text)))) as Hf
        by (rewrite <- C; apply in_concat; exists g; auto).
      apply filter_In in Hf as [Hf1 Hf2]. split.
      - eapply Forall_forall; [apply sentences_canonical | exact Hf1].
      - unfold GroupFacts.wordy in Hf2.
        destruct (split s); [discriminate | discriminate]. }
    apply GroupFacts.flushed_join; apply Forall_forall; intros s Hin;
      apply Hs, Hin. }
  split; [|auto].
  rewrite <- F, <- E. destruct text as [|c text]; [|reflexivity].
  symmetry. apply (ChunkerMore.chunks_via_words [] max_words).
Qed.

(** X5.  When no sentence of the text has more than [max_words] words (and
    [max_words >= 1]), no sentence is cut: the chunks are the joins of
    groups of consecutive whole sentences, in order, each group within the
    budget; and the grouping is greedy, every group being too full to take
    the first sentence of the group after it. *)
Theorem sentences_kept_whole (text : str) (max_words : Z) :
  1 <= max_words ->
  Forall (fun s => len (split s) <= max_words)
         (re_split_sentences (normalize text)) ->
  exists groups,
    split_into_sentence_chunks text max_words = Ok (map join_sp groups)
    /\ concat groups
       = filter GroupFacts.wordy (re_split_sentences (normalize text))
    /\ Forall (fun g => g <> [] /\ len (words_of g) <= max_words) groups
    /\ GroupFacts.tight max_words groups.
Proof. apply text_grouped. Qed.

Lemma sentences_kept_whole_witness :
  1 <= 4
  /\ Forall (fun s => len (split s) <= 4)
            (re_split_sentences (normalize (lit "One two. Three! Four five six? Seven.")))
  /\ exists groups,
       split_into_sentence_chunks
         (lit "One two. Three! Four five six? Seven.") 4
       = Ok (map join_sp groups)
       /\ concat groups
          = filter GroupFacts.wordy
              (re_split_sentences
                 (normalize (lit "One two. Three! Four five six? Seven.")))
       /\ Forall (fun g => g <> [] /\ len (words_of g) <= 4) groups
       /\ GroupFacts.tight 4 groups.
Proof.
  assert (1 <= 4) as Hm by lia.
  assert (Forall (fun s => len (split s) <= 4)
            (re_split_sentences
               (normalize (lit "One two. Three! Four five six? Seven."))))
    as H.
  { apply Forall_forall. intros s Hs. apply Z.leb_le.
    revert s Hs. apply forallb_forall. vm_compute. reflexivity. }
  split; [exact Hm|]. split; [exact H|].
  exact (sentences_kept_whole _ 4 Hm H).
Defined.

(** * The prompt *)

Module PromptFacts.
Import Str App.

Lemma lstrip_app x y : lstrip x <> [] -> lstrip (x ++ y) = lstrip x ++ y.
Proof.
  induction x as [|c x IH]; intros H; [contradiction|].
  simpl in *. destruct (Chr.isspace c); [apply IH, H | reflexivity].
Qed.

Lemma rstrip_app a b : rstrip b <> [] -> rstrip (a ++ b) = a ++ rstrip b.
Proof.
  unfold rstrip. intros H. rewrite rev_app_distr, lstrip_app.
  - rewrite rev_app_distr, rev_involutive. reflexivity.
  - intros E. apply H. rewrite E. reflexivity.
Qed.

Lemma rstrip_app_nonempty a b : rstrip b <> [] -> rstrip (a ++ b) <> [].
Proof.
  intros H. rewrite rstrip_app by assumption.
  intros E. apply app_eq_nil in E as [_ E]. contradiction.
Qed.

Definition voice_line : str := lit "You adopt the following voice:".
Definition end_marker : str := lit "</END>".

Lemma rstrip_end : rstrip (end_marker ++ nl) = end_marker.
Proof. reflexivity. Qed.

(** A string between a head and a tail that [strip] leaves alone. *)
Lemma strip_between a x e :
  lstrip a = a -> a <> [] -> rstrip e = e -> e <> [] ->
  strip (a ++ x ++ e) = a ++ x ++ e.
Proof.
  intros Ha Hna He Hne. unfold strip.
  rewrite lstrip_app by (rewrite Ha; exact Hna). rewrite Ha.
  rewrite rstrip_app
    by (apply rstrip_app_nonempty; rewrite He; exact Hne).
  rewrite rstrip_app by (rewrite He; exact Hne).
  rewrite He. reflexivity.
Qed.

(** What lies between the first line and the topic line. *)
Definition middle (persona : Persona) : str :=
  nl ++ strip (get (prompt_persona persona) []) ++ nl
  ++ nl
  ++ lit "Style rules:" ++ nl
  ++ join nl (map (fun r => lit "- " ++ r) (get (style_rules persona) []))
  ++ nl
  ++ nl
  ++ lit "Examples of the voice:" ++ nl
  ++ join nl (map (fun e => bullet :: Chr.space :: e)
                  (get (examples persona) []))
  ++ nl
  ++ nl
  ++ lit "Now, reflect in 2" ++ [en_dash]
  ++ lit "4 paragraphs about the topic below in that voice. Do not include headings. Avoid bullet lists. Conclude with a crisp image or turn of phrase."
  ++ nl
  ++ nl.

Lemma build_prompt_eq persona topic :
  build_prompt persona topic
  = voice_line ++ middle persona ++ lit "Topic: " ++ topic
    ++ nl ++ nl ++ end_marker.
Proof.
  assert (rstrip (end_marker ++ nl) <> []) as Hend
    by (rewrite rstrip_end; discriminate).
  unfold build_prompt.
  set (T := lit "You adopt the following voice:" ++ _).
  assert (strip (nl ++ T) = rstrip T) as E1.
  { unfold strip, nl. cbn [app lstrip].
    change (Chr.isspace Chr.newline) with true. cbv iota.
    unfold T. rewrite lstrip_app by discriminate. reflexivity. }
  rewrite E1. unfold T.
  repeat (rewrite rstrip_app;
          [|solve [repeat first [exact Hend | apply rstrip_app_nonempty]]]).
  change (rstrip (lit "</END>" ++ nl)) with end_marker.
  unfold voice_line, middle. repeat rewrite <- app_assoc. reflexivity.
Qed.

End PromptFacts.

(** X6.  Whatever the persona (keys missing, lists empty) and the topic, the
    prompt has no whitespace around it, begins with the line
    [You adopt the following voice:] and ends with the line [Topic: ] and
    the topic as given, an empty line, and the end marker [</END>]. *)
Theorem build_prompt_shape (persona : App.Persona) (topic : str) :
  exists body,
    App.build_prompt persona topic
    = PromptFacts.voice_line ++ body ++ lit "Topic: " ++ topic
      ++ App.nl ++ App.nl ++ PromptFacts.end_marker
    /\ strip (App.build_prompt persona topic) = App.build_prompt persona topic.
Proof.
  exists (PromptFacts.middle persona).
  split; [apply PromptFacts.build_prompt_eq|].
  rewrite PromptFacts.build_prompt_eq.
  replace (PromptFacts.middle persona ++ lit "Topic: " ++ topic
           ++ App.nl ++ App.nl ++ PromptFacts.end_marker)
    with ((PromptFacts.middle persona ++ lit "Topic: " ++ topic
           ++ App.nl ++ App.nl) ++ PromptFacts.end_marker)
    by (repeat rewrite <- app_assoc; reflexivity).
  apply PromptFacts.strip_between;
    first [reflexivity | discriminate].
Qed.

(** * Runs of the pipeline with answers of every kind *)

Module PipelineMore.
Import App PipelineFacts.

(** Every generation call is answered by a text or by an error, and every
    playback by its finished signal. *)
Definition well_answered (answer : responder) : Prop :=
  forall k req,
    match req with
    | gen_topic | worker_generate _ _ =>
        (exists t, answer k req = worker_generated t)
        \/ (exists m, answer k req = worker_error m)
    | play_chunks _ => answer k req = chunkPlaybackFinished
    | _ => True
    end.

Lemma update_nth {A : Type} (f : A -> A) l : forall j x,
  nth_error l j = Some x -> nth_error (update l j f) j = Some (f x).
Proof.
  induction l as [|y l IH]; intros [|j] x E; simpl in *; try discriminate.
  - injection E as ->. reflexivity.
  - apply IH, E.
Qed.

Lemma update_map {A B : Type} (g : A -> B) (f : A -> A) l :
  (forall x, g (f x) = g x) -> forall j, map g (update l j f) = map g l.
Proof.
  intros H. induction l as [|y l IH]; intros [|j]; simpl; try reflexivity.
  - rewrite H. reflexivity.
  - rewrite IH. reflexivity.
Qed.

Lemma update_at_nat {A : Type} (l : list A) (j : nat) f :
  update_at l (Z.of_nat j) f = update l j f.
Proof.
  unfold update_at.
  destruct (Z.of_nat j <? 0) eqn:E; [zbool; lia|].
  rewrite Nat2Z.id. reflexivity.
Qed.

Lemma topic_requests_none self acts :
  Forall (fun a => is_gen_topic a = false) acts ->
  topic_requests (stamp self acts) = [].
Proof.
  induction 1 as [|a acts Ha _ IH]; [reflexivity|].
  unfold topic_requests in *. simpl. rewrite Ha. exact IH.
Qed.

Lemma nth_error_persona ps P j p :
  map persona ps = P -> nth_error P j = Some p ->
  exists st, nth_error ps j = Some st /\ persona st = p.
Proof.
  intros <- E. rewrite nth_error_map in E.
  destruct (nth_error ps j) as [st|]; [|discriminate].
  injection E as <-. eauto.
Qed.

Section Answers.

Variable path_exists : str -> bool.
Variable answer : responder.
Hypothesis answered : well_answered answer.

(** The personas of the run, in the order they were prepared. *)
Variable P : list Persona.

(** How a run ends that stands at [tr] with the personas from [j] on still
    to visit. *)
Definition ends (r : option (result (AppController * trace))) (tr : trace)
  (j d : nat) : Prop :=
  exists final tr',
    r = Some (Ok (final, tr'))
    /\ map persona (persona_states final) = P
    /\ _idx final = len P
    /\ topic_requests tr' = topic_requests tr ++ map Z.of_nat (seq j d)
    /\ exists tr0, tr' = tr0 ++ [(len P, show_status goodbye)].

Definition visit_from (d : nat) : Prop :=
  forall j ps pfx k tr fuel p,
    map persona ps = P -> (j + S d = length P)%nat -> (3 * S d <= fuel)%nat ->
    nth_error P j = Some p ->
    Forall (fun a => is_request a = false) pfx ->
    ends (run path_exists answer fuel k (mk_ctrl ps (Z.of_nat j) (Some Topic))
              (pfx ++ enter path_exists p) tr)
         tr j (S d).

(** Moving on from persona [j], after a status line. *)
Lemma advance d :
  match d with O => True | S d' => visit_from d' end ->
  forall j ps aw msg k tr fuel,
    map persona ps = P -> (j + S d = length P)%nat -> (3 * d <= fuel)%nat ->
    ends (match (r <- _next_persona path_exists (mk_ctrl ps (Z.of_nat j) aw) ;;
                 Ok (fst r, show_status msg :: snd r)) with
          | Ok (self', acts') => run path_exists answer fuel k self' acts' tr
          | Raise e => Some (Raise e)
          end)
         tr (S j) d.
Proof.
  intros IH j ps aw msg k tr fuel Hps Hn Hf.
  assert (length ps = length P) as Hlen by (rewrite <- Hps, length_map; reflexivity).
  destruct d as [|d].
  - rewrite next_done by (unfold len; lia). cbn [bind fst snd].
    change [show_status msg; show_status goodbye]
      with ([show_status msg] ++ [show_status goodbye]).
    rewrite run_final.
    assert (Z.of_nat j + 1 = len P) as Hl by (unfold len; lia).
    eexists. eexists. split; [reflexivity|]. cbn [persona_states _idx].
    split; [exact Hps|]. split; [exact Hl|].
    split.
    { rewrite topic_requests_app, topic_requests_plain by (repeat constructor).
      reflexivity. }
    eexists. unfold stamp. rewrite map_app, app_assoc.
    cbn [map _idx]. rewrite Hl. reflexivity.
  - destruct (nth_error P (S j)) as [p'|] eqn:Ep;
      [|apply nth_error_None in Ep; lia].
    destruct (nth_error_persona ps P (S j) p' Hps Ep) as (st' & Est & Hp').
    rewrite (next_enter path_exists ps (Z.of_nat j) aw (S j) st')
      by (assumption || lia).
    cbn [bind fst snd]. rewrite Hp'.
    change (show_status msg :: enter path_exists p')
      with ([show_status msg] ++ enter path_exists p').
    apply IH; try assumption; try lia. repeat constructor.
Qed.

Lemma ends_after r tr tr1 j d :
  topic_requests tr1 = topic_requests tr ++ [Z.of_nat j] ->
  ends r tr1 (S j) d -> ends r tr j (S d).
Proof.
  intros E (final & tr' & Er & H1 & H2 & H3 & H4).
  exists final, tr'. repeat (split; [assumption|]).
  split; [|exact H4]. rewrite H3, E, <- app_assoc. reflexivity.
Qed.

Lemma visit_step d :
  match d with O => True | S d' => visit_from d' end -> visit_from d.
Proof.
  intros IH j ps pfx k tr fuel p Hps Hn Hf Hp Hpfx.
  pose proof (advance d IH) as Adv.
  destruct (nth_error_persona ps P j p Hps Hp) as (st & Est & Hst).
  destruct fuel as [|f1]; [lia|].
  cbn [run]. rewrite request_of_enter.
  set (s0 := mk_ctrl ps (Z.of_nat j) (Some Topic)).
  set (tr1 := tr ++ stamp s0 (pfx ++ enter path_exists p)).
  assert (topic_requests tr1 = topic_requests tr ++ [Z.of_nat j]) as Htr1.
  { unfold tr1. rewrite topic_requests_app, enter_requests by assumption.
    reflexivity. }
  destruct (answered k gen_topic) as [[t Ht]|[m Hm]].
  - (* a topic *)
    rewrite Ht. cbn [dispatch]. unfold _on_worker_generated.
    cbn [_awaiting s0 persona_states _idx].
    rewrite (index_nth ps j st Est). cbn [bind].
    rewrite update_at_nat.
    set (topic := match t with [] => lit "amusement parks" | _ :: _ => t end).
    set (ps1 := update ps j _).
    assert (map persona ps1 = P) as Hps1
      by (unfold ps1; rewrite update_map; [exact Hps | reflexivity]).
    assert (nth_error ps1 j
            = Some (mk_pstate (persona st) topic (text st))) as Est1
      by (unfold ps1;
          exact (update_nth
                   (fun s => mk_pstate (persona s) topic (text s))
                   ps j st Est)).
    destruct f1 as [|f2]; [lia|].
    cbn [run]. change (request_of [show_status _; worker_generate ?p 700])
      with (Some (worker_generate p 700)).
    cbv iota.
    set (s1 := mk_ctrl ps1 (Z.of_nat j) (Some Text)).
    set (acts1 := [show_status _; worker_generate _ 700]).
    set (tr2 := tr1 ++ stamp s1 acts1).
    assert (topic_requests tr2 = topic_requests tr ++ [Z.of_nat j]) as Htr2.
    { unfold tr2. rewrite topic_requests_app, Htr1.
      rewrite topic_requests_none by (repeat constructor).
      apply app_nil_r. }
    destruct (answered (S k) (worker_generate
                               (build_prompt (persona st) topic) 700))
      as [[x Hx]|[m Hm]].
    + (* a monologue *)
      rewrite Hx. cbn [dispatch]. unfold _on_worker_generated.
      cbn [_awaiting s1 persona_states _idx].
      rewrite (index_nth ps1 j _ Est1). cbn [bind persona].
      rewrite update_at_nat.
      destruct (ChunkerFacts.chunks_ok x
                  (Z.max 40 (get (max_words_per_chunk (persona st)) 120))
                  ltac:(lia)) as (cs & Ecs & _).
      rewrite Ecs. cbn [bind].
      set (ps2 := update ps1 j _).
      assert (map persona ps2 = P) as Hps2
        by (unfold ps2; rewrite update_map; [exact Hps1 | reflexivity]).
      set (bg := if path_exists _ then _ else _).
      assert (Forall (fun a => is_gen_topic a = false) bg) as Hbg
        by (unfold bg; destruct (path_exists _); repeat constructor).
      destruct f2 as [|f3]; [lia|].
      cbn [run].
      assert (forall st0 cs0,
                 request_of (bg ++ [show_status st0; play_chunks cs0])
                 = Some (play_chunks cs0)) as Hreq
        by (intros; unfold request_of; rewrite rev_app_distr; reflexivity).
      rewrite Hreq.
      pose proof (answered (S (S k)) (play_chunks cs)) as Hplay.
      cbv beta iota in Hplay. rewrite Hplay.
      cbn [dispatch]. unfold _on_chunk_finished.
      eapply ends_after; [|apply Adv; (assumption || lia)].
      rewrite topic_requests_app, Htr2.
      rewrite topic_requests_none; [apply app_nil_r|].
      apply Forall_app. split; [exact Hbg | repeat constructor].
    + (* the monologue fails *)
      rewrite Hm. cbn [dispatch]. unfold _on_worker_error.
      eapply ends_after; [exact Htr2|]. apply Adv; (assumption || lia).
  - (* the topic fails *)
    rewrite Hm. cbn [dispatch]. unfold _on_worker_error.
    eapply ends_after; [exact Htr1|]. apply Adv; (assumption || lia).
Qed.

Lemma visit_all d : visit_from d.
Proof.
  induction d as [|d IH]; apply visit_step; [exact I | exact IH].
Qed.

End Answers.

End PipelineMore.

(** X7.  Whatever mix of texts and errors answers the generation calls, as
    long as every playback ends with its finished signal, a run of the
    pipeline ends within three signals per prepared persona and raises
    nothing; [_idx] ends at the number of prepared personas, which are the
    same personas in the same order as prepared; a topic was asked for at
    each index [0 .. n-1] once and in this order; and the last call shows
    that all personas are complete. *)
Theorem run_visits_every_persona (path_exists : str -> bool)
  (shuffle : list App.Persona -> list App.Persona) (cfg : App.Config)
  (answer : App.responder) (fuel : nat) :
  PipelineMore.well_answered answer ->
  (3 * length (App.persona_states (App._prepare_personas shuffle cfg App.new))
   <= fuel)%nat ->
  exists final tr,
    App.run_app path_exists answer shuffle cfg fuel = Some (Ok (final, tr))
    /\ map App.persona (App.persona_states final)
       = map App.persona
           (App.persona_states (App._prepare_personas shuffle cfg App.new))
    /\ App._idx final = len (App.persona_states final)
    /\ PipelineFacts.topic_requests tr
       = map Z.of_nat (seq 0 (length (App.persona_states final)))
    /\ exists tr0,
         tr = tr0 ++ [(len (App.persona_states final),
                       App.show_status App.goodbye)].
Proof.
  intros Hans Hf. unfold App.run_app, App.start.
  set (a1 := [App.set_background _; App.show_status _]).
  assert (Forall (fun a => PipelineFacts.is_request a = false) a1) as Ha1
    by (repeat constructor).
  remember (App._prepare_personas shuffle cfg App.new) as self eqn:Eself.
  assert (App._idx self = -1) as Hidx by (subst self; reflexivity).
  assert (App._awaiting self = None) as Haw by (subst self; reflexivity).
  destruct self as [ps i aw]. simpl in Hidx, Haw, Hf. subst i aw.
  cbn [App.persona_states].
  assert (forall final : App.AppController,
             map App.persona (App.persona_states final) = map App.persona ps ->
             length (App.persona_states final) = length ps) as Hlen.
  { intros final E. rewrite <- (length_map App.persona), E.
    apply length_map. }
  destruct ps as [|p ps].
  - rewrite PipelineFacts.next_done by (unfold len; simpl; lia).
    cbn [bind fst snd]. rewrite PipelineFacts.run_final.
    eexists. eexists. split; [reflexivity|]. cbn [App.persona_states App._idx].
    split; [reflexivity|]. split; [reflexivity|].
    split.
    { cbn [app]. apply PipelineFacts.topic_requests_plain.
      apply Forall_app. split; [exact Ha1 | repeat constructor]. }
    eexists. cbn [app]. unfold App.stamp. rewrite map_app. reflexivity.
  - rewrite (PipelineFacts.next_enter path_exists (p :: ps) (-1) None 0 p)
      by reflexivity.
    cbn [bind fst snd].
    destruct (PipelineMore.visit_all path_exists answer Hans
                (map App.persona (p :: ps)) (length ps) 0%nat (p :: ps) a1
                0%nat [] fuel (App.persona p) eq_refl
                ltac:(rewrite length_map; simpl; lia)
                ltac:(simpl in Hf; lia) eq_refl Ha1)
      as (final & tr & E & Hps & Hi & Hreq & Hlast).
    exists final, tr. change (Z.of_nat 0) with 0 in E.
    split; [exact E|]. split; [exact Hps|].
    unfold len in *. rewrite (Hlen final Hps).
    rewrite length_map in Hi, Hlast.
    split; [exact Hi|]. split; [exact Hreq | exact Hlast].
Qed.

(** Topics are found; every other monologue fails. *)
Definition moody_worker : App.responder :=
  fun k req =>
    match req with
    | App.gen_topic => App.worker_generated (lit "old libraries")
    | App.worker_generate _ _ =>
        if Nat.even k then App.worker_error (lit "backend down")
        else App.worker_generated (lit "Dust. Paper and quiet light.")
    | _ => App.chunkPlaybackFinished
    end.

Lemma run_visits_every_persona_witness :
  PipelineMore.well_answered moody_worker
  /\ exists final tr,
       App.run_app (fun _ => false) moody_worker (fun l => l) two_personas 6
       = Some (Ok (final, tr))
       /\ map App.persona (App.persona_states final)
          = map App.persona
              (App.persona_states
                 (App._prepare_personas (fun l => l) two_personas App.new))
       /\ App._idx final = len (App.persona_states final)
       /\ PipelineFacts.topic_requests tr
          = map Z.of_nat (seq 0 (length (App.persona_states final)))
       /\ exists tr0,
            tr = tr0 ++ [(len (App.persona_states final),
                          App.show_status App.goodbye)].
Proof.
  assert (PipelineMore.well_answered moody_worker) as H.
  { intros k req. destruct req; simpl; auto.
    - left. eexists. reflexivity.
    - destruct (Nat.even k); [right | left]; eexists; reflexivity. }
  split; [exact H|].
  apply (run_visits_every_persona (fun _ => false) (fun l => l)
           two_personas moody_worker 6 H).
  simpl. lia.
Defined.

(** * Preparing the personas *)

(** X8.  If the shuffle permutes its list, the personas prepared are
    [min(len(personalities), max(1, num_characters))] of the configured
    ones, each with an empty topic and an empty text: a count of zero or
    less still prepares one persona when there is one, and a missing list
    prepares none. *)
Theorem prepare_personas_count (shuffle : list App.Persona -> list App.Persona)
  (cfg : App.Config) (self : App.AppController) :
  (forall l, Permutation (shuffle l) l) ->
  let prepared := App.persona_states (App._prepare_personas shuffle cfg self) in
  len prepared
  = Z.min (len (App.get (App.personalities cfg) []))
          (Z.max 1 (App.get (App.num_characters cfg) 1))
  /\ Forall (fun st =>
               In (App.persona st) (App.get (App.personalities cfg) [])
               /\ App.topic st = [] /\ App.text st = [])
            prepared
  /\ App._idx (App._prepare_personas shuffle cfg self) = App._idx self.
Proof.
  intros Hperm prepared. unfold prepared, App._prepare_personas.
  cbn [App.persona_states App._idx].
  set (l := App.get (App.personalities cfg) []).
  set (n := App.get (App.num_characters cfg) 1).
  rewrite TopicFacts.slice_prefix by lia.
  split; [|split; [|reflexivity]].
  - unfold len. rewrite length_map, length_firstn.
    rewrite (Permutation_length (Hperm l)). lia.
  - apply Forall_map, Forall_forall. intros p Hp. cbn.
    split; [|auto].
    apply (Permutation_in p (Hperm l)).
    rewrite <- (firstn_skipn (Z.to_nat (Z.max 1 n)) (shuffle l)).
    apply in_or_app. left. exact Hp.
Qed.

Lemma prepare_personas_count_witness :
  (forall l : list App.Persona, Permutation (rev l) l)
  /\ len (App.persona_states
            (App._prepare_personas (@rev App.Persona)
               (App.mk_cfg (App.personalities two_personas) (Some 0))
               App.new))
     = 1.
Proof.
  assert (forall l : list App.Persona, Permutation (rev l) l) as H
    by (intros l; apply Permutation_sym, Permutation_rev).
  split; [exact H|].
  exact (proj1 (prepare_personas_count (@rev App.Persona)
                  (App.mk_cfg (App.personalities two_personas) (Some 0))
                  App.new H)).
Defined.

(** * The gateway without a model *)

Module FallbackFacts.
Import LLM.

Lemma sum_codes_perm (p q : str) :
  Permutation p q -> fold_right N.add 0%N p = fold_right N.add 0%N q.
Proof.
  induction 1 as [|x p q _ IH|x y p|p q r _ IH1 _ IH2]; simpl.
  - reflexivity.
  - rewrite IH. reflexivity.
  - lia.
  - congruence.
Qed.

(** The six arrangements a sample of three can be. *)
Lemma sample_three_cases {A : Type} (raw : nat -> nat) (d a b c : A) :
  In (Random.sample raw d [a; b; c] 3)
     [ [a; b; c]; [a; c; b]; [b; a; c]; [b; c; a]; [c; a; b]; [c; b; a] ].
Proof.
  unfold Random.sample. cbn [Random.sample_pool length Nat.sub].
  unfold Random.randbelow.
  pose proof (Nat.mod_upper_bound (raw 0%nat) 3 ltac:(lia)) as B0.
  destruct (raw 0%nat mod 3)%nat as [|[|[|j0]]] eqn:E0; [| | |lia];
    cbn [Random.set_nth nth length Nat.sub];
    pose proof (Nat.mod_upper_bound (raw 1%nat) 2 ltac:(lia)) as B1;
    destruct (raw 1%nat mod 2)%nat as [|[|j1]] eqn:E1; try lia;
    cbn [Random.set_nth nth length Nat.sub];
    rewrite Nat.mod_1_r; cbn [nth]; simpl; auto 10.
Qed.

(** The topic each filler paragraph leads to when it comes first. *)
Definition fallback_topics (unicode_alnum : char -> bool) : list str :=
  map (fun p => Py.slice (sanitize unicode_alnum p) 0 64) samples.

End FallbackFacts.

(** X9.  The interface is available exactly when [llama_cpp] was imported,
    the model path is not empty and the model loaded; then a model is held.
    In every other case each call of [generate] returns the fallback text,
    whatever the prompt and the token budget. *)
Theorem new_availability (Llama : option (LLM.LLMConfig -> option LLM.backend))
  (c : LLM.LLMConfig) :
  (LLM.available (LLM.new Llama c) = true
   <-> exists load m,
         Llama = Some load /\ LLM.model_path c <> [] /\ load c = Some m)
  /\ (LLM.available (LLM.new Llama c) = true ->
      LLM._llm (LLM.new Llama c) <> None)
  /\ (LLM.available (LLM.new Llama c) = false ->
      forall draw prompt max_tokens,
        LLM.generate draw (LLM.new Llama c) prompt max_tokens
        = LLM._dummy_generate draw prompt).
Proof.
  unfold LLM.new, LLM.available.
  destruct Llama as [load|]; [destruct (LLM.model_path c) eqn:Ep;
                              [|destruct (load c) as [m|] eqn:El]|];
    cbn [LLM._available LLM._llm];
    (split; [split; [try discriminate | intros (l0 & m0 & E1 & E2 & E3)]
            |split; [try discriminate | try discriminate; reflexivity]]).
  - injection E1 as <-. contradiction.
  - intros _. exists load, m. repeat split; [discriminate | exact El].
  - reflexivity.
  - injection E1 as <-. congruence.
  - discriminate.
Qed.

Lemma new_availability_witness :
  LLM.available (LLM.new None example_config) = false
  /\ LLM.generate (fun _ i => i) (LLM.new None example_config)
       (lit "Tell me about kettles.") 512
     = LLM._dummy_generate (fun _ i => i) (lit "Tell me about kettles.").
Proof.
  assert (LLM.available (LLM.new None example_config) = false) as H
    by reflexivity.
  split; [exact H|].
  exact (proj2 (proj2 (new_availability None example_config)) H
           (fun _ i => i) (lit "Tell me about kettles.") 512).
Defined.

(** X10.  Two prompts with the same characters in any order get the same
    fallback text: the seed is a sum, blind to the order. *)
Theorem fallback_ignores_order (draw : Z -> nat -> nat) (prompt prompt' : str) :
  Permutation prompt prompt' ->
  LLM.seed_of prompt = LLM.seed_of prompt'
  /\ LLM._dummy_generate draw prompt = LLM._dummy_generate draw prompt'.
Proof.
  intros H.
  assert (LLM.seed_of prompt = LLM.seed_of prompt') as E
    by (unfold LLM.seed_of; rewrite (FallbackFacts.sum_codes_perm _ _ H);
        reflexivity).
  split; [exact E|]. unfold LLM._dummy_generate. rewrite E. reflexivity.
Qed.

Lemma fallback_ignores_order_witness :
  Permutation (lit "dog") (lit "god")
  /\ LLM.seed_of (lit "dog") = LLM.seed_of (lit "god")
  /\ LLM._dummy_generate (fun _ i => i) (lit "dog")
     = LLM._dummy_generate (fun _ i => i) (lit "god").
Proof.
  assert (Permutation (lit "dog") (lit "god")) as H.
  { unfold lit. simpl.
    apply (Permutation_cons_app [N_of_ascii "g"; N_of_ascii "o"] []).
    apply perm_swap. }
  split; [exact H|].
  exact (fallback_ignores_order (fun _ i => i) _ _ H).
Defined.

(** X11.  Without a usable backend the topic never comes from the default
    set: whatever the prompt seed draws, [generate_topic] returns exactly 64
    characters, the sanitized beginning of the filler paragraph that the
    sample put first. *)
Theorem fallback_topic (draw : Z -> nat -> nat) (unicode_alnum : char -> bool)
  (llm : LLM.LLMInterface) (rnd : nat) :
  backend_text llm LLM.topic_prompt 24 = None ->
  In (LLM.generate_topic draw unicode_alnum llm rnd)
     (FallbackFacts.fallback_topics unicode_alnum)
  /\ len (LLM.generate_topic draw unicode_alnum llm rnd) = 64
  /\ ~ In (LLM.generate_topic draw unicode_alnum llm rnd) LLM.default_topics.
Proof.
  intros H.
  assert (LLM.generate draw llm LLM.topic_prompt 24
          = LLM._dummy_generate draw LLM.topic_prompt) as E.
  { revert H. unfold backend_text, LLM.generate.
    destruct (LLM._available llm); simpl; [|reflexivity].
    destruct (LLM._llm llm) as [model|]; [|reflexivity].
    destruct (model LLM.topic_prompt 24); [discriminate | reflexivity]. }
  unfold LLM.generate_topic. rewrite E. unfold LLM._dummy_generate.
  pose proof (FallbackFacts.sample_three_cases
                (draw (LLM.seed_of LLM.topic_prompt)) []
                (nth 0 LLM.samples []) (nth 1 LLM.samples [])
                (nth 2 LLM.samples [])) as C.
  change [nth 0 LLM.samples []; nth 1 LLM.samples []; nth 2 LLM.samples []]
    with LLM.samples in C.
  change (length LLM.samples) with 3%nat.
  destruct C as [C|[C|[C|[C|[C|[C|[]]]]]]]; rewrite <- C; clear C;
    (split; [|split]);
    first [ vm_compute; tauto
          | vm_compute; reflexivity
          | vm_compute; intros [K|[K|[K|[K|[]]]]]; discriminate ].
Qed.

Lemma fallback_topic_witness :
  let llm := LLM.mk_llm example_config None false in
  backend_text llm LLM.topic_prompt 24 = None
  /\ len (LLM.generate_topic (fun _ i => i) (fun _ => false) llm 0) = 64.
Proof.
  intros llm.
  assert (backend_text llm LLM.topic_prompt 24 = None) as H by reflexivity.
  split; [exact H|].
  exact (proj1 (proj2 (fallback_topic (fun _ i => i) (fun _ => false) llm 0 H))).
Defined.

(** * The markup of a chunk *)

Module HtmlFacts.
Import UI.

(** What becomes of one character of the text. *)
Definition esc (c : char) : str :=
  if (c =? 38)%N then lit "&amp;"
  else if (c =? 60)%N then lit "&lt;"
  else if (c =? 62)%N then lit "&gt;"
  else if (c =? 34)%N then lit "&quot;"
  else [c].

Definition esc_br (c : char) : str :=
  if (c =? Chr.newline)%N then lit "<br/>" else esc c.

(** The text of a chunk as it stands between the [div] tags. *)
Definition markup (text : str) : str :=
  replace_char Chr.newline (lit "<br/>") (_escape_html text).

Lemma flat_map_flat_map {A B C : Type} (f : A -> list B) (g : B -> list C) l :
  flat_map g (flat_map f l) = flat_map (fun x => flat_map g (f x)) l.
Proof.
  induction l as [|x l IH]; [reflexivity|].
  simpl. rewrite flat_map_app, IH. reflexivity.
Qed.

Ltac split_tests :=
  repeat match goal with
    | |- context [(?c =? ?k)%N] =>
        destruct (N.eqb_spec c k); [subst c|]; cbv iota
    end.

Lemma escape_single_pass s : _escape_html s = flat_map esc s.
Proof.
  unfold _escape_html, replace_char. rewrite !flat_map_flat_map.
  apply flat_map_ext. intros c. unfold esc.
  destruct (N.eqb_spec c 38); [subst c; reflexivity|].
  cbn [flat_map app].
  destruct (N.eqb_spec c 60); [subst c; reflexivity|].
  cbn [flat_map app].
  destruct (N.eqb_spec c 62); [subst c; reflexivity|].
  cbn [flat_map app].
  destruct (N.eqb_spec c 34); [subst c; reflexivity|].
  reflexivity.
Qed.

Lemma markup_single_pass s : markup s = flat_map esc_br s.
Proof.
  unfold markup. rewrite escape_single_pass. unfold replace_char.
  rewrite flat_map_flat_map. apply flat_map_ext. intros c.
  unfold esc_br, esc, Chr.newline.
  destruct (N.eqb_spec c 10); [subst c; reflexivity|].
  destruct (N.eqb_spec c 38); [subst c; reflexivity|].
  destruct (N.eqb_spec c 60); [subst c; reflexivity|].
  destruct (N.eqb_spec c 62); [subst c; reflexivity|].
  destruct (N.eqb_spec c 34); [subst c; reflexivity|].
  cbn [flat_map app]. destruct (N.eqb_spec c 10); [contradiction | reflexivity].
Qed.

(** A character-wise translation whose images are not empty and tell their
    character by their beginning loses nothing. *)
Lemma flat_map_injective {A B : Type} (f : A -> list B) :
  (forall a, f a <> []) ->
  (forall a b x y, f a ++ x = f b ++ y -> a = b) ->
  forall s t, flat_map f s = flat_map f t -> s = t.
Proof.
  intros Hne Hpre. induction s as [|a s IH]; intros [|b t] E; simpl in E.
  - reflexivity.
  - symmetry in E. apply app_eq_nil in E as [E _]. destruct (Hne b E).
  - apply app_eq_nil in E as [E _]. destruct (Hne a E).
  - pose proof (Hpre a b _ _ E) as ->.
    apply app_inv_head in E. f_equal. apply IH, E.
Qed.

Lemma esc_br_nonempty c : esc_br c <> [].
Proof. unfold esc_br, esc, Chr.newline. split_tests; discriminate. Qed.

Lemma esc_br_prefix a b x y : esc_br a ++ x = esc_br b ++ y -> a = b.
Proof.
  unfold esc_br, esc, Chr.newline. split_tests; intros H;
    try reflexivity; cbn in H; try discriminate H;
    injection H; intros; subst; congruence.
Qed.

Lemma esc_nonempty c : esc c <> [].
Proof. unfold esc. split_tests; discriminate. Qed.

Lemma esc_prefix a b x y : esc a ++ x = esc b ++ y -> a = b.
Proof.
  unfold esc. split_tests; intros H;
    try reflexivity; cbn in H; try discriminate H;
    injection H; intros; subst; congruence.
Qed.

Definition plain (c : char) : Prop := c <> 60%N /\ c <> 62%N /\ c <> 34%N.

Lemma esc_plain c : Forall plain (esc c).
Proof.
  unfold esc, plain. split_tests;
    repeat constructor; try discriminate; assumption.
Qed.

Lemma Forall_flat_map {A B : Type} (P : B -> Prop) (f : A -> list B) l :
  (forall a, Forall P (f a)) -> Forall P (flat_map f l).
Proof.
  intros H. induction l as [|a l IH]; simpl; [constructor|].
  apply Forall_app. split; [apply H | exact IH].
Qed.

Lemma esc_br_no_newline c : Forall (fun x => x <> Chr.newline) (esc_br c).
Proof.
  unfold esc_br, esc, Chr.newline. split_tests;
    repeat constructor; try discriminate; assumption.
Qed.

Definition head (self : UIRenderer) : str :=
  lit "<div style='text-align:center; font-size:"
  ++ Py.str_of_Z (match font_point_size self with Some n => n | None => 16 end)
  ++ lit "pt;'>".

Lemma wrap_markup self text :
  _wrap_html self text = head self ++ markup text ++ lit "</div>".
Proof.
  unfold _wrap_html, head, markup. rewrite <- !app_assoc. reflexivity.
Qed.

End HtmlFacts.

(** X12.  [_escape_html] translates each character on its own: [&], [<],
    [>] and the double quote become their entities and nothing is escaped
    twice.  The result holds no [<], [>] or double quote, and two different
    texts never have the same escaped form. *)
Theorem escape_html_safe (s : str) :
  UI._escape_html s = flat_map HtmlFacts.esc s
  /\ Forall HtmlFacts.plain (UI._escape_html s)
  /\ forall t, UI._escape_html s = UI._escape_html t -> s = t.
Proof.
  split; [apply HtmlFacts.escape_single_pass|]. split.
  - rewrite HtmlFacts.escape_single_pass.
    apply HtmlFacts.Forall_flat_map, HtmlFacts.esc_plain.
  - intros t E. rewrite !HtmlFacts.escape_single_pass in E.
    revert E. apply HtmlFacts.flat_map_injective.
    + apply HtmlFacts.esc_nonempty.
    + apply HtmlFacts.esc_prefix.
Qed.

(** X13.  The markup a window shows for a chunk is its text between the
    opening tag of the window and [</div>], with the entities and with
    [<br/>] for every newline; it holds no newline, and two chunks with the
    same markup in the same window have the same text. *)
Theorem wrap_html_faithful (self : UI.UIRenderer) (text text' : str) :
  UI._wrap_html self text
  = HtmlFacts.head self ++ flat_map HtmlFacts.esc_br text ++ lit "</div>"
  /\ ~ In Chr.newline (flat_map HtmlFacts.esc_br text)
  /\ (UI._wrap_html self text = UI._wrap_html self text' -> text = text').
Proof.
  split; [rewrite HtmlFacts.wrap_markup, HtmlFacts.markup_single_pass;
          reflexivity|].
  split.
  - intros Hin.
    pose proof (HtmlFacts.Forall_flat_map (fun x => x <> Chr.newline)
                  HtmlFacts.esc_br text HtmlFacts.esc_br_no_newline) as F.
    eapply Forall_forall in F; [|exact Hin]. contradiction.
  - intros E. rewrite !HtmlFacts.wrap_markup in E.
    apply app_inv_head, app_inv_tail in E.
    rewrite !HtmlFacts.markup_single_pass in E. revert E.
    apply HtmlFacts.flat_map_injective.
    + apply HtmlFacts.esc_br_nonempty.
    + apply HtmlFacts.esc_br_prefix.
Qed.

(** * The session and the event loop *)

Module SessionFacts.
Import UI.

Lemma record_window w e : window (record w e) = window w.
Proof. destruct e as [| | | | | |a [cb|]| |]; reflexivity. Qed.

Lemma fold_record_window effs : forall w,
  window (fold_left record effs w) = window w.
Proof.
  induction effs as [|e effs IH]; intros w; [reflexivity|].
  simpl. rewrite IH. apply record_window.
Qed.

Lemma perform_window w f : window (perform w f) = fst (f (window w)).
Proof.
  unfold perform. destruct (f (window w)) as [self effs].
  rewrite fold_record_window. reflexivity.
Qed.

(** What of a session a window keeps, and how far its index has come. *)
Definition follows (a b : UIRenderer) : Prop :=
  _chunk_idx a <= _chunk_idx b
  /\ chunks b = chunks a
  /\ _chunk_duration_ms b = _chunk_duration_ms a
  /\ font_point_size b = font_point_size a
  /\ chunk_duration_s b = chunk_duration_s a.

Lemma follows_refl a : follows a a.
Proof. unfold follows. repeat split; lia. Qed.

Lemma follows_trans a b c : follows a b -> follows b c -> follows a c.
Proof.
  unfold follows. intros (H1 & H2 & H3 & H4 & H5) (K1 & K2 & K3 & K4 & K5).
  repeat split; try lia; congruence.
Qed.

Lemma show_next_follows self initial :
  follows self (fst (_show_next_chunk self initial))
  /\ _chunk_idx (fst (_show_next_chunk self initial)) = _chunk_idx self + 1.
Proof.
  unfold _show_next_chunk, follows. cbn [set_session _chunk_idx chunks].
  destruct (_chunk_idx self + 1 >=? len (chunks self)); [|destruct initial];
    cbn; repeat split; lia.
Qed.

Lemma call_follows connected self cb :
  follows self (fst (fst (call connected self cb))).
Proof.
  destruct cb; cbn [call]; try apply follows_refl.
  - destruct (connected fade_out); apply follows_refl.
  - destruct (existsb _ _); apply follows_refl.
  - pose proof (show_next_follows self false) as [F _].
    destruct (_show_next_chunk self false). exact F.
Qed.

Lemma dispatch_window w cb :
  window (dispatch w cb) = fst (fst (call (slots w) (window w) cb)).
Proof.
  unfold dispatch. destruct (call (slots w) (window w) cb) as [[self effs] e].
  destruct e; cbn [window fst]; apply fold_record_window.
Qed.

Lemma dispatch_follows w cb : follows (window w) (window (dispatch w cb)).
Proof. rewrite dispatch_window. apply call_follows. Qed.

Lemma fold_dispatch_follows cbs : forall w,
  follows (window w) (window (fold_left dispatch cbs w)).
Proof.
  induction cbs as [|cb cbs IH]; intros w; [apply follows_refl|].
  simpl. eapply follows_trans; [|apply IH]. apply dispatch_follows.
Qed.

End SessionFacts.

(** X14.  No turn of the event loop, whichever timer fires or animation
    ends, takes the chunk index back or touches the chunks, the hold
    duration or the font of the session: within a session the index only
    grows. *)
Theorem turn_keeps_session (w w' : UI.world) :
  UI.turn w w' ->
  UI._chunk_idx (UI.window w) <= UI._chunk_idx (UI.window w')
  /\ UI.chunks (UI.window w') = UI.chunks (UI.window w)
  /\ UI._chunk_duration_ms (UI.window w') = UI._chunk_duration_ms (UI.window w).
Proof.
  intros T.
  assert (SessionFacts.follows (UI.window w) (UI.window w')) as F.
  { destruct T as [w pre ms cb post E|w a Hin].
    - apply (SessionFacts.dispatch_follows
               (UI.mk_world (UI.window w) (pre ++ post) (UI.slots w)
                            (UI.running w) (UI.log w) (UI.uncaught w)) cb).
    - apply (SessionFacts.fold_dispatch_follows (UI.slots w a)
               (UI.mk_world (UI.window w) (UI.timers w) (UI.slots w)
                  (filter (fun b => negb (UI.animation_eqb a b))
                          (UI.running w))
                  (UI.log w) (UI.uncaught w))). }
  destruct F as (F1 & F2 & F3 & _). auto.
Qed.

Definition one_chunk_world : UI.world :=
  UI.perform (UI.new_world (UI.new None None))
    (fun self => UI.play_chunks self [lit "Dust."] None).

Definition holding_world : UI.world :=
  UI.dispatch
    (UI.mk_world (UI.window one_chunk_world) (UI.timers one_chunk_world)
       (UI.slots one_chunk_world) [] (UI.log one_chunk_world)
       (UI.uncaught one_chunk_world))
    UI._hold_then_fade.

Lemma turn_keeps_session_witness :
  UI.turn one_chunk_world holding_world
  /\ UI._chunk_idx (UI.window one_chunk_world)
     <= UI._chunk_idx (UI.window holding_world)
  /\ UI.chunks (UI.window holding_world)
     = UI.chunks (UI.window one_chunk_world)
  /\ UI._chunk_duration_ms (UI.window holding_world)
     = UI._chunk_duration_ms (UI.window one_chunk_world).
Proof.
  assert (UI.turn one_chunk_world holding_world) as T
    by (apply (UI.animation_ends one_chunk_world UI.fade_in); left; reflexivity).
  split; [exact T|]. exact (turn_keeps_session _ _ T).
Defined.

(** X15.  A session started with at least one chunk, in a new world: the
    index is 0, the opacity is set to 0, the first chunk's markup is shown
    and only the fade-in starts, with no timer and no fade-out before.  The
    one turn possible then is the end of the fade-in, which schedules the
    fade-out after a hold of [max(1000, 1000 * duration_s)] ms, one second
    at least. *)
Theorem first_chunk_fades_in (self : UI.UIRenderer) (c : str) (cs : list str)
  (duration_s : option Z) :
  let w1 := UI.perform (UI.new_world self)
              (fun self => UI.play_chunks self (c :: cs) duration_s) in
  let hold := Z.max 1000
                (match duration_s with
                 | Some d => d
                 | None => UI.chunk_duration_s self
                 end * 1000) in
  UI._chunk_idx (UI.window w1) = 0
  /\ UI.log w1
     = [UI.opacity_setOpacity 0;
        UI.balloon_setHtml (UI._wrap_html self c);
        UI._center_text_vertically;
        UI.finished_connect UI.fade_in UI._hold_then_fade;
        UI.animation_start UI.fade_in]
  /\ UI.timers w1 = [] /\ UI.running w1 = [UI.fade_in]
  /\ 1000 <= hold
  /\ (exists w2, UI.turn w1 w2)
  /\ forall w2,
       UI.turn w1 w2 ->
       UI.log w2
       = UI.log w1
         ++ [UI.finished_disconnect UI.fade_in (Some UI._hold_then_fade);
             UI.singleShot hold UI._start_fade_out]
       /\ UI.timers w2 = [(hold, UI._start_fade_out)]
       /\ UI.running w2 = []
       /\ UI._chunk_idx (UI.window w2) = 0.
Proof.
  intros w1 hold.
  assert (UI.timers w1 = []) as T by reflexivity.
  assert (UI.running w1 = [UI.fade_in]) as R by reflexivity.
  assert (UI.slots w1 UI.fade_in = [UI._hold_then_fade]) as S by reflexivity.
  assert (UI._chunk_duration_ms (UI.window w1) = hold) as D by reflexivity.
  assert (UI._chunk_idx (UI.window w1) = 0) as I by reflexivity.
  assert (UI.log w1
          = [UI.opacity_setOpacity 0;
             UI.balloon_setHtml (UI._wrap_html self c);
             UI._center_text_vertically;
             UI.finished_connect UI.fade_in UI._hold_then_fade;
             UI.animation_start UI.fade_in]) as L by reflexivity.
  clearbody w1.
  split; [exact I|]. split; [exact L|]. split; [exact T|]. split; [exact R|].
  split; [unfold hold; lia|].
  split.
  { eexists. apply (UI.animation_ends w1 UI.fade_in). rewrite R. left.
    reflexivity. }
  intros w2 Hturn. inversion Hturn as [w' pre ms cb post E|w' a Hin]; subst.
  - rewrite T in E. destruct pre; discriminate.
  - rewrite R in Hin. destruct Hin as [<-|[]].
    rewrite S, R. cbn [fold_left filter UI.animation_eqb negb].
    unfold UI.dispatch. cbn [UI.slots UI.window UI.call].
    rewrite S. cbn [existsb UI.callback_eqb orb].
    cbn [UI.window fold_left UI.record UI.log UI.timers UI.running UI.slots
         UI.uncaught].
    rewrite D, T, <- app_assoc. auto.
Qed.

(** The hold of that first chunk: when its timer fires, nothing is connected
    to the end of the fade-out yet, so the [disconnect()] of
    [_start_fade_out] raises [TypeError]; [show_next] is not connected and
    the fade-out is not started.  Nothing is pending afterwards: the event
    loop has no turn left and the finished signal was not emitted. *)
Definition stalled_world : UI.world :=
  UI.dispatch
    (UI.mk_world (UI.window holding_world) [] (UI.slots holding_world)
       (UI.running holding_world) (UI.log holding_world)
       (UI.uncaught holding_world))
    UI._start_fade_out.

Example first_hold_raises :
  UI.turn holding_world stalled_world
  /\ UI.uncaught stalled_world = [TypeError]
  /\ UI.log stalled_world
     = UI.log holding_world ++ [UI.finished_disconnect UI.fade_out None]
  /\ UI.slots stalled_world UI.fade_out = []
  /\ UI.idle stalled_world
  /\ (forall w, ~ UI.turn stalled_world w)
  /\ ~ In UI.chunkPlaybackFinished (UI.log stalled_world).
Proof.
  split.
  { apply (UI.timer_fires holding_world [] 30000 UI._start_fade_out []).
    reflexivity. }
  split; [reflexivity|]. split; [reflexivity|]. split; [reflexivity|].
  split; [split; reflexivity|].
  split.
  - intros w T. inversion T as [w' pre ms cb post E|w' a Hin]; subst.
    + destruct pre; discriminate.
    + contradiction.
  - intros H. vm_compute in H.
    repeat (destruct H as [H|H]; [discriminate|]). contradiction.
Qed.

(** * A text within the budget *)

Module WholeFacts.
Import Str StrFacts SplitFacts Chunker ChunkerFacts CanonFacts SentenceFacts
  GroupFacts.

Lemma words_of_filter_wordy ss : words_of (filter wordy ss) = words_of ss.
Proof.
  induction ss as [|s ss IH]; [reflexivity|].
  simpl. unfold wordy at 1. destruct (split s) eqn:E.
  - rewrite IH. unfold words_of at 2. simpl. rewrite E. reflexivity.
  - unfold words_of in *. simpl. rewrite IH. reflexivity.
Qed.

Lemma words_of_concat gs :
  words_of (concat gs) = concat (map words_of gs).
Proof.
  induction gs as [|g gs IH]; [reflexivity|].
  simpl. rewrite words_of_app, IH. reflexivity.
Qed.

(** Every sentence has no more words than the text. *)
Lemma sentence_within ss s : In s ss -> len (split s) <= len (words_of ss).
Proof.
  induction ss as [|x ss IH]; intros Hin; [contradiction|].
  unfold words_of in *. simpl. rewrite len_app.
  destruct Hin as [->|H].
  - pose proof (len_nonneg (concat (map split ss))). lia.
  - pose proof (len_nonneg (split x)). specialize (IH H). lia.
Qed.

End WholeFacts.

(** X16.  A text of at least one and at most [max_words] words comes back as
    one chunk, the whitespace-normalized text itself, however many
    sentences it has. *)
Theorem text_within_budget_is_one_chunk (text : str) (max_words : Z) :
  1 <= len (split text) <= max_words ->
  split_into_sentence_chunks text max_words = Ok [normalize text].
Proof.
  intros [H1 H2].
  assert (1 <= max_words) as Hm by lia.
  pose proof (re_split_sentences_words (normalize text)) as Hw.
  rewrite split_normalize in Hw. fold (words_of (re_split_sentences (normalize text))) in Hw.
  assert (Forall (fun s => len (split s) <= max_words)
            (re_split_sentences (normalize text))) as Hfit.
  { apply Forall_forall. intros s Hs.
    pose proof (WholeFacts.sentence_within _ s Hs) as B. rewrite Hw in B. lia. }
  destruct (text_grouped text max_words Hm Hfit)
    as (groups & E & C & B & T).
  assert (len (words_of (concat groups)) = len (split text)) as Htot.
  { rewrite C, WholeFacts.words_of_filter_wordy, Hw. reflexivity. }
  pose proof (chunks_join text max_words _ Hm E) as J.
  destruct groups as [|g [|h rest]].
  - simpl in Htot. unfold len in *. simpl in Htot. lia.
  - rewrite E. change (join_sp (map join_sp [g])) with (join_sp g) in J.
    cbn [map]. rewrite J. reflexivity.
  - exfalso. destruct T as [T _].
    inversion B as [|? ? _ B']; subst. inversion B' as [|? ? [Hh _] _]; subst.
    destruct h as [|s h]; [contradiction|].
    simpl concat in Htot. rewrite !words_of_app in Htot.
    change (s :: h ++ concat rest) with ([s] ++ (h ++ concat rest)) in Htot.
    rewrite words_of_app, words_of_single, !len_app in Htot.
    pose proof (len_nonneg (words_of (h ++ concat rest))). lia.
Qed.

Lemma text_within_budget_is_one_chunk_witness :
  1 <= len (split (lit " Dust.  Paper and quiet light. ")) <= 40
  /\ split_into_sentence_chunks (lit " Dust.  Paper and quiet light. ") 40
     = Ok [normalize (lit " Dust.  Paper and quiet light. ")].
Proof.
  assert (1 <= len (split (lit " Dust.  Paper and quiet light. ")) <= 40)
    as H by (split; discriminate).
  split; [exact H|].
  exact (text_within_budget_is_one_chunk _ 40 H).
Defined.

(** * The controller's slot for generated text *)

(** X17.  When a monologue arrives for persona [j], the controller raises
    nothing, stores the text in that persona's state and waits for nothing
    more; its last call hands to playback the chunks of the text for the
    budget [max(40, max_words_per_chunk)] (120 when the key is missing):
    each of one to that many words, together the words of the text.  No
    generation call is made. *)
Theorem monologue_is_chunked_and_played (path_exists : str -> bool)
  (ps : list App.PersonaState) (j : nat) (st : App.PersonaState) (text : str) :
  nth_error ps j = Some st ->
  let budget := Z.max 40 (App.get (App.max_words_per_chunk (App.persona st))
                                  120) in
  exists ps' before cs,
    App._on_worker_generated path_exists
      (App.mk_ctrl ps (Z.of_nat j) (Some App.Text)) text
    = Ok (App.mk_ctrl ps' (Z.of_nat j) None, before ++ [App.play_chunks cs])
    /\ nth_error ps' j
       = Some (App.mk_pstate (App.persona st) (App.topic st) text)
    /\ map App.persona ps' = map App.persona ps
    /\ split_into_sentence_chunks text budget = Ok cs
    /\ Forall (fun c => 1 <= len (split c) <= budget) cs
    /\ concat (map split cs) = split text
    /\ Forall (fun a => PipelineFacts.is_request a = false) before.
Proof.
  intros Est budget.
  destruct (ChunkerFacts.chunks_ok text budget ltac:(unfold budget; lia))
    as (cs & Ecs & W & B).
  unfold App._on_worker_generated. cbn [App._awaiting App.persona_states App._idx].
  rewrite (PipelineFacts.index_nth ps j st Est). cbn [bind].
  fold budget. rewrite Ecs. cbn [bind].
  rewrite PipelineMore.update_at_nat.
  eexists. exists ((if path_exists (App.path_join (lit "assets") (lit "ready.jpg"))
            then [App.set_background
                    (Some (App.path_join (lit "assets") (lit "ready.jpg")))]
            else [])
           ++ [App.show_status (lit "Displaying " ++ Py.str_of_Z (len cs)
                                ++ lit " chunks" ++ [App.ellipsis])]), cs.
  split; [rewrite <- app_assoc; reflexivity|].
  split.
  { exact (PipelineMore.update_nth
             (fun s => App.mk_pstate (App.persona s) (App.topic s) text)
             ps j st Est). }
  split; [apply PipelineMore.update_map; reflexivity|].
  split; [reflexivity|]. split; [exact B|]. split; [exact W|].
  apply Forall_app. split; [|repeat constructor].
  destruct (path_exists _); repeat constructor.
Qed.

Lemma monologue_is_chunked_and_played_witness :
  let st := App.mk_pstate
              (App.mk_persona (Some (lit "ada")) None None None None None
                              (Some 5) None)
              (lit "old libraries") [] in
  nth_error [st] 0 = Some st
  /\ exists ps' before cs,
       App._on_worker_generated (fun _ => false)
         (App.mk_ctrl [st] 0 (Some App.Text))
         (lit "Dust. Paper and quiet light.")
       = Ok (App.mk_ctrl ps' 0 None, before ++ [App.play_chunks cs])
       /\ split_into_sentence_chunks (lit "Dust. Paper and quiet light.") 40
          = Ok cs.
Proof.
  intros st.
  assert (nth_error [st] 0 = Some st) as H by reflexivity.
  split; [exact H|].
  destruct (monologue_is_chunked_and_played (fun _ => false) [st] 0 st
              (lit "Dust. Paper and quiet light.") H)
    as (ps' & before & cs & E & _ & _ & Ecs & _).
  exists ps', before, cs. split; [exact E | exact Ecs].
Defined.
